(** * cube_dq_utils: the DQ plane of an IFU cube

    A shallow embedding of [jwst/cube_build/src/cube_dq_utils.c] and the
    properties of its boundary finders, rasterizers and orchestrators.

    Conventions of the embedding.
    - A C [double] is a primitive binary64 float.  A C [float] is a binary64
      float that went through [to_f32], the IEEE rounding to binary32 (every
      binary32 number is a binary64 number, and comparisons agree).
    - A C [int] or [long] is a [Z]; signed overflow (undefined in C) is not
      modelled, sizes and indices are taken to fit.
    - An array is a [list]; an access through [rd] or [wr] outside the
      array, or through a null pointer, is undefined behaviour and makes
      the enclosing computation [None].
    - The point cloud [coord1[], coord2[], wave[], sliceno[]] of [npt]
      entries is one list of [point] records. *)

From Stdlib Require Import ZArith Floats Lia.
From stdpp Require Import base tactics option list.

Local Open Scope Z_scope.

(** ** C numbers *)

Definition INT_MIN : Z := - 2 ^ 31.
Definition INT_MAX : Z := 2 ^ 31 - 1.

(** [(int)x] for a double [x]: truncation toward zero.  C leaves the
    conversion undefined when the truncated value does not fit (or [x] is
    not finite); the model returns what x86-64 [cvttsd2si] returns then,
    [INT_MIN]. *)
Definition to_int (x : float) : Z :=
  match Prim2SF x with
  | S754_zero _ => 0
  | S754_finite s m e =>
      let a := if 0 <=? e then Z.pos m * 2 ^ e else Z.pos m / 2 ^ (- e) in
      let v := if s then - a else a in
      if (INT_MIN <=? v) && (v <=? INT_MAX) then v else INT_MIN
  | _ => INT_MIN
  end.

(** Rounding of a binary64 number to the binary32 format (precision 24,
    [emax] 128), to nearest, ties to even, and the exact injection of the
    result back into binary64 (precision 53, [emax] 1024). *)
Definition SF_round (prec emax : Z) (x : spec_float) : spec_float :=
  match x with
  | S754_finite s m e => binary_normalize prec emax (cond_Zopp s (Z.pos m)) e s
  | _ => x
  end.

Definition to_f32 (x : float) : float :=
  SF2Prim (SF_round 53 1024 (SF_round 24 128 (Prim2SF x))).

(** [x > y] and [x != y] of C, on doubles. *)
Definition gtb (x y : float) : bool := (y <? x)%float.
Definition neqb (x y : float) : bool := negb (x =? y)%float.

Infix ">?" := gtb (at level 70, no associativity) : float_scope.
Infix "!=?" := neqb (at level 70, no associativity) : float_scope.

(** ** Arrays *)

Definition rd {A} (a : list A) (i : Z) : option A :=
  if bool_decide (0 ≤ i) then a !! Z.to_nat i else None.

Definition wr {A} (a : list A) (i : Z) (v : A) : option (list A) :=
  if bool_decide (0 ≤ i < Z.of_nat (length a)) then Some (<[Z.to_nat i := v]> a) else None.

(** [for (i = lo; i < hi; i++) body], for a body that does not assign [i]:
    [for_loop n lo body] runs the [n] iterations [lo, lo+1, ...]. *)
Fixpoint for_loop {St} (n : nat) (i : Z) (body : Z → St → option St)
    (s : St) : option St :=
  match n with
  | O => Some s
  | S n' => s' ← body i s; for_loop n' (i + 1) body s'
  end.

Definition for_range {St} (lo hi : Z) (body : Z → St → option St)
    (s : St) : option St :=
  for_loop (Z.to_nat (hi - lo)) lo body s.

(** ** Data model *)

Record point := Point {
  coord1 : float;
  coord2 : float;
  wave : float;
  sliceno : float
}.

(** A corner array [double corner[2]]: [(corner[0], corner[1])]. *)
Definition corner : Type := float * float.

Record corners := Corners {
  corner1 : corner;
  corner2 : corner;
  corner3 : corner;
  corner4 : corner
}.

Definition corner_of (p : point) : corner := (coord1 p, coord2 p).

(** ** corner_wave_plane_miri *)

(** A tracked extremum: the running value (the C variable [c1_start_min],
    a [float]) and the index of the point that set it (the C variable
    [ic1_start_min], [-1] while none did). *)
Record extremum := Extremum {
  value : float;
  index : Z
}.

(** [if (c < m) { m = c; im = ipt; }] *)
Definition track_min (c : float) (ipt : Z) (m : extremum) : extremum :=
  if (c <? value m)%float then Extremum c ipt else m.

(** [if (c > m) { m = c; im = ipt; }] *)
Definition track_max (c : float) (ipt : Z) (m : extremum) : extremum :=
  if (c >? value m)%float then Extremum c ipt else m.

Record scan_state := ScanState {
  c1_start_min : extremum;
  c1_start_max : extremum;
  c2_start_min : extremum;
  c2_start_max : extremum;
  c1_end_min : extremum;
  c1_end_max : extremum;
  c2_end_min : extremum;
  c2_end_max : extremum
}.

Definition scan_init : scan_state :=
  let lo := Extremum 10000 (-1) in
  let hi := Extremum (-10000) (-1) in
  ScanState lo hi lo hi lo hi lo hi.

(** The body of the loop over the point cloud, for point [ipt];
    [zw] is [zc[w]]. *)
Definition scan_point (zw : float) (start_region end_region : Z)
    (roiw_ave : float) (ipt : Z) (p : point) (st : scan_state) : scan_state :=
  let slice := to_int (sliceno p) in
  let wave_distance := PrimFloat.abs (zw - wave p)%float in
  if (slice =? start_region) || (slice =? end_region) then
    let st :=
      if (wave_distance <? roiw_ave)%float && (slice =? start_region) then
        let c11 := to_f32 (coord1 p) in
        let c21 := to_f32 (coord2 p) in
        if (c11 !=? -1)%float then
          {| c1_start_min := track_min c11 ipt (c1_start_min st);
             c1_start_max := track_max c11 ipt (c1_start_max st);
             c2_start_min := track_min c21 ipt (c2_start_min st);
             c2_start_max := track_max c21 ipt (c2_start_max st);
             c1_end_min := c1_end_min st;
             c1_end_max := c1_end_max st;
             c2_end_min := c2_end_min st;
             c2_end_max := c2_end_max st |}
        else st
      else st in
    if (wave_distance <? roiw_ave)%float && (slice =? end_region) then
      let c12 := to_f32 (coord1 p) in
      let c22 := to_f32 (coord2 p) in
      if (c12 !=? -1)%float then
        {| c1_start_min := c1_start_min st;
           c1_start_max := c1_start_max st;
           c2_start_min := c2_start_min st;
           c2_start_max := c2_start_max st;
           c1_end_min := track_min c12 ipt (c1_end_min st);
           c1_end_max := track_max c12 ipt (c1_end_max st);
           c2_end_min := track_min c22 ipt (c2_end_min st);
           c2_end_max := track_max c22 ipt (c2_end_max st) |}
      else st
    else st
  else st.

(** [for (ipt = 0; ipt < npt; ipt++)], started at index [ipt]. *)
Fixpoint scan_cloud (zw : float) (start_region end_region : Z)
    (roiw_ave : float) (ipt : Z) (cloud : list point) (st : scan_state)
  : scan_state :=
  match cloud with
  | [] => st
  | p :: rest =>
      scan_cloud zw start_region end_region roiw_ave (ipt + 1) rest
        (scan_point zw start_region end_region roiw_ave ipt p st)
  end.

(** The corner of point [i]: [corner[0] = coord1[i]; corner[1] = coord2[i]]. *)
Definition corner_at (cloud : list point) (i : Z) : option corner :=
  corner_of <$> rd cloud i.

(** What follows the loop: the test of the four [coord1] indices and the
    setting of the corners.  The two lengths are [float] differences: the
    binary32 difference of two binary32 numbers is the rounding of their
    binary64 difference. *)
Definition set_corners (cloud : list point) (out : corners) (st : scan_state)
  : option (Z * corners) :=
  if (index (c1_start_min st) =? -1) || (index (c1_start_max st) =? -1)
     || (index (c1_end_min st) =? -1) || (index (c1_end_max st) =? -1)
  then Some (1, out)
  else
    let length_c1_start :=
      to_f32 (value (c1_start_max st) - value (c1_start_min st))%float in
    let length_c2_start :=
      to_f32 (value (c2_start_max st) - value (c2_start_min st))%float in
    let c1_use := if (length_c1_start <? length_c2_start)%float then 0 else 1 in
    if c1_use =? 0 then
      k1 ← corner_at cloud (index (c2_start_min st));
      k2 ← corner_at cloud (index (c2_start_max st));
      k3 ← corner_at cloud (index (c2_end_max st));
      k4 ← corner_at cloud (index (c2_end_min st));
      Some (0, Corners k1 k2 k3 k4)
    else
      k1 ← corner_at cloud (index (c1_start_min st));
      k2 ← corner_at cloud (index (c1_start_max st));
      k3 ← corner_at cloud (index (c1_end_max st));
      k4 ← corner_at cloud (index (c1_end_min st));
      Some (0, Corners k1 k2 k3 k4).

(** The routine returns its status and the four corner arrays, which the
    caller passes in ([out]).  [zc[w]] is read in the loop body, so not at
    all when the cloud is empty. *)
Definition corner_wave_plane_miri (w start_region end_region : Z)
    (roiw_ave : float) (zc : list float) (cloud : list point) (out : corners)
  : option (Z * corners) :=
  st ← match cloud with
       | [] => Some scan_init
       | _ => zw ← rd zc w;
              Some (scan_cloud zw start_region end_region roiw_ave 0 cloud
                      scan_init)
       end;
  set_corners cloud out st.

(** ** overlap_fov_with_spaxels *)

Record bbox := BBox {
  ximin : float;
  ximax : float;
  etamin : float;
  etamax : float
}.

(** The body of [for (i = 1; i < 4; i++)]; the fourth test compares with
    [<], as the source does. *)
Definition bbox_step (xi_corner eta_corner : list float) (i : Z) (b : bbox)
  : option bbox :=
  xi ← rd xi_corner i;
  eta ← rd eta_corner i;
  Some {| ximin := if (xi <? ximin b)%float then xi else ximin b;
          ximax := if (xi >? ximax b)%float then xi else ximax b;
          etamin := if (eta <? etamin b)%float then eta else etamin b;
          etamax := if (eta <? etamax b)%float then eta else etamax b |}.

Definition bounding_box (xi_corner eta_corner : list float) : option bbox :=
  xi0 ← rd xi_corner 0;
  eta0 ← rd eta_corner 0;
  for_range 1 4 (bbox_step xi_corner eta_corner) (BBox xi0 xi0 eta0 eta0).

(** 0.05 and 0.95 as the binary64 numbers the C literals denote. *)
Definition tolerance_dq_overlap : float := 0x1.999999999999ap-5%float.
Definition full_coverage : float := 0x1.e666666666666p-1%float.

Section Polygon.

(** [sh_find_overlap] of [cube_utils.c]: the area of the intersection of
    the rectangle of centre [(xcenter, ycenter)] and sides
    [xlength, ylength] with the polygon of the given corners. *)
Variable sh_find_overlap :
  float → float → float → float → list float → list float → float.

Variables overlap_partial overlap_full : Z.
Variables cdelt1 cdelt2 : float.
Variables naxis1 naxis2 : Z.
Variables xcenters ycenters xi_corner eta_corner : list float.

(** [if (x1 > ximin && x2 < ximax)] for column [ix]. *)
Definition x_inside (b : bbox) (ix : Z) : option bool :=
  xc ← rd xcenters ix;
  let x1 := ((xc - cdelt1) / 2)%float in
  let x2 := ((xc + cdelt1) / 2)%float in
  Some ((x1 >? ximin b)%float && (x2 <? ximax b)%float).

(** [if (y1 > etamin && y2 < etamax)], evaluated in column [ix]: the
    source reads [ycenters[ix]] here. *)
Definition y_inside (b : bbox) (ix : Z) : option bool :=
  yc ← rd ycenters ix;
  let y1 := ((yc - cdelt2) / 2)%float in
  let y2 := ((yc + cdelt2) / 2)%float in
  Some ((y1 >? etamin b)%float && (y2 <? etamax b)%float).

(** [overlap_coverage] of cell [(ix, iy)]. *)
Definition coverage (ix iy : Z) : option float :=
  xc ← rd xcenters ix;
  yc ← rd ycenters iy;
  let area_box := (cdelt1 * cdelt2)%float in
  let area_overlap :=
    sh_find_overlap xc yc cdelt1 cdelt2 xi_corner eta_corner in
  Some (area_overlap / area_box)%float.

(** The body of the loop over [iy]. *)
Definition spaxel_body (b : bbox) (ix iy : Z) (wave_slice_dq : list Z)
  : option (list Z) :=
  inside ← y_inside b ix;
  if inside : bool then
    let ixy := iy * naxis1 + ix in
    overlap_coverage ← coverage ix iy;
    if (overlap_coverage >? tolerance_dq_overlap)%float then
      if (overlap_coverage >? full_coverage)%float
      then wr wave_slice_dq ixy overlap_full
      else wr wave_slice_dq ixy overlap_partial
    else Some wave_slice_dq
  else Some wave_slice_dq.

(** The body of the loop over [ix]. *)
Definition column_body (b : bbox) (ix : Z) (wave_slice_dq : list Z)
  : option (list Z) :=
  inside ← x_inside b ix;
  if inside : bool
  then for_range 0 naxis2 (spaxel_body b ix) wave_slice_dq
  else Some wave_slice_dq.

(** The routine always returns 0; the model returns the scratch buffer. *)
Definition overlap_fov_with_spaxels (wave_slice_dq : list Z)
  : option (list Z) :=
  b ← bounding_box xi_corner eta_corner;
  for_range 0 naxis1 (column_body b) wave_slice_dq.

End Polygon.

(** ** match_wave_plane_nirspec *)

Definition minvalue : float := 10000%float.
Definition maxvalue : float := (-10000)%float.

(** The five arrays of size 30 the caller passes; the routine sets every
    entry of them before it reads any, so the model builds them. *)
Record slice_table := SliceTable {
  c1_min : list float;
  c2_min : list float;
  c1_max : list float;
  c2_max : list float;
  match_slice : list Z
}.

Definition table_init : slice_table :=
  SliceTable (replicate 30 minvalue) (replicate 30 minvalue)
             (replicate 30 maxvalue) (replicate 30 maxvalue)
             (replicate 30 0).

(** [if (c < a[islice]) a[islice] = c;] *)
Definition lower (a : list float) (islice : Z) (c : float)
  : option (list float) :=
  m ← rd a islice;
  if (c <? m)%float then wr a islice c else Some a.

(** [if (c > a[islice]) a[islice] = c;] *)
Definition raise (a : list float) (islice : Z) (c : float)
  : option (list float) :=
  m ← rd a islice;
  if (c >? m)%float then wr a islice c else Some a.

(** The body of the loop over the point cloud; the state is the table and
    the counter [ii]. *)
Definition match_point (wave_plane roiw_ave : float) (p : point)
    (s : slice_table * Z) : option (slice_table * Z) :=
  let '(t, ii) := s in
  let slice := sliceno p in
  let wave_distance := PrimFloat.abs (wave_plane - wave p)%float in
  let c1 := coord1 p in
  let c2 := coord2 p in
  if (wave_distance <? roiw_ave)%float then
    let islice := to_int slice - 1 in
    a1 ← lower (c1_min t) islice c1;
    a2 ← lower (c2_min t) islice c2;
    a3 ← raise (c1_max t) islice c1;
    a4 ← raise (c2_max t) islice c2;
    Some (SliceTable a1 a2 a3 a4 (match_slice t), ii + 1)
  else Some (t, ii).

Fixpoint match_cloud (wave_plane roiw_ave : float) (cloud : list point)
    (s : slice_table * Z) : option (slice_table * Z) :=
  match cloud with
  | [] => Some s
  | p :: rest =>
      s' ← match_point wave_plane roiw_ave p s;
      match_cloud wave_plane roiw_ave rest s'
  end.

(** The body of the closing loop [for (i = 0; i < 30; i++)]. *)
Definition mark_slice (i : Z) (t : slice_table) : option slice_table :=
  m1 ← rd (c1_min t) i;
  m2 ← rd (c2_min t) i;
  x1 ← rd (c1_max t) i;
  x2 ← rd (c2_max t) i;
  if (m1 !=? minvalue)%float && (m2 !=? minvalue)%float
     && (x1 !=? maxvalue)%float && (x2 !=? maxvalue)%float
  then
    if (m1 !=? x1)%float && (m2 !=? x2)%float
    then ms ← wr (match_slice t) i 1;
         Some (SliceTable (c1_min t) (c2_min t) (c1_max t) (c2_max t) ms)
    else Some t
  else Some t.

(** Returns the table and [ii], the number of points on the plane. *)
Definition match_wave_plane_nirspec (wave_plane roiw_ave : float)
    (cloud : list point) : option (slice_table * Z) :=
  '(t, ii) ← match_cloud wave_plane roiw_ave cloud (table_init, 0);
  if 0 <? ii
  then t' ← for_range 0 30 mark_slice t; Some (t', ii)
  else Some (t, ii).

(** ** overlap_slice_with_spaxels *)

(** The body of the walk over [x]; its state is [y], [error] and the
    scratch buffer. *)
Definition line_body (overlap_partial naxis1 : Z) (is_steep : bool)
    (dx dy ystep : Z) (x : Z) (s : Z * Z * list Z)
  : option (Z * Z * list Z) :=
  let '(y, error, wave_slice_dq) := s in
  let yuse := if is_steep then x else y in
  let xuse := if is_steep then y else x in
  let index := yuse * naxis1 + xuse in
  dq ← wr wave_slice_dq index overlap_partial;
  let error := error - Z.abs dy in
  if error <? 0 then Some (y + ystep, error + dx, dq)
  else Some (y, error, dq).

(** The assignments are kept in the order of the source, each [let]
    shadowing the variable it assigns.  [(int)(dx / 2.0)] is exact in
    binary64 and truncates toward zero: [Z.quot dx 2]. *)
Definition overlap_slice_with_spaxels (overlap_partial : Z)
    (cdelt1 cdelt2 : float) (naxis1 naxis2 : Z)
    (xstart ystart xi_min eta_min xi_max eta_max : float)
    (wave_slice_dq : list Z) : option (list Z) :=
  let x1 := to_int ((xi_min - xstart) / cdelt1)%float in
  let y1 := to_int ((eta_min - ystart) / cdelt2)%float in
  let x2 := to_int ((xi_max - xstart) / cdelt1)%float in
  let y2 := to_int ((eta_max - ystart) / cdelt2)%float in
  let dx := x2 - x1 in
  let dy := y2 - y1 in
  let is_steep := Z.abs dx <? Z.abs dy in
  let '(x1, y1, x2, y2) :=
    if is_steep then
      let x1 := y1 in
      let y1 := x1 in
      let x2 := y2 in
      let y2 := x2 in
      (x1, y1, x2, y2)
    else (x1, y1, x2, y2) in
  let '(x1, y1, x2, y2) :=
    if x2 <? x1 then
      let x1 := x2 in
      let x2 := x1 in
      let y1 := y2 in
      let y2 := y1 in
      (x1, y1, x2, y2)
    else (x1, y1, x2, y2) in
  let dx := x2 - x1 in
  let dy := y2 - y1 in
  let error := Z.quot dx 2 in
  let ystep := if y1 <? y2 then 1 else -1 in
  let y := y1 in
  '(_, _, dq) ← for_range x1 (x2 + 1)
                  (line_body overlap_partial naxis1 is_steep dx dy ystep)
                  (y, error, wave_slice_dq);
  Some dq.

(** ** mem_alloc_dq and the orchestrators *)

(** [calloc] succeeds or not, which the program does not decide: [ok] says
    which.  The routine returns its status and the pointer it stores in
    [*idqv] ([None] is the null pointer). *)
Definition mem_alloc_dq (ok : bool) (nelem : Z) : Z * option (list Z) :=
  if ok then (0, Some (replicate (Z.to_nat nelem) 0)) else (1, None).

(** [set_dqplane_to_zero]: the status and the pointer stored in
    [*spaxel_dq]; [ok] tells whether its allocation succeeds. *)
Definition set_dqplane_to_zero (ok : bool) (ncube : Z)
  : Z * option (list Z) :=
  match mem_alloc_dq ok ncube with
  | (0, Some idqv) => (0, Some idqv)
  | _ => (1, None)
  end.

(** [a[i] = v] through a pointer that may be null. *)
Definition wr_ptr (a : option (list Z)) (i : Z) (v : Z)
  : option (option (list Z)) :=
  l ← a; l' ← wr l i v; Some (Some l').

(** [for (i = 0; i < n; i++) a[i] = 0;] *)
Definition zero_fill (n : Z) (a : list Z) : option (list Z) :=
  for_range 0 n (λ i a, wr a i 0) a.

Section Miri.

Variable sh_find_overlap :
  float → float → float → float → list float → list float → float.

Variables start_region end_region overlap_partial overlap_full : Z.
Variables nx ny nz : Z.
Variables cdelt1 cdelt2 roiw_ave : float.
Variables xc yc zc : list float.
Variable cloud : list point.

(** The body of the loop over the wavelength planes; its state is the
    output vector [idqv], the scratch buffer and the four corner arrays. *)
Definition plane_miri (w : Z) (s : list Z * list Z * corners)
  : option (list Z * list Z * corners) :=
  let '(idqv, wave_slice_dq, cs) := s in
  let nxy := nx * ny in
  wave_slice_dq ← zero_fill nxy wave_slice_dq;
  '(status_wave, cs) ←
    corner_wave_plane_miri w start_region end_region roiw_ave zc cloud cs;
  wave_slice_dq ←
    (if status_wave =? 0 then
       let xi_corner := [(corner1 cs).1; (corner2 cs).1;
                         (corner3 cs).1; (corner4 cs).1] in
       let eta_corner := [(corner1 cs).2; (corner2 cs).2;
                          (corner3 cs).2; (corner4 cs).2] in
       overlap_fov_with_spaxels sh_find_overlap overlap_partial overlap_full
         cdelt1 cdelt2 nx ny xc yc xi_corner eta_corner wave_slice_dq
     else Some wave_slice_dq);
  let istart := nxy * w in
  let iend := istart + nxy in
  idqv ← for_range istart iend
            (λ in_ idqv,
               let ii := in_ - istart in
               if status_wave =? 0
               then v ← rd wave_slice_dq ii; wr idqv in_ v
               else wr idqv in_ 0)
            idqv;
  Some (idqv, wave_slice_dq, cs).

(** [heap k] tells whether the [k]-th allocation of the call succeeds;
    [uninit] is the content of the corner arrays before the first plane.
    The result is the status and the pointer stored in [*spaxel_dq]
    ([None] when the routine returned before setting it). *)
Definition dq_miri (heap : nat → bool) (ncube : Z) (uninit : corners)
  : option (Z * option (list Z)) :=
  match mem_alloc_dq (heap 0%nat) ncube with
  | (0, Some idqv) =>
      let nxy := nx * ny in
      match mem_alloc_dq (heap 1%nat) nxy with
      | (0, Some wave_slice_dq) =>
          '(idqv, _, _) ← for_range 0 nz plane_miri
                            (idqv, wave_slice_dq, uninit);
          Some (0, Some idqv)
      | _ => Some (1, None)
      end
  | _ => Some (1, None)
  end.

End Miri.

Section Nirspec.

Variable overlap_partial : Z.
Variables nx ny nz : Z.
Variables cdelt1 cdelt2 roiw_ave : float.
Variables xc yc zc : list float.
Variable cloud : list point.

(** The body of the loop over the 30 slices of a plane; its state is
    [slice_found] and the scratch buffer. *)
Definition slice_body (t : slice_table) (islice : Z) (s : Z * list Z)
  : option (Z * list Z) :=
  let '(slice_found, wave_slice_dq) := s in
  slice_c1_min ← to_f32 <$> rd (c1_min t) islice;
  slice_c1_max ← to_f32 <$> rd (c1_max t) islice;
  slice_c2_min ← to_f32 <$> rd (c2_min t) islice;
  slice_c2_max ← to_f32 <$> rd (c2_max t) islice;
  m ← rd (match_slice t) islice;
  if m =? 1 then
    xstart ← to_f32 <$> rd xc 0;
    ystart ← to_f32 <$> rd yc 0;
    wave_slice_dq ←
      overlap_slice_with_spaxels overlap_partial cdelt1 cdelt2 nx ny
        xstart ystart slice_c1_min slice_c2_min slice_c1_max slice_c2_max
        wave_slice_dq;
    Some (1, wave_slice_dq)
  else Some (slice_found, wave_slice_dq).

(** The loop over the wavelength planes, [n] planes from plane [w] on.
    The scratch buffer of plane [w] is allocation [1 + w] of the call; a
    failure there returns 1 from inside the loop. *)
Fixpoint planes_nirspec (heap : nat → bool) (n : nat) (w : Z)
    (idqv : option (list Z)) : option (Z * option (list Z)) :=
  match n with
  | O => Some (0, idqv)
  | S n' =>
      let nxy := nx * ny in
      zw ← rd zc w;
      '(t, imatch) ← match_wave_plane_nirspec zw roiw_ave cloud;
      match mem_alloc_dq (heap (S (Z.to_nat w))) nxy with
      | (0, Some wave_slice_dq) =>
          wave_slice_dq ← zero_fill nxy wave_slice_dq;
          '(slice_found, wave_slice_dq) ←
            (if 0 <? imatch
             then for_range 0 30 (slice_body t) (0, wave_slice_dq)
             else Some (0, wave_slice_dq));
          idqv ←
            (if (0 <? imatch) && (slice_found =? 1) then
               let istart := nxy * w in
               let iend := istart + nxy in
               for_range istart iend
                 (λ in_ idqv,
                    let ii := in_ - istart in
                    v ← rd wave_slice_dq ii; wr_ptr idqv in_ v)
                 idqv
             else Some idqv);
          planes_nirspec heap n' (w + 1) idqv
      | _ => Some (1, None)
      end
  end.

(** The output vector comes from a [calloc] whose result is not tested
    (allocation 0 of the call) and is then zeroed through the pointer. *)
Definition dq_nirspec (heap : nat → bool) (ncube : Z)
  : option (Z * option (list Z)) :=
  let idqv :=
    if heap 0%nat then Some (replicate (Z.to_nat ncube) 0) else None in
  idqv ← for_range 0 ncube (λ i idqv, wr_ptr idqv i 0) idqv;
  planes_nirspec heap (Z.to_nat nz) 0 idqv.

End Nirspec.

(** ** Specification-side vocabulary

    The definitions below are not code of the repository: the properties
    are stated with them. *)

(** What the thresholds of the polygon rasterizer make of a scratch entry
    [old] when the coverage of its cell is [f]. *)
Definition cell_flag (overlap_partial overlap_full : Z) (f : float)
    (old : option Z) : option Z :=
  if (f >? tolerance_dq_overlap)%float then
    Some (if (f >? full_coverage)%float then overlap_full else overlap_partial)
  else old.

(** A point is on the wavelength plane: [wave_distance < roiw_ave]. *)
Definition on_plane (wave_plane roiw_ave : float) (p : point) : bool :=
  (PrimFloat.abs (wave_plane - wave p) <? roiw_ave)%float.

(** The qualifying points of the Instrument B slice with table index [i]:
    the points on the plane whose slice number converts to [i + 1]. *)
Definition slice_points (wave_plane roiw_ave : float) (i : Z)
    (cloud : list point) : list point :=
  List.filter
    (λ p, on_plane wave_plane roiw_ave p && (to_int (sliceno p) - 1 =? i))
    cloud.

(** One update of a running minimum, respectively maximum. *)
Definition fmin (m c : float) : float := if (c <? m)%float then c else m.
Definition fmax (m c : float) : float := if (c >? m)%float then c else m.

(** A point qualifies for the extreme slice [region] of Instrument A: it
    is on the wavelength plane and its slice number converts to [region]. *)
Definition qualifies (zw roiw_ave : float) (region : Z) (p : point) : bool :=
  on_plane zw roiw_ave p && (to_int (sliceno p) =? region).

(** The coordinates as the boundary finder compares them, as [float]s. *)
Definition c1f (p : point) : float := to_f32 (coord1 p).
Definition c2f (p : point) : float := to_f32 (coord2 p).

(** A qualifying point takes part in the extrema only if its [coord1],
    as a [float], is not -1. *)
Definition tracked (zw roiw_ave : float) (region : Z) (p : point) : bool :=
  qualifies zw roiw_ave region p && (c1f p !=? -1)%float.

(** The points with their indices, from index [ipt] on. *)
Fixpoint indexed (ipt : Z) (cloud : list point) : list (Z * point) :=
  match cloud with
  | [] => []
  | p :: rest => (ipt, p) :: indexed (ipt + 1) rest
  end.

Definition tracked_points (zw roiw_ave : float) (region : Z) (ipt : Z)
    (cloud : list point) : list (Z * point) :=
  List.filter (λ ip, tracked zw roiw_ave region ip.2) (indexed ipt cloud).

(** The running minimum, respectively maximum, of [axis] with the index
    of the point that set it. *)
Definition min_along (axis : point → float) (m : extremum) (ip : Z * point)
  : extremum := track_min (axis ip.2) ip.1 m.
Definition max_along (axis : point → float) (m : extremum) (ip : Z * point)
  : extremum := track_max (axis ip.2) ip.1 m.

(** The eight extrema of a state, in the order of the record. *)
Definition fields (st : scan_state) : list extremum :=
  [c1_start_min st; c1_start_max st; c2_start_min st; c2_start_max st;
   c1_end_min st; c1_end_max st; c2_end_min st; c2_end_max st].

(** The extent of the extreme slice [region] along [coord1] was found: a
    tracked point lies strictly below the sentinel 10000 and a tracked
    point lies strictly above the sentinel -10000. *)
Definition extent_found (zw roiw_ave : float) (region : Z)
    (cloud : list point) : bool :=
  existsb (λ p, tracked zw roiw_ave region p && (c1f p <? 10000)%float) cloud
  && existsb (λ p, tracked zw roiw_ave region p && (c1f p >? -10000)%float)
       cloud.

(** The span of [axis] over points as the boundary finder computes it: the
    [float] difference of the running maximum and the running minimum,
    both started from the sentinels. *)
Definition span (axis : point → float) (ps : list point) : float :=
  to_f32 (foldl fmax (-10000) (axis <$> ps)
          - foldl fmin 10000 (axis <$> ps))%float.

(** The array [b] is [a] after the stores of the iterations [lo .. j - 1]
    of a loop whose iteration [i] stores at index [i] a value that
    satisfies [Q i]. *)
Definition written (Q : Z → Z → Prop) (lo j : Z) (a b : list Z) : Prop :=
  length b = length a
  ∧ (∀ k : nat, ¬ (lo ≤ Z.of_nat k < j) → b !! k = a !! k)
  ∧ (∀ i, lo ≤ i < j → 0 ≤ i ∧ ∃ v, b !! Z.to_nat i = Some v ∧ Q i v).

(** The five arrays of a slice table have their 30 entries. *)
Definition table_ok (t : slice_table) : Prop :=
  length (c1_min t) = 30%nat ∧ length (c2_min t) = 30%nat
  ∧ length (c1_max t) = 30%nat ∧ length (c2_max t) = 30%nat
  ∧ length (match_slice t) = 30%nat.

(** The row that the line walk from [(x1, y1)] to [(x2, y2)] reaches in
    column [x], for a segment that is not steep and has [x1 <= x2]. *)
Definition line_row (x1 y1 x2 y2 x : Z) : Z :=
  let dx := x2 - x1 in
  let ystep := if y1 <? y2 then 1 else -1 in
  y1 + ystep * (((x - x1) * Z.abs (y2 - y1) + dx - 1 - Z.quot dx 2) / dx).

(** The invariant of that walk at the start of column [j], on the state
    [(y, error, wave_slice_dq)]: [t] steps of the secondary axis were
    taken, the columns before [j] are marked in their rows, consecutive
    rows differ by at most one step, and nothing else was stored. *)
Definition walk_inv (overlap_partial naxis1 x1 y1 x2 y2 : Z) (buf : list Z)
    (j : Z) (s : Z * Z * list Z) : Prop :=
  let row := line_row x1 y1 x2 y2 in
  let ystep := if y1 <? y2 then 1 else -1 in
  (∃ t, s.1.1 = y1 + ystep * t
        ∧ s.1.2 = Z.quot (x2 - x1) 2 - (j - x1) * Z.abs (y2 - y1)
                  + t * (x2 - x1)
        ∧ 0 ≤ s.1.2 ∧ (0 < x2 - x1 → s.1.2 < x2 - x1)
        ∧ (x2 - x1 = 0 → t = 0))
  ∧ length s.2 = length buf
  ∧ (∀ x, x1 ≤ x < j →
          Z.min y1 y2 ≤ row x ≤ Z.max y1 y2
          ∧ s.2 !! Z.to_nat (row x * naxis1 + x) = Some overlap_partial)
  ∧ (∀ k : nat, (∀ x, x1 ≤ x < j → k ≠ Z.to_nat (row x * naxis1 + x)) →
                s.2 !! k = buf !! k)
  ∧ (∀ x, x1 ≤ x → x + 1 < j →
          row (x + 1) = row x ∨ row (x + 1) = row x + ystep)
  ∧ (x1 < j → s.1.1 = row (j - 1) ∨ s.1.1 = row (j - 1) + ystep).

(** The scratch buffer of a plane of Instrument B and its [slice_found],
    as the loop body of [dq_nirspec] computes them from the table [t] and
    the count [imatch] of the extent finder: the lines of the 30 slices
    drawn on [nx * ny] zeros, when a point is on the plane. *)
Definition plane_scratch (overlap_partial nx ny : Z) (cdelt1 cdelt2 : float)
    (xc yc : list float) (t : slice_table) (imatch : Z)
  : option (Z * list Z) :=
  if 0 <? imatch then
    for_range 0 30 (slice_body overlap_partial nx ny cdelt1 cdelt2 xc yc t)
      (0, replicate (Z.to_nat (nx * ny)) 0)
  else Some (0, replicate (Z.to_nat (nx * ny)) 0).

(** * Properties *)

(** ** The order of binary64 numbers *)

Lemma SFcompare_antisym (x y : spec_float) :
  SFcompare y x = CompOpp <$> SFcompare x y.
Proof.
  destruct x as [s|s| |s m e], y as [s'|s'| |s' m' e']; simpl;
    try destruct s; try destruct s'; try reflexivity.
  all: change (Pos.compare_cont Eq ?a ?b) with (Pos.compare a b).
  all: rewrite (Z.compare_antisym e' e), (Pos.compare_antisym m' m).
  all: destruct (e' ?= e), (m' ?= m)%positive; reflexivity.
Qed.

Ltac SF_cases :=
  repeat match goal with
  | |- context [Pos.compare_cont Eq ?a ?b] =>
      change (Pos.compare_cont Eq a b) with (Pos.compare a b)
  | H : context [Pos.compare_cont Eq ?a ?b] |- _ =>
      change (Pos.compare_cont Eq a b) with (Pos.compare a b) in H
  end;
  repeat match goal with
  | H : context [Z.compare ?a ?b] |- _ =>
      destruct (Z.compare_spec a b); simpl in H; try discriminate
  | H : context [Pos.compare ?a ?b] |- _ =>
      destruct (Pos.compare_spec a b); simpl in H; try discriminate
  end;
  repeat match goal with
  | |- context [Z.compare ?a ?b] => destruct (Z.compare_spec a b); simpl
  | |- context [Pos.compare ?a ?b] => destruct (Pos.compare_spec a b); simpl
  end;
  try reflexivity; try discriminate; try lia.

Lemma SFcompare_trans (x y z : spec_float) (c : comparison) :
  SFcompare x y = Some c → SFcompare y z = Some c → SFcompare x z = Some c.
Proof.
  destruct x as [s|s| |s m e], y as [s'|s'| |s' m' e'],
           z as [s''|s''| |s'' m'' e'']; simpl;
    try destruct s; try destruct s'; try destruct s''; destruct c;
    intros H1 H2; try discriminate; try reflexivity;
    injection H1 as H1; injection H2 as H2; f_equal; SF_cases.
Qed.

Lemma SFcompare_Eq_l (x y z : spec_float) :
  SFcompare x y = Some Eq → SFcompare x z = SFcompare y z.
Proof.
  destruct x as [s|s| |s m e], y as [s'|s'| |s' m' e'],
           z as [s''|s''| |s'' m'' e'']; simpl;
    try destruct s; try destruct s'; try destruct s'';
    intros H1; try discriminate; try reflexivity;
    injection H1 as H1; SF_cases; subst; try reflexivity; try lia.
Qed.

Lemma SFcompare_refl (x : spec_float) :
  SFcompare x x = None ∨ SFcompare x x = Some Eq.
Proof.
  destruct x as [s|s| |s m e]; simpl; try destruct s; auto;
    rewrite Z.compare_refl, Pos.compare_cont_refl; auto.
Qed.

Lemma SFcompare_None (x y : spec_float) :
  SFcompare x y = None → SFcompare x x = None ∨ SFcompare y y = None.
Proof.
  destruct x as [s|s| |s m e], y as [s'|s'| |s' m' e']; simpl;
    try destruct s; try destruct s'; auto; discriminate.
Qed.

(** The comparisons of [PrimFloat] through [SFcompare]. *)
Lemma ltb_cmp (x y : float) :
  (x <? y)%float = true ↔ SFcompare (Prim2SF x) (Prim2SF y) = Some Lt.
Proof.
  rewrite FloatAxioms.ltb_spec. unfold SFltb.
  destruct (SFcompare _ _) as [[]|]; split; congruence.
Qed.

Lemma eqb_cmp (x y : float) :
  (x =? y)%float = true ↔ SFcompare (Prim2SF x) (Prim2SF y) = Some Eq.
Proof.
  rewrite FloatAxioms.eqb_spec. unfold SFeqb.
  destruct (SFcompare _ _) as [[]|]; split; congruence.
Qed.

Lemma leb_cmp (x y : float) :
  (x <=? y)%float = true ↔
  SFcompare (Prim2SF x) (Prim2SF y) = Some Lt
  ∨ SFcompare (Prim2SF x) (Prim2SF y) = Some Eq.
Proof.
  rewrite FloatAxioms.leb_spec. unfold SFleb.
  destruct (SFcompare _ _) as [[]|]; split; try tauto; try congruence;
    intros [?|?]; congruence.
Qed.

Lemma gtb_cmp (x y : float) :
  (x >? y)%float = true ↔ SFcompare (Prim2SF x) (Prim2SF y) = Some Gt.
Proof.
  unfold gtb. rewrite ltb_cmp, (SFcompare_antisym (Prim2SF x) (Prim2SF y)).
  destruct (SFcompare (Prim2SF x) _) as [[]|]; simpl; split; congruence.
Qed.

Lemma ltb_irrefl (x : float) : (x <? x)%float = false.
Proof.
  apply not_true_is_false. rewrite ltb_cmp.
  destruct (SFcompare_refl (Prim2SF x)); congruence.
Qed.

Lemma ltb_trans (x y z : float) :
  (x <? y)%float = true → (y <? z)%float = true → (x <? z)%float = true.
Proof. rewrite !ltb_cmp. apply SFcompare_trans. Qed.

Lemma ltb_asym (x y : float) :
  (x <? y)%float = true → (y <? x)%float = false.
Proof.
  intros H. apply not_true_is_false. intros H'.
  pose proof (ltb_trans _ _ _ H H') as Hx. rewrite ltb_irrefl in Hx. done.
Qed.

Lemma leb_not_gtb (x y : float) :
  (x <=? y)%float = true → (x >? y)%float = false.
Proof.
  intros H. apply not_true_is_false. rewrite gtb_cmp.
  apply leb_cmp in H as [H|H]; rewrite H; congruence.
Qed.

Lemma leb_ltb_trans (x y z : float) :
  (x <=? y)%float = true → (y <? z)%float = true → (x <? z)%float = true.
Proof.
  rewrite leb_cmp, !ltb_cmp. intros [H|H] Hyz.
  - eapply SFcompare_trans; eassumption.
  - by rewrite (SFcompare_Eq_l _ _ _ H).
Qed.

Lemma ltb_leb_trans (x y z : float) :
  (x <? y)%float = true → (y <=? z)%float = true → (x <? z)%float = true.
Proof.
  rewrite leb_cmp, !ltb_cmp. intros Hxy [H|H].
  - eapply SFcompare_trans; eassumption.
  - rewrite (SFcompare_antisym (Prim2SF z) (Prim2SF x)).
    rewrite <- (SFcompare_Eq_l (Prim2SF y) (Prim2SF z) (Prim2SF x) H).
    rewrite (SFcompare_antisym (Prim2SF x) (Prim2SF y)), Hxy. done.
Qed.

(** Two numbers that compare are ordered one way or the other. *)
Lemma not_ltb_leb (x y : float) :
  (x =? x)%float = true → (y =? y)%float = true →
  (y <? x)%float = false → (x <=? y)%float = true.
Proof.
  rewrite !eqb_cmp. intros Hx Hy Hlt. apply leb_cmp.
  destruct (SFcompare (Prim2SF x) (Prim2SF y)) as [[]|] eqn:E; auto.
  - apply not_true_iff_false in Hlt. exfalso. apply Hlt. apply ltb_cmp.
    rewrite (SFcompare_antisym (Prim2SF x) (Prim2SF y)), E. done.
  - apply SFcompare_None in E as [E|E]; congruence.
Qed.

Lemma leb_neqb_ltb (x y : float) :
  (x <=? y)%float = true → (x !=? y)%float = true → (x <? y)%float = true.
Proof.
  unfold neqb. rewrite leb_cmp, negb_true_iff, ltb_cmp.
  intros [H|H] Hne; [done|]. apply eqb_cmp in H. congruence.
Qed.

Lemma ltb_self_l (x y : float) :
  (x <? y)%float = true → (x =? x)%float = true.
Proof.
  rewrite ltb_cmp, eqb_cmp. intros H.
  destruct (SFcompare_refl (Prim2SF x)) as [E|E]; [|done].
  destruct (Prim2SF x); simpl in *; try destruct s; discriminate.
Qed.

Lemma ltb_self_r (x y : float) :
  (x <? y)%float = true → (y =? y)%float = true.
Proof.
  rewrite ltb_cmp, eqb_cmp. intros H.
  destruct (SFcompare_refl (Prim2SF y)) as [E|E]; [|done].
  destruct (Prim2SF x), (Prim2SF y); simpl in *; try destruct s;
    try destruct s0; discriminate.
Qed.

(** ** Arrays and loops *)

Lemma wr_Some {A} (a a' : list A) (i : Z) (v : A) :
  wr a i v = Some a' →
  0 ≤ i < Z.of_nat (length a) ∧ a' = <[Z.to_nat i := v]> a.
Proof. unfold wr. case_bool_decide; [|done]. intros [= <-]. done. Qed.

Lemma wr_length {A} (a a' : list A) (i : Z) (v : A) :
  wr a i v = Some a' → length a' = length a.
Proof. intros H. apply wr_Some in H as [_ ->]. apply length_insert. Qed.

Lemma wr_lookup_eq {A} (a a' : list A) (i : Z) (v : A) :
  wr a i v = Some a' → a' !! Z.to_nat i = Some v.
Proof. intros [? ->]%wr_Some. apply list_lookup_insert_eq. lia. Qed.

Lemma wr_lookup_ne {A} (a a' : list A) (i : Z) (v : A) (k : nat) :
  wr a i v = Some a' → k ≠ Z.to_nat i → a' !! k = a !! k.
Proof. intros [? ->]%wr_Some ?. by apply list_lookup_insert_ne. Qed.

Lemma wr_is_Some {A} (a : list A) (i : Z) (v : A) :
  0 ≤ i < Z.of_nat (length a) → wr a i v = Some (<[Z.to_nat i := v]> a).
Proof. intros. unfold wr. by rewrite bool_decide_eq_true_2. Qed.

Lemma rd_Some {A} (a : list A) (i : Z) (x : A) :
  rd a i = Some x → 0 ≤ i < Z.of_nat (length a) ∧ a !! Z.to_nat i = Some x.
Proof.
  unfold rd. case_bool_decide; [|done]. intros Hx. split; [|done].
  apply lookup_lt_Some in Hx. lia.
Qed.

Lemma rd_nat {A} (a : list A) (k : nat) : rd a (Z.of_nat k) = a !! k.
Proof.
  unfold rd. rewrite bool_decide_eq_true_2 by lia. by rewrite Nat2Z.id.
Qed.

(** The invariant rule of the counted loop. *)
Lemma for_loop_inv {St} (P : Z → St → Prop) (body : Z → St → option St)
    (n : nat) (i : Z) (s s' : St) :
  P i s →
  (∀ j t t', i ≤ j < i + Z.of_nat n → P j t → body j t = Some t' →
             P (j + 1) t') →
  for_loop n i body s = Some s' →
  P (i + Z.of_nat n) s'.
Proof.
  revert i s. induction n as [|n IH]; intros i s HP Hstep Hrun; simpl in *.
  - simplify_eq. by rewrite Z.add_0_r.
  - destruct (body i s) as [t|] eqn:Hb; simplify_option_eq.
    replace (i + Z.of_nat (S n)) with ((i + 1) + Z.of_nat n) by lia.
    apply (IH (i + 1) t); [|intros j u u' ?; apply Hstep; lia|done].
    apply (Hstep i s); [lia|done..].
Qed.

Lemma for_range_inv {St} (P : Z → St → Prop) (body : Z → St → option St)
    (lo hi : Z) (s s' : St) :
  lo ≤ hi →
  P lo s →
  (∀ j t t', lo ≤ j < hi → P j t → body j t = Some t' → P (j + 1) t') →
  for_range lo hi body s = Some s' →
  P hi s'.
Proof.
  intros Hle HP Hstep Hrun. unfold for_range in Hrun.
  replace hi with (lo + Z.of_nat (Z.to_nat (hi - lo))) at 1 by lia.
  eapply for_loop_inv; [exact HP| |exact Hrun].
  intros j t t' ?. apply Hstep. lia.
Qed.

Lemma for_range_empty {St} (body : Z → St → option St) (lo hi : Z) (s : St) :
  hi ≤ lo → for_range lo hi body s = Some s.
Proof.
  intros. unfold for_range. by replace (Z.to_nat (hi - lo)) with 0%nat by lia.
Qed.

(** A loop whose body cannot fail under an invariant returns. *)
Lemma for_loop_total {St} (P : Z → St → Prop) (body : Z → St → option St)
    (n : nat) (i : Z) (s : St) :
  P i s →
  (∀ j t, i ≤ j < i + Z.of_nat n → P j t →
          ∃ t', body j t = Some t' ∧ P (j + 1) t') →
  ∃ s', for_loop n i body s = Some s' ∧ P (i + Z.of_nat n) s'.
Proof.
  revert i s. induction n as [|n IH]; intros i s HP Hstep; simpl.
  - exists s. by rewrite Z.add_0_r.
  - destruct (Hstep i s) as (t & Hb & Ht); [lia|done|]. rewrite Hb. simpl.
    replace (i + Z.of_nat (S n)) with ((i + 1) + Z.of_nat n) by lia.
    apply IH; [done|]. intros j u ?. apply Hstep. lia.
Qed.

(** The flattened index [iy * naxis1 + ix] determines the cell. *)
Lemma flat_index_inj (naxis1 ix iy ix' iy' : Z) :
  0 ≤ ix < naxis1 → 0 ≤ ix' < naxis1 →
  iy * naxis1 + ix = iy' * naxis1 + ix' → ix = ix' ∧ iy = iy'.
Proof.
  intros Hx Hx' E.
  assert (iy = iy') as ->; [|lia].
  destruct (Z.lt_trichotomy iy iy') as [?|[?|?]]; [|done|]; exfalso.
  - assert (iy' * naxis1 - iy * naxis1 = (iy' - iy) * naxis1) by ring.
    assert (naxis1 ≤ (iy' - iy) * naxis1) by nia. lia.
  - assert (iy * naxis1 - iy' * naxis1 = (iy - iy') * naxis1) by ring.
    assert (naxis1 ≤ (iy - iy') * naxis1) by nia. lia.
Qed.

(** ** The polygon coverage rasterizer *)

Section PolygonProps.

Context (sh : float → float → float → float → list float → list float → float).
Context (opar ofull : Z) (cd1 cd2 : float) (n1 n2 : Z).
Context (xcs ycs xi eta : list float).

Local Abbreviation idx ix iy := (Z.to_nat (iy * n1 + ix)).
Local Abbreviation spaxel := (spaxel_body sh opar ofull cd1 cd2 n1 xcs ycs xi eta).
Local Abbreviation column := (column_body sh opar ofull cd1 cd2 n1 n2 xcs ycs xi eta).
Local Abbreviation x_in := (x_inside cd1 xcs).
Local Abbreviation y_in := (y_inside cd2 ycs).
Local Abbreviation cov := (coverage sh cd1 cd2 xcs ycs xi eta).

Lemma spaxel_body_spec (b : bbox) (ix iy : Z) (buf buf' : list Z) :
  spaxel b ix iy buf = Some buf' →
  length buf' = length buf
  ∧ (∀ k, k ≠ idx ix iy → buf' !! k = buf !! k)
  ∧ (∀ f, y_in b ix = Some true → cov ix iy = Some f →
          buf' !! idx ix iy = cell_flag opar ofull f (buf !! idx ix iy))
  ∧ (y_in b ix = Some false → buf' = buf)
  ∧ is_Some (y_in b ix).
Proof.
  unfold spaxel_body, cell_flag. intros H.
  destruct (y_in b ix) as [[]|] eqn:Hy; simpl in H; [| |done].
  - destruct (cov ix iy) as [f|] eqn:Hc; simpl in H; [|done].
    destruct (f >? tolerance_dq_overlap)%float eqn:Ht.
    + assert (∃ v, wr buf (iy * n1 + ix) v = Some buf'
                   ∧ v = if (f >? full_coverage)%float then ofull else opar)
        as (v & Hw & Hv) by (destruct (f >? full_coverage)%float; eauto).
      split_and!; [by eapply wr_length|by intros; eapply wr_lookup_ne| |done|done].
      intros f' _ [= <-]. rewrite Ht, <- Hv. by eapply wr_lookup_eq.
    + simplify_eq. split_and!; [done..| |done|done].
      intros f' _ [= <-]. by rewrite Ht.
  - simplify_eq. split_and!; done.
Qed.

Lemma spaxel_loop_spec (b : bbox) (ix : Z) (buf buf' : list Z) :
  0 ≤ ix < n1 →
  for_range 0 n2 (spaxel b ix) buf = Some buf' →
  length buf' = length buf
  ∧ (∀ k, (∀ iy, 0 ≤ iy < n2 → k ≠ idx ix iy) → buf' !! k = buf !! k)
  ∧ (∀ iy f, 0 ≤ iy < n2 → y_in b ix = Some true → cov ix iy = Some f →
             buf' !! idx ix iy = cell_flag opar ofull f (buf !! idx ix iy))
  ∧ (y_in b ix = Some false → buf' = buf)
  ∧ (0 < n2 → is_Some (y_in b ix)).
Proof.
  intros Hix Hrun.
  destruct (Z.le_gt_cases n2 0) as [Hn|Hn].
  { rewrite for_range_empty in Hrun by done. simplify_eq.
    split_and!; [done..| |done|]; intros; lia. }
  pose (P := λ (j : Z) (t : list Z),
    length t = length buf
    ∧ (∀ k, (∀ iy, 0 ≤ iy < j → k ≠ idx ix iy) → t !! k = buf !! k)
    ∧ (∀ iy f, 0 ≤ iy < j → y_in b ix = Some true → cov ix iy = Some f →
               t !! idx ix iy = cell_flag opar ofull f (buf !! idx ix iy))
    ∧ (y_in b ix = Some false → t = buf)
    ∧ (0 < j → is_Some (y_in b ix))).
  enough (P n2 buf') as (? & ? & ? & ? & ?) by done.
  eapply (for_range_inv P _ 0); [lia| | |exact Hrun].
  - split_and!; [done..| |done|]; intros; lia.
  - intros j t t' Hj (Hlen & Hfr & Hpost & Hno & _) Hbody.
    apply spaxel_body_spec in Hbody as (Hlen' & Hfr' & Hpost' & Hno' & Hsome).
    assert (Hinj : ∀ iy, 0 ≤ iy < j → idx ix iy ≠ idx ix j).
    { intros iy ? E. apply Z2Nat.inj in E; [|nia..].
      apply flat_index_inj in E; lia. }
    split_and!.
    + congruence.
    + intros k Hk. rewrite Hfr'; [|apply Hk; lia].
      apply Hfr. intros; apply Hk; lia.
    + intros iy f ? Hy Hc. destruct (decide (iy = j)) as [->|].
      * rewrite (Hpost' f Hy Hc). f_equal. apply Hfr.
        intros iy' ? E. by eapply Hinj.
      * rewrite Hfr'; [|apply Hinj; lia]. apply Hpost; [lia|done..].
    + intros Hy. rewrite (Hno' Hy). by apply Hno.
    + done.
Qed.

(** The whole routine: an entry changes only if its cell passed both
    tests, and then the thresholds decide its value. *)
Lemma overlap_fov_spec (b : bbox) (buf buf' : list Z) :
  bounding_box xi eta = Some b →
  overlap_fov_with_spaxels sh opar ofull cd1 cd2 n1 n2 xcs ycs xi eta buf
    = Some buf' →
  length buf' = length buf
  ∧ (∀ k, (∀ ix iy, 0 ≤ ix < n1 → 0 ≤ iy < n2 → x_in b ix = Some true →
                    y_in b ix = Some true → k ≠ idx ix iy) →
          buf' !! k = buf !! k)
  ∧ (∀ ix iy f, 0 ≤ ix < n1 → 0 ≤ iy < n2 → x_in b ix = Some true →
                y_in b ix = Some true → cov ix iy = Some f →
                buf' !! idx ix iy = cell_flag opar ofull f (buf !! idx ix iy)).
Proof.
  intros Hb Hrun. unfold overlap_fov_with_spaxels in Hrun.
  rewrite Hb in Hrun. simpl in Hrun.
  destruct (Z.le_gt_cases n1 0) as [Hn|Hn].
  { rewrite for_range_empty in Hrun by done. simplify_eq.
    split_and!; [done..|]. intros; lia. }
  pose (P := λ (j : Z) (t : list Z),
    length t = length buf
    ∧ (∀ k, (∀ ix iy, 0 ≤ ix < j → 0 ≤ iy < n2 → x_in b ix = Some true →
                      y_in b ix = Some true → k ≠ idx ix iy) →
            t !! k = buf !! k)
    ∧ (∀ ix iy f, 0 ≤ ix < j → 0 ≤ iy < n2 → x_in b ix = Some true →
                  y_in b ix = Some true → cov ix iy = Some f →
                  t !! idx ix iy = cell_flag opar ofull f (buf !! idx ix iy))).
  enough (P n1 buf') as (? & ? & ?) by done.
  eapply (for_range_inv P _ 0); [lia| | |exact Hrun].
  - split_and!; [done..|]. intros; lia.
  - intros j t t' Hj (Hlen & Hfr & Hpost) Hbody.
    unfold column_body in Hbody.
    destruct (x_in b j) as [[]|] eqn:Hx; simpl in Hbody; [| |done].
    2:{ simplify_eq. split_and!; [done| |].
        - intros k Hk. apply Hfr. intros; apply Hk; [lia|done..].
        - intros ix iy f ? ? Hx' ? ?. apply Hpost; try done.
          destruct (decide (ix = j)) as [->|]; [congruence|lia]. }
    apply spaxel_loop_spec in Hbody
      as (Hlen' & Hfr' & Hpost' & Hno' & Hsome); [|lia].
    assert (Hinj : ∀ ix iy iy', 0 ≤ ix < j → 0 ≤ iy < n2 → 0 ≤ iy' < n2 →
                                idx ix iy ≠ idx j iy').
    { intros ix iy iy' ? ? ? E. apply Z2Nat.inj in E; [|nia..].
      apply flat_index_inj in E; lia. }
    destruct (Z.le_gt_cases n2 0) as [Hn2|Hn2].
    { split_and!; [congruence| |intros; lia].
      intros k _. rewrite Hfr'; [|intros; lia]. apply Hfr. intros; lia. }
    split_and!.
    + congruence.
    + intros k Hk.
      destruct (y_in b j) as [[]|] eqn:Hy.
      * rewrite Hfr'; [|intros; apply Hk; (lia || done)].
        apply Hfr. intros; apply Hk; (lia || done).
      * rewrite Hno' by done. apply Hfr. intros; apply Hk; (lia || done).
      * destruct (Hsome Hn2) as [? [=]].
    + intros ix iy f ? ? Hx' Hy Hc. destruct (decide (ix = j)) as [->|].
      * rewrite (Hpost' iy f) by done. f_equal. apply Hfr.
        intros ix' iy' ? ? _ _ E. symmetry in E. by apply (Hinj ix' iy' iy).
      * destruct (y_in b j) as [[]|] eqn:Hyj.
        -- rewrite Hfr'; [|intros; apply Hinj; lia]. apply Hpost; (lia || done).
        -- rewrite Hno' by done. apply Hpost; (lia || done).
        -- rewrite Hfr'; [|intros; apply Hinj; lia]. apply Hpost; (lia || done).
Qed.

End PolygonProps.

(** C3: for a cell the polygon rasterizer considers (column [ix] passes
    the test on [x1, x2] and the test on [y1, y2]) with coverage fraction
    [f], the overlap area over the cell area: if [f <= 0.05] the scratch
    entry of the cell keeps its value (0 on the zeroed buffer the
    orchestrator passes), if [0.05 < f <= 0.95] it becomes
    [overlap_partial], if [f > 0.95] it becomes [overlap_full]. *)
Theorem coverage_thresholds
    (sh : float → float → float → float → list float → list float → float)
    (overlap_partial overlap_full : Z) (cdelt1 cdelt2 : float)
    (naxis1 naxis2 : Z) (xcenters ycenters xi_corner eta_corner : list float)
    (wave_slice_dq dq' : list Z) (b : bbox) (ix iy : Z) (f : float) :
  bounding_box xi_corner eta_corner = Some b →
  overlap_fov_with_spaxels sh overlap_partial overlap_full cdelt1 cdelt2
    naxis1 naxis2 xcenters ycenters xi_corner eta_corner wave_slice_dq
    = Some dq' →
  0 ≤ ix < naxis1 → 0 ≤ iy < naxis2 →
  x_inside cdelt1 xcenters b ix = Some true →
  y_inside cdelt2 ycenters b ix = Some true →
  coverage sh cdelt1 cdelt2 xcenters ycenters xi_corner eta_corner ix iy
    = Some f →
  let ixy := Z.to_nat (iy * naxis1 + ix) in
  ((f <=? tolerance_dq_overlap)%float = true →
     dq' !! ixy = wave_slice_dq !! ixy
     ∧ (wave_slice_dq !! ixy = Some 0 → dq' !! ixy = Some 0))
  ∧ ((tolerance_dq_overlap <? f)%float = true →
     (f <=? full_coverage)%float = true →
     dq' !! ixy = Some overlap_partial)
  ∧ ((full_coverage <? f)%float = true → dq' !! ixy = Some overlap_full).
Proof.
  intros Hb Hrun Hix Hiy Hx Hy Hc ixy.
  destruct (overlap_fov_spec _ _ _ _ _ _ _ _ _ _ _ _ _ _ Hb Hrun)
    as (_ & _ & Hpost).
  specialize (Hpost ix iy f Hix Hiy Hx Hy Hc). fold ixy in Hpost.
  unfold cell_flag in Hpost. split_and!.
  - intros Hle. apply leb_not_gtb in Hle. rewrite Hle in Hpost.
    split; [done|]. by rewrite Hpost.
  - intros Hlt Hle. apply leb_not_gtb in Hle.
    unfold gtb in *. by rewrite Hlt, Hle in Hpost.
  - intros Hlt. unfold gtb in *. rewrite Hlt in Hpost.
    assert ((tolerance_dq_overlap <? f)%float = true) as Ht
      by (eapply ltb_trans; [|exact Hlt]; reflexivity).
    by rewrite Ht in Hpost.
Qed.

(** A cell that is considered: with [cdelt2 = -1] column 2 of a 4 x 4 grid
    passes both tests; the external overlap routine is taken to return
    the whole cell area, so the fraction is 1. *)
Lemma coverage_thresholds_witness :
  let sh := λ (_ _ xl yl : float) (_ _ : list float), (xl * yl)%float in
  ∃ dq',
    overlap_fov_with_spaxels sh 1 2 1 (-1) 4 4 [2; 4; 6; 8]%float
      [2; 4; 6; 8]%float [0; 10; 10; 0]%float [3; 3; 10; 10]%float
      (replicate 16 0) = Some dq'
    ∧ dq' !! 6%nat = Some 2.
Proof.
  intros sh. eexists. split; [vm_compute; reflexivity|].
  refine (proj2 (proj2 (coverage_thresholds sh 1 2 1 (-1) 4 4
    [2; 4; 6; 8]%float [2; 4; 6; 8]%float [0; 10; 10; 0]%float
    [3; 3; 10; 10]%float (replicate 16 0) _ (BBox 0 10 3 3) 2 1 1
    _ _ _ _ _ _ _)) _); try reflexivity; lia.
Defined.

(** ** The line coverage rasterizer *)

(** C9: on endpoints that convert to the grid indices (0,0) and (5,0) the
    line rasterizer returns, the six scratch entries of the cells (0,0)
    to (5,0) hold [overlap_partial], and every other entry is as before. *)
Theorem horizontal_segment (overlap_partial : Z) (cdelt1 cdelt2 : float)
    (naxis1 naxis2 : Z) (xstart ystart xi_min eta_min xi_max eta_max : float)
    (wave_slice_dq : list Z) :
  to_int ((xi_min - xstart) / cdelt1)%float = 0 →
  to_int ((eta_min - ystart) / cdelt2)%float = 0 →
  to_int ((xi_max - xstart) / cdelt1)%float = 5 →
  to_int ((eta_max - ystart) / cdelt2)%float = 0 →
  (6 ≤ length wave_slice_dq)%nat →
  ∃ dq',
    overlap_slice_with_spaxels overlap_partial cdelt1 cdelt2 naxis1 naxis2
      xstart ystart xi_min eta_min xi_max eta_max wave_slice_dq = Some dq'
    ∧ length dq' = length wave_slice_dq
    ∧ (∀ x, 0 ≤ x ≤ 5 → dq' !! Z.to_nat (0 * naxis1 + x) = Some overlap_partial)
    ∧ (∀ k, (5 < k)%nat → dq' !! k = wave_slice_dq !! k).
Proof.
  intros Hx1 Hy1 Hx2 Hy2 Hlen.
  destruct wave_slice_dq as [|b0 [|b1 [|b2 [|b3 [|b4 [|b5 rest]]]]]];
    simpl in Hlen; try lia.
  exists (replicate 6 overlap_partial ++ rest).
  split.
  - unfold overlap_slice_with_spaxels. rewrite Hx1, Hy1, Hx2, Hy2.
    repeat (cbv -[wr]; rewrite wr_is_Some by (simpl length; lia)).
    reflexivity.
  - split_and!.
    + reflexivity.
    + intros x Hx. rewrite Z.mul_0_l, Z.add_0_l.
      assert (x = 0 ∨ x = 1 ∨ x = 2 ∨ x = 3 ∨ x = 4 ∨ x = 5)
        as [->|[->|[->|[->|[->| ->]]]]] by lia; reflexivity.
    + intros k Hk. do 6 (destruct k as [|k]; [lia|]). reflexivity.
Qed.

Lemma horizontal_segment_witness :
  ∃ dq',
    overlap_slice_with_spaxels 4 1 1 8 2 0 0 0 0 5 0 (replicate 16 0)
      = Some dq'
    ∧ length dq' = 16%nat
    ∧ (∀ x, 0 ≤ x ≤ 5 → dq' !! Z.to_nat (0 * 8 + x) = Some 4)
    ∧ (∀ k, (5 < k)%nat → dq' !! k = replicate 16 0 !! k).
Proof.
  apply (horizontal_segment 4 1 1 8 2 0 0 0 0 5 0 (replicate 16 0));
    try reflexivity.
  simpl. lia.
Defined.

(** ** The slice extent finder of Instrument B *)

Lemma lower_lookup (a a' : list float) (i : Z) (c m : float) (k : nat) :
  lower a i c = Some a' → a !! k = Some m →
  a' !! k = Some (if decide (Z.of_nat k = i) then fmin m c else m).
Proof.
  unfold lower, fmin. intros H Hk.
  destruct (rd a i) as [mi|] eqn:Hr; simpl in H; [|done].
  apply rd_Some in Hr as [Hi Hr].
  destruct (decide (Z.of_nat k = i)) as [<-|Hne].
  - rewrite Nat2Z.id in Hr. simplify_eq.
    destruct (c <? _)%float; [|by simplify_eq].
    apply wr_lookup_eq in H. by rewrite Nat2Z.id in H.
  - destruct (c <? mi)%float; [|by simplify_eq].
    erewrite wr_lookup_ne; [done..|]. lia.
Qed.

Lemma raise_lookup (a a' : list float) (i : Z) (c m : float) (k : nat) :
  raise a i c = Some a' → a !! k = Some m →
  a' !! k = Some (if decide (Z.of_nat k = i) then fmax m c else m).
Proof.
  unfold raise, fmax. intros H Hk.
  destruct (rd a i) as [mi|] eqn:Hr; simpl in H; [|done].
  apply rd_Some in Hr as [Hi Hr].
  destruct (decide (Z.of_nat k = i)) as [<-|Hne].
  - rewrite Nat2Z.id in Hr. simplify_eq.
    destruct (c >? _)%float; [|by simplify_eq].
    apply wr_lookup_eq in H. by rewrite Nat2Z.id in H.
  - destruct (c >? mi)%float; [|by simplify_eq].
    erewrite wr_lookup_ne; [done..|]. lia.
Qed.

Section MatchProps.

Context (wave_plane roiw_ave : float).

Local Abbreviation on_pl := (on_plane wave_plane roiw_ave).
Local Abbreviation pts := (slice_points wave_plane roiw_ave).

Lemma match_point_spec (p : point) (t t' : slice_table) (ii ii' : Z)
    (k : nat) :
  match_point wave_plane roiw_ave p (t, ii) = Some (t', ii') →
  let hit := on_pl p && (to_int (sliceno p) - 1 =? Z.of_nat k) in
  match_slice t' = match_slice t
  ∧ ii' = ii + (if on_pl p then 1 else 0)
  ∧ (∀ m, c1_min t !! k = Some m →
          c1_min t' !! k = Some (if hit then fmin m (coord1 p) else m))
  ∧ (∀ m, c2_min t !! k = Some m →
          c2_min t' !! k = Some (if hit then fmin m (coord2 p) else m))
  ∧ (∀ m, c1_max t !! k = Some m →
          c1_max t' !! k = Some (if hit then fmax m (coord1 p) else m))
  ∧ (∀ m, c2_max t !! k = Some m →
          c2_max t' !! k = Some (if hit then fmax m (coord2 p) else m)).
Proof.
  intros H. cbv zeta. unfold match_point, on_plane in *.
  destruct (PrimFloat.abs (wave_plane - wave p) <? roiw_ave)%float;
    simpl in *; [|simplify_eq; split_and!; (done || lia)].
  destruct (lower (c1_min t) _ _) as [a1|] eqn:H1; simpl in H; [|done].
  destruct (lower (c2_min t) _ _) as [a2|] eqn:H2; simpl in H; [|done].
  destruct (raise (c1_max t) _ _) as [a3|] eqn:H3; simpl in H; [|done].
  destruct (raise (c2_max t) _ _) as [a4|] eqn:H4; simpl in H; [|done].
  simplify_eq. simpl.
  assert (Hdec : ∀ (A : Type) (x y : A),
            (if decide (Z.of_nat k = to_int (sliceno p) - 1) then x else y)
            = (if to_int (sliceno p) - 1 =? Z.of_nat k then x else y)).
  { intros A x y. destruct (Z.eqb_spec (to_int (sliceno p) - 1) (Z.of_nat k));
      case_decide; (done || lia). }
  split_and!; [done..| | | |]; intros m Hm; rewrite <- Hdec.
  - by eapply lower_lookup.
  - by eapply lower_lookup.
  - by eapply raise_lookup.
  - by eapply raise_lookup.
Qed.

Lemma slice_points_cons (k : Z) (p : point) (cloud : list point) :
  pts k (p :: cloud)
  = if on_pl p && (to_int (sliceno p) - 1 =? k)
    then p :: pts k cloud else pts k cloud.
Proof. reflexivity. Qed.

Lemma match_cloud_spec (cloud : list point) (t t' : slice_table)
    (ii ii' : Z) (k : nat) :
  match_cloud wave_plane roiw_ave cloud (t, ii) = Some (t', ii') →
  match_slice t' = match_slice t
  ∧ ii' = ii + Z.of_nat (length (List.filter on_pl cloud))
  ∧ (∀ m, c1_min t !! k = Some m →
          c1_min t' !! k = Some (foldl fmin m (coord1 <$> pts (Z.of_nat k) cloud)))
  ∧ (∀ m, c2_min t !! k = Some m →
          c2_min t' !! k = Some (foldl fmin m (coord2 <$> pts (Z.of_nat k) cloud)))
  ∧ (∀ m, c1_max t !! k = Some m →
          c1_max t' !! k = Some (foldl fmax m (coord1 <$> pts (Z.of_nat k) cloud)))
  ∧ (∀ m, c2_max t !! k = Some m →
          c2_max t' !! k = Some (foldl fmax m (coord2 <$> pts (Z.of_nat k) cloud))).
Proof.
  revert t ii. induction cloud as [|p rest IH]; intros t ii H;
    cbn [match_cloud] in H.
  - simplify_eq. simpl. split_and!; (done || lia).
  - destruct (match_point wave_plane roiw_ave p (t, ii)) as [[t1 ii1]|] eqn:Hp;
      cbn [mbind option_bind] in H; [|done].
    apply (match_point_spec _ _ _ _ _ k) in Hp
      as (Hms & Hii & Ha & Hb & Hc & Hd).
    apply IH in H as (Hms' & Hii' & Ha' & Hb' & Hc' & Hd').
    rewrite slice_points_cons. simpl List.filter.
    split_and!.
    + congruence.
    + destruct (on_pl p); simpl length; lia.
    + intros m Hm. rewrite (Ha' _ (Ha _ Hm)). by destruct (_ && _).
    + intros m Hm. rewrite (Hb' _ (Hb _ Hm)). by destruct (_ && _).
    + intros m Hm. rewrite (Hc' _ (Hc _ Hm)). by destruct (_ && _).
    + intros m Hm. rewrite (Hd' _ (Hd _ Hm)). by destruct (_ && _).
Qed.

(** The closing loop: the extents are not touched; an entry of
    [match_slice] is set to 1 under the six tests and otherwise kept. *)
Lemma mark_slice_spec (i : Z) (t t' : slice_table) :
  mark_slice i t = Some t' →
  c1_min t' = c1_min t ∧ c2_min t' = c2_min t
  ∧ c1_max t' = c1_max t ∧ c2_max t' = c2_max t
  ∧ length (match_slice t') = length (match_slice t)
  ∧ (∀ k, k ≠ Z.to_nat i → match_slice t' !! k = match_slice t !! k)
  ∧ ∃ m1 m2 x1 x2,
      rd (c1_min t) i = Some m1 ∧ rd (c2_min t) i = Some m2
      ∧ rd (c1_max t) i = Some x1 ∧ rd (c2_max t) i = Some x2
      ∧ (match_slice t' !! Z.to_nat i = match_slice t !! Z.to_nat i
         ∨ match_slice t' !! Z.to_nat i = Some 1
           ∧ (m1 !=? minvalue)%float = true ∧ (m2 !=? minvalue)%float = true
           ∧ (x1 !=? maxvalue)%float = true ∧ (x2 !=? maxvalue)%float = true
           ∧ (m1 !=? x1)%float = true ∧ (m2 !=? x2)%float = true).
Proof.
  unfold mark_slice. intros H.
  destruct (rd (c1_min t) i) as [m1|]; simpl in H; [|done].
  destruct (rd (c2_min t) i) as [m2|]; simpl in H; [|done].
  destruct (rd (c1_max t) i) as [x1|]; simpl in H; [|done].
  destruct (rd (c2_max t) i) as [x2|]; simpl in H; [|done].
  destruct (_ && _) eqn:E1 in H.
  2:{ simplify_eq. split_and!; try done. exists m1, m2, x1, x2. auto 10. }
  destruct (_ && _) eqn:E2 in H.
  2:{ simplify_eq. split_and!; try done. exists m1, m2, x1, x2. auto 10. }
  destruct (wr (match_slice t) i 1) as [ms|] eqn:Hw; simpl in H; [|done].
  simplify_eq. simpl. split_and!; try done.
  - by eapply wr_length.
  - intros. by eapply wr_lookup_ne.
  - exists m1, m2, x1, x2. split_and!; try done. right.
    split; [by eapply wr_lookup_eq|].
    apply andb_true_iff in E2 as [? ?].
    apply andb_true_iff in E1 as [[[? ?]%andb_true_iff ?]%andb_true_iff ?].
    done.
Qed.

End MatchProps.

(** Running minimum and maximum of the same values: once both have left
    their sentinels, the minimum is at most the maximum. *)
Lemma fold_extent_ordered (cs : list float) (m x : float) :
  (m =? m)%float = true → (x =? x)%float = true →
  m = minvalue ∨ x = maxvalue ∨ (m <=? x)%float = true →
  let m' := foldl fmin m cs in
  let x' := foldl fmax x cs in
  (m' =? m')%float = true ∧ (x' =? x')%float = true
  ∧ (m' = minvalue ∨ x' = maxvalue ∨ (m' <=? x')%float = true).
Proof.
  revert m x. induction cs as [|c cs IH]; intros m x Hm Hx Hord; simpl.
  { done. }
  apply IH; unfold fmin, fmax, gtb.
  - destruct (c <? m)%float eqn:E; [by eapply ltb_self_l|done].
  - destruct (x <? c)%float eqn:E; [by eapply ltb_self_r|done].
  - destruct (c <? m)%float eqn:E1, (x <? c)%float eqn:E2; [| | |done].
    + right; right. apply not_ltb_leb; [by eapply ltb_self_l..|].
      apply ltb_irrefl.
    + right; right. apply not_ltb_leb; [by eapply ltb_self_l|done..].
    + right; right. apply not_ltb_leb; [done|by eapply ltb_self_r|done].
Qed.

Lemma fold_fmin_same (cs : list float) (v m : float) :
  (∀ c, c ∈ cs → c = v) →
  foldl fmin m cs = m ∨ (foldl fmin m cs = v ∧ (v =? v)%float = true).
Proof.
  revert m. induction cs as [|c cs IH]; intros m Hall; simpl; [by left|].
  assert (c = v) as -> by (apply Hall; left).
  assert (Hall' : ∀ c, c ∈ cs → c = v) by (intros; apply Hall; by right).
  destruct (v <? m)%float eqn:E.
  - replace (fmin m v) with v by (unfold fmin; by rewrite E).
    right. destruct (IH v Hall') as [Hr|[Hr ?]];
      (split; [done|by eapply ltb_self_l]).
  - replace (fmin m v) with m by (unfold fmin; by rewrite E). by apply IH.
Qed.

Lemma fold_fmax_same (cs : list float) (v x : float) :
  (∀ c, c ∈ cs → c = v) →
  foldl fmax x cs = x ∨ (foldl fmax x cs = v ∧ (v =? v)%float = true).
Proof.
  revert x. induction cs as [|c cs IH]; intros x Hall; simpl; [by left|].
  assert (c = v) as -> by (apply Hall; left).
  assert (Hall' : ∀ c, c ∈ cs → c = v) by (intros; apply Hall; by right).
  destruct (x <? v)%float eqn:E.
  - replace (fmax x v) with v by (unfold fmax, gtb; by rewrite E).
    right. destruct (IH v Hall') as [Hr|[Hr ?]];
      (split; [done|by eapply ltb_self_r]).
  - replace (fmax x v) with x by (unfold fmax, gtb; by rewrite E).
    by apply IH.
Qed.

Section MatchWavePlane.

Context (wave_plane roiw_ave : float) (cloud : list point).

Local Abbreviation pts k := (slice_points wave_plane roiw_ave (Z.of_nat k) cloud).

(** The result of the routine, slot by slot. *)
Lemma match_wave_plane_spec (t : slice_table) (ii : Z) (k : nat) :
  (k < 30)%nat →
  match_wave_plane_nirspec wave_plane roiw_ave cloud = Some (t, ii) →
  let m1 := foldl fmin minvalue (coord1 <$> pts k) in
  let m2 := foldl fmin minvalue (coord2 <$> pts k) in
  let x1 := foldl fmax maxvalue (coord1 <$> pts k) in
  let x2 := foldl fmax maxvalue (coord2 <$> pts k) in
  ii = Z.of_nat (length (List.filter (on_plane wave_plane roiw_ave) cloud))
  ∧ c1_min t !! k = Some m1 ∧ c2_min t !! k = Some m2
  ∧ c1_max t !! k = Some x1 ∧ c2_max t !! k = Some x2
  ∧ (match_slice t !! k = Some 0
     ∨ match_slice t !! k = Some 1
       ∧ (m1 !=? minvalue)%float = true ∧ (m2 !=? minvalue)%float = true
       ∧ (x1 !=? maxvalue)%float = true ∧ (x2 !=? maxvalue)%float = true
       ∧ (m1 !=? x1)%float = true ∧ (m2 !=? x2)%float = true).
Proof.
  intros Hk H. cbv zeta. unfold match_wave_plane_nirspec in H.
  destruct (match_cloud _ _ _ _) as [[t0 ii0]|] eqn:Hc;
    cbn [mbind option_bind] in H; [|done].
  apply (match_cloud_spec _ _ _ _ _ _ _ k) in Hc
    as (Hms & Hii & Ha & Hb & Hc & Hd).
  assert (Hinit : ∀ v : float, replicate 30 v !! k = Some v)
    by (intros; by apply lookup_replicate_2).
  specialize (Ha _ (Hinit _)). specialize (Hb _ (Hinit _)).
  specialize (Hc _ (Hinit _)). specialize (Hd _ (Hinit _)).
  change (match_slice table_init) with (replicate 30 0) in Hms.
  destruct (0 <? ii0) eqn:Hpos.
  2:{ simplify_eq. split_and!; [lia|done..|]. left. rewrite Hms.
      by apply lookup_replicate_2. }
  destruct (for_range 0 30 mark_slice t0) as [t1|] eqn:Hloop;
    cbn [mbind option_bind] in H; [|done].
  simplify_eq.
  pose (P := λ (j : Z) (u : slice_table),
    c1_min u = c1_min t0 ∧ c2_min u = c2_min t0
    ∧ c1_max u = c1_max t0 ∧ c2_max u = c2_max t0
    ∧ length (match_slice u) = 30%nat
    ∧ (Z.of_nat k < j → match_slice u !! k = Some 0
       ∨ match_slice u !! k = Some 1
         ∧ (foldl fmin minvalue (coord1 <$> pts k) !=? minvalue)%float = true
         ∧ (foldl fmin minvalue (coord2 <$> pts k) !=? minvalue)%float = true
         ∧ (foldl fmax maxvalue (coord1 <$> pts k) !=? maxvalue)%float = true
         ∧ (foldl fmax maxvalue (coord2 <$> pts k) !=? maxvalue)%float = true
         ∧ (foldl fmin minvalue (coord1 <$> pts k)
            !=? foldl fmax maxvalue (coord1 <$> pts k))%float = true
         ∧ (foldl fmin minvalue (coord2 <$> pts k)
            !=? foldl fmax maxvalue (coord2 <$> pts k))%float = true)
    ∧ (j ≤ Z.of_nat k → match_slice u !! k = Some 0)).
  assert (P 30 t) as (E1 & E2 & E3 & E4 & _ & Hdone & _).
  { eapply (for_range_inv P _ 0); [lia| | |exact Hloop].
    - split_and!; try done.
      + rewrite Hms. apply length_replicate.
      + lia.
      + intros _. rewrite Hms. by apply lookup_replicate_2.
    - intros j u u' Hj (F1 & F2 & F3 & F4 & Hlen & Hlt & Hge) Hbody.
      apply mark_slice_spec in Hbody
        as (G1 & G2 & G3 & G4 & Hlen' & Hne & n1 & n2 & y1 & y2 &
            R1 & R2 & R3 & R4 & Hcase).
      split_and!; try congruence.
      + intros Hkj. destruct (decide (Z.of_nat k = j)) as [<-|Hkne].
        * rewrite Nat2Z.id in Hcase. rewrite rd_nat in R1, R2, R3, R4.
          rewrite F1, Ha in R1. rewrite F2, Hb in R2.
          rewrite F3, Hc in R3. rewrite F4, Hd in R4. simplify_eq.
          destruct Hcase as [->|Hcase]; [left; apply Hge; lia|].
          by right.
        * rewrite Hne by lia. apply Hlt. lia.
      + intros Hkj. rewrite Hne by lia. apply Hge. lia. }
  split_and!; [lia|congruence..|]. apply Hdone. lia.
Qed.

End MatchWavePlane.

(** C5: a slice of Instrument B is marked matched only if the tracked
    minimum (the running minimum over its qualifying points) is strictly
    less than the tracked maximum on both axes; a slice whose qualifying
    points all have the same [coord1] is not marked, whatever their
    [coord2], and neither is a slice with a single qualifying point. *)
Theorem matched_slice_extent (wave_plane roiw_ave : float)
    (cloud : list point) (t : slice_table) (ii : Z) (k : nat) :
  match_wave_plane_nirspec wave_plane roiw_ave cloud = Some (t, ii) →
  (k < 30)%nat →
  let pts := slice_points wave_plane roiw_ave (Z.of_nat k) cloud in
  (match_slice t !! k = Some 1 →
     ∃ m1 x1 m2 x2,
       c1_min t !! k = Some m1 ∧ m1 = foldl fmin minvalue (coord1 <$> pts)
       ∧ c1_max t !! k = Some x1 ∧ x1 = foldl fmax maxvalue (coord1 <$> pts)
       ∧ c2_min t !! k = Some m2 ∧ m2 = foldl fmin minvalue (coord2 <$> pts)
       ∧ c2_max t !! k = Some x2 ∧ x2 = foldl fmax maxvalue (coord2 <$> pts)
       ∧ (m1 <? x1)%float = true ∧ (m2 <? x2)%float = true)
  ∧ (∀ v, (∀ p, p ∈ pts → coord1 p = v) → match_slice t !! k = Some 0)
  ∧ (length pts = 1%nat → match_slice t !! k = Some 0).
Proof.
  intros Hrun Hk pts.
  destruct (match_wave_plane_spec _ _ _ _ _ _ Hk Hrun)
    as (_ & Ha & Hb & Hc & Hd & Hcase). fold pts in Ha, Hb, Hc, Hd, Hcase.
  assert (Hsame : ∀ v, (∀ p, p ∈ pts → coord1 p = v) →
                       match_slice t !! k = Some 0).
  { intros v Hall. destruct Hcase as [?|(_ & N1 & _ & N3 & _ & N5 & _)]; [done|].
    exfalso.
    assert (Hall' : ∀ c, c ∈ coord1 <$> pts → c = v).
    { intros c (p & -> & Hp)%list_elem_of_fmap. by apply Hall. }
    destruct (fold_fmin_same _ v minvalue Hall') as [E1|[E1 Hv]];
      rewrite E1 in N1, N5; [done|].
    destruct (fold_fmax_same _ v maxvalue Hall') as [E2|[E2 _]];
      rewrite E2 in N3, N5; [done|].
    unfold neqb in N5. by rewrite Hv in N5. }
  split_and!.
  - intros Hm. destruct Hcase as [?|(_ & N1 & N2 & N3 & N4 & N5 & N6)];
      [congruence|].
    eexists _, _, _, _. split_and!; try done.
    + destruct (fold_extent_ordered (coord1 <$> pts) minvalue maxvalue)
        as (_ & _ & [E|[E|E]]); [done..|left; done| | |].
      * by rewrite E in N1.
      * by rewrite E in N3.
      * by apply leb_neqb_ltb.
    + destruct (fold_extent_ordered (coord2 <$> pts) minvalue maxvalue)
        as (_ & _ & [E|[E|E]]); [done..|left; done| | |].
      * by rewrite E in N2.
      * by rewrite E in N4.
      * by apply leb_neqb_ltb.
  - exact Hsame.
  - intros Hone. destruct pts as [|p [|q rest]] eqn:Hp; try done.
    apply (Hsame (coord1 p)). intros p' ->%list_elem_of_singleton. done.
Qed.

(** Five points on the plane: slice 1 spans both axes, the two points of
    slice 2 share [coord1], slice 3 has one point. *)
Lemma matched_slice_extent_witness :
  let cloud := [Point 0 0 5 1; Point 3 1 5 1; Point 0 10 5 2;
                Point 0 11 5 2; Point 7 7 5 3]%float in
  ∃ t ii,
    match_wave_plane_nirspec 5 1 cloud = Some (t, ii)
    ∧ match_slice t !! 0%nat = Some 1
    ∧ match_slice t !! 1%nat = Some 0
    ∧ match_slice t !! 2%nat = Some 0.
Proof.
  intros cloud. eexists _, _. split; [vm_compute; reflexivity|].
  split; [reflexivity|]. split.
  - refine (proj1 (proj2 (matched_slice_extent 5 1 cloud _ _ 1 _ _)) 0%float _);
      [vm_compute; reflexivity|lia|].
    intros p Hp. vm_compute in Hp.
    apply elem_of_cons in Hp as [->|Hp]; [reflexivity|].
    apply list_elem_of_singleton in Hp as ->. reflexivity.
  - refine (proj2 (proj2 (matched_slice_extent 5 1 cloud _ _ 2 _ _)) _);
      [vm_compute; reflexivity|lia|reflexivity].
Defined.

Lemma rd_is_Some {A} (a : list A) (i : Z) :
  0 ≤ i < Z.of_nat (length a) → ∃ x, rd a i = Some x.
Proof.
  intros Hi. unfold rd. rewrite bool_decide_eq_true_2 by lia.
  destruct (a !! Z.to_nat i) as [x|] eqn:E; [by exists x|].
  apply lookup_ge_None in E. lia.
Qed.

Lemma lower_total (a : list float) (i : Z) (c : float) :
  0 ≤ i < Z.of_nat (length a) →
  ∃ a', lower a i c = Some a' ∧ length a' = length a.
Proof.
  intros Hi. unfold lower. destruct (rd_is_Some a i Hi) as [m ->]. cbn.
  destruct (_ <? _)%float; [|by exists a].
  rewrite wr_is_Some by done. eexists. split; [done|]. apply length_insert.
Qed.

Lemma raise_total (a : list float) (i : Z) (c : float) :
  0 ≤ i < Z.of_nat (length a) →
  ∃ a', raise a i c = Some a' ∧ length a' = length a.
Proof.
  intros Hi. unfold raise. destruct (rd_is_Some a i Hi) as [m ->]. cbn.
  destruct (_ <? _)%float; [|by exists a].
  rewrite wr_is_Some by done. eexists. split; [done|]. apply length_insert.
Qed.

Lemma match_point_total (wave_plane roiw_ave : float) (p : point)
    (t : slice_table) (ii : Z) :
  table_ok t →
  (on_plane wave_plane roiw_ave p = true → 1 ≤ to_int (sliceno p) ≤ 30) →
  ∃ t' ii', match_point wave_plane roiw_ave p (t, ii) = Some (t', ii')
            ∧ table_ok t'.
Proof.
  intros (L1 & L2 & L3 & L4 & L5) Hp. unfold match_point, on_plane in *.
  destruct (PrimFloat.abs (wave_plane - wave p) <? roiw_ave)%float;
    [|by exists t, ii].
  specialize (Hp eq_refl).
  destruct (lower_total (c1_min t) (to_int (sliceno p) - 1) (coord1 p))
    as (a1 & -> & ?); [lia|].
  destruct (lower_total (c2_min t) (to_int (sliceno p) - 1) (coord2 p))
    as (a2 & -> & ?); [lia|].
  destruct (raise_total (c1_max t) (to_int (sliceno p) - 1) (coord1 p))
    as (a3 & -> & ?); [lia|].
  destruct (raise_total (c2_max t) (to_int (sliceno p) - 1) (coord2 p))
    as (a4 & -> & ?); [lia|].
  cbn. eexists _, _. split; [done|]. split_and!; cbn; congruence.
Qed.

Lemma mark_slice_total (i : Z) (t : slice_table) :
  table_ok t → 0 ≤ i < 30 → ∃ t', mark_slice i t = Some t' ∧ table_ok t'.
Proof.
  intros (L1 & L2 & L3 & L4 & L5) Hi. unfold mark_slice.
  destruct (rd_is_Some (c1_min t) i) as [m1 ->]; [lia|].
  destruct (rd_is_Some (c2_min t) i) as [m2 ->]; [lia|].
  destruct (rd_is_Some (c1_max t) i) as [x1 ->]; [lia|].
  destruct (rd_is_Some (c2_max t) i) as [x2 ->]; [lia|]. cbn.
  destruct (_ && _); [|by exists t].
  destruct (_ && _); [|by exists t].
  rewrite wr_is_Some by lia. cbn. eexists. split; [done|].
  split_and!; cbn; try done. by rewrite length_insert.
Qed.

(** The routine returns when the slice numbers of the points on the plane
    are those of the 30 slices. *)
Lemma match_wave_plane_returns (wave_plane roiw_ave : float)
    (cloud : list point) :
  (∀ p, p ∈ cloud → on_plane wave_plane roiw_ave p = true →
        1 ≤ to_int (sliceno p) ≤ 30) →
  ∃ t ii, match_wave_plane_nirspec wave_plane roiw_ave cloud = Some (t, ii).
Proof.
  intros Hall. unfold match_wave_plane_nirspec.
  assert (Hcloud : ∀ t ii, table_ok t →
    ∃ t' ii', match_cloud wave_plane roiw_ave cloud (t, ii) = Some (t', ii')
              ∧ table_ok t').
  { induction cloud as [|p rest IH]; intros t ii Hok; cbn [match_cloud].
    { by exists t, ii. }
    destruct (match_point_total wave_plane roiw_ave p t ii Hok)
      as (t1 & ii1 & -> & Hok1); [apply Hall; left|].
    cbn [mbind option_bind]. apply IH; [|done].
    intros q Hq. apply Hall. by right. }
  destruct (Hcloud table_init 0) as (t & ii & -> & Hok).
  { by split_and!. }
  cbn [mbind option_bind]. destruct (0 <? ii); [|by eexists _, _].
  destruct (for_loop_total (λ _ u, table_ok u) mark_slice 30 0 t Hok)
    as (t' & Hrun & _).
  { intros j u Hj Hu. apply mark_slice_total; [done|lia]. }
  unfold for_range. change (Z.to_nat (30 - 0)) with 30%nat.
  rewrite Hrun. cbn. by eexists _, _.
Qed.

(** ** The boundary finder of Instrument A *)

Section ScanProps.

Context (zw : float) (start_region end_region : Z) (roiw_ave : float).

Local Abbreviation scan := (scan_cloud zw start_region end_region roiw_ave).
Local Abbreviation starts := (tracked_points zw roiw_ave start_region).
Local Abbreviation ends := (tracked_points zw roiw_ave end_region).

Lemma scan_point_spec (ipt : Z) (p : point) (st : scan_state) :
  let upd (region : Z) (f : extremum → Z * point → extremum) (m : extremum) :=
    if tracked zw roiw_ave region p then f m (ipt, p) else m in
  fields (scan_point zw start_region end_region roiw_ave ipt p st)
  = [upd start_region (min_along c1f) (c1_start_min st);
     upd start_region (max_along c1f) (c1_start_max st);
     upd start_region (min_along c2f) (c2_start_min st);
     upd start_region (max_along c2f) (c2_start_max st);
     upd end_region (min_along c1f) (c1_end_min st);
     upd end_region (max_along c1f) (c1_end_max st);
     upd end_region (min_along c2f) (c2_end_min st);
     upd end_region (max_along c2f) (c2_end_max st)].
Proof.
  cbv zeta. unfold scan_point, tracked, qualifies, on_plane, c1f.
  destruct (PrimFloat.abs (zw - wave p) <? roiw_ave)%float,
    (to_int (sliceno p) =? start_region), (to_int (sliceno p) =? end_region),
    (to_f32 (coord1 p) !=? -1)%float; reflexivity.
Qed.

Lemma scan_cloud_spec (ipt : Z) (cloud : list point) (st : scan_state) :
  fields (scan ipt cloud st)
  = [foldl (min_along c1f) (c1_start_min st) (starts ipt cloud);
     foldl (max_along c1f) (c1_start_max st) (starts ipt cloud);
     foldl (min_along c2f) (c2_start_min st) (starts ipt cloud);
     foldl (max_along c2f) (c2_start_max st) (starts ipt cloud);
     foldl (min_along c1f) (c1_end_min st) (ends ipt cloud);
     foldl (max_along c1f) (c1_end_max st) (ends ipt cloud);
     foldl (min_along c2f) (c2_end_min st) (ends ipt cloud);
     foldl (max_along c2f) (c2_end_max st) (ends ipt cloud)].
Proof.
  revert ipt st. induction cloud as [|p rest IH]; intros ipt st; [done|].
  cbn [scan_cloud]. rewrite IH.
  pose proof (scan_point_spec ipt p st) as Hp. cbv zeta in Hp.
  injection Hp as -> -> -> -> -> -> -> ->.
  unfold tracked_points. cbn [indexed List.filter snd].
  destruct (tracked zw roiw_ave start_region p),
    (tracked zw roiw_ave end_region p); reflexivity.
Qed.

End ScanProps.

(** The running minimum with its index: it is the start value or an
    element strictly below it, and no element is strictly below it. *)
Lemma min_along_spec (axis : point → float) (l : list (Z * point))
    (m0 : extremum) :
  let F := foldl (min_along axis) m0 l in
  (F = m0
   ∨ ∃ ip, ip ∈ l ∧ F = Extremum (axis ip.2) ip.1
           ∧ (axis ip.2 <? value m0)%float = true)
  ∧ (∀ ip, ip ∈ l → (axis ip.2 <? value F)%float = false).
Proof.
  cbv zeta. revert m0. induction l as [|[i p] l IH]; intros m0.
  { split; [by left|]. intros ip Hip. by apply elem_of_nil in Hip. }
  cbn [foldl]. destruct (IH (min_along axis m0 (i, p))) as [Ha Hb].
  unfold min_along, track_min in Ha, Hb |- *. cbn [fst snd] in *.
  destruct (axis p <? value m0)%float eqn:E; cbn [value] in *.
  - split.
    + right. destruct Ha as [->|(ip & Hip & -> & Hlt)].
      * exists (i, p). split_and!; [left|done..].
      * exists ip. split_and!; [by right|done|].
        eapply ltb_trans; eassumption.
    + intros ip [->|Hip]%elem_of_cons; [|by apply Hb]. cbn [snd].
      destruct Ha as [->|(ip & Hip & -> & Hlt)]; cbn [value].
      * apply ltb_irrefl.
      * apply not_true_is_false. intros Hc.
        pose proof (ltb_trans _ _ _ Hc Hlt) as Hx.
        by rewrite ltb_irrefl in Hx.
  - split.
    + destruct Ha as [->|(ip & Hip & -> & Hlt)]; [by left|].
      right. exists ip. split_and!; [by right|done..].
    + intros ip [->|Hip]%elem_of_cons; [|by apply Hb]. cbn [snd].
      destruct Ha as [->|(ip & Hip & -> & Hlt)]; cbn [value]; [done|].
      apply not_true_is_false. intros Hc.
      pose proof (ltb_trans _ _ _ Hc Hlt) as Hx. congruence.
Qed.

Lemma max_along_spec (axis : point → float) (l : list (Z * point))
    (m0 : extremum) :
  let F := foldl (max_along axis) m0 l in
  (F = m0
   ∨ ∃ ip, ip ∈ l ∧ F = Extremum (axis ip.2) ip.1
           ∧ (axis ip.2 >? value m0)%float = true)
  ∧ (∀ ip, ip ∈ l → (axis ip.2 >? value F)%float = false).
Proof.
  cbv zeta. revert m0. induction l as [|[i p] l IH]; intros m0.
  { split; [by left|]. intros ip Hip. by apply elem_of_nil in Hip. }
  cbn [foldl]. destruct (IH (max_along axis m0 (i, p))) as [Ha Hb].
  unfold max_along, track_max, gtb in Ha, Hb |- *. cbn [fst snd] in *.
  destruct (value m0 <? axis p)%float eqn:E; cbn [value] in *.
  - split.
    + right. destruct Ha as [->|(ip & Hip & -> & Hlt)].
      * exists (i, p). split_and!; [left|done..].
      * exists ip. split_and!; [by right|done|].
        eapply ltb_trans; eassumption.
    + intros ip [->|Hip]%elem_of_cons; [|by apply Hb]. cbn [snd].
      destruct Ha as [->|(ip & Hip & -> & Hlt)]; cbn [value].
      * apply ltb_irrefl.
      * apply not_true_is_false. intros Hc.
        pose proof (ltb_trans _ _ _ Hlt Hc) as Hx.
        by rewrite ltb_irrefl in Hx.
  - split.
    + destruct Ha as [->|(ip & Hip & -> & Hlt)]; [by left|].
      right. exists ip. split_and!; [by right|done..].
    + intros ip [->|Hip]%elem_of_cons; [|by apply Hb]. cbn [snd].
      destruct Ha as [->|(ip & Hip & -> & Hlt)]; cbn [value]; [done|].
      apply not_true_is_false. intros Hc.
      pose proof (ltb_trans _ _ _ Hlt Hc) as Hx. congruence.
Qed.

(** The values alone follow [fmin] and [fmax]. *)
Lemma min_along_value (axis : point → float) (l : list (Z * point))
    (m0 : extremum) :
  value (foldl (min_along axis) m0 l)
  = foldl fmin (value m0) (axis ∘ snd <$> l).
Proof.
  revert m0. induction l as [|[i p] l IH]; intros m0; [done|].
  cbn [foldl fmap list_fmap]. rewrite IH. f_equal.
  unfold min_along, track_min, fmin. cbn. by destruct (_ <? _)%float.
Qed.

Lemma max_along_value (axis : point → float) (l : list (Z * point))
    (m0 : extremum) :
  value (foldl (max_along axis) m0 l)
  = foldl fmax (value m0) (axis ∘ snd <$> l).
Proof.
  revert m0. induction l as [|[i p] l IH]; intros m0; [done|].
  cbn [foldl fmap list_fmap]. rewrite IH. f_equal.
  unfold max_along, track_max, fmax, gtb. cbn. by destruct (_ <? _)%float.
Qed.

(** Indexed points are the points of the cloud at their indices. *)
Lemma indexed_elem (ipt : Z) (cloud : list point) (i : Z) (p : point) :
  (i, p) ∈ indexed ipt cloud ↔ ipt ≤ i ∧ cloud !! Z.to_nat (i - ipt) = Some p.
Proof.
  revert ipt. induction cloud as [|q rest IH]; intros ipt; cbn [indexed].
  { split; [by intros ?%elem_of_nil|by intros [_ ?]]. }
  rewrite elem_of_cons, IH. split.
  - intros [[= -> ->]|[Hle Hl]].
    + split; [lia|]. by rewrite Z.sub_diag.
    + split; [lia|].
      replace (Z.to_nat (i - ipt)) with (S (Z.to_nat (i - (ipt + 1)))) by lia.
      exact Hl.
  - intros [Hle Hl]. destruct (decide (i = ipt)) as [->|Hne].
    + left. rewrite Z.sub_diag in Hl. change (Some q = Some p) in Hl.
      by simplify_eq.
    + right. split; [lia|].
      replace (Z.to_nat (i - ipt)) with (S (Z.to_nat (i - (ipt + 1)))) in Hl
        by lia.
      exact Hl.
Qed.

Lemma tracked_points_elem (zw roiw_ave : float) (region ipt : Z)
    (cloud : list point) (ip : Z * point) :
  ip ∈ tracked_points zw roiw_ave region ipt cloud
  ↔ ip ∈ indexed ipt cloud ∧ tracked zw roiw_ave region ip.2 = true.
Proof.
  unfold tracked_points. rewrite !list_elem_of_In. apply filter_In.
Qed.

Section FinderProps.

Context (zw roiw_ave : float).

Local Abbreviation pts region cloud := (tracked_points zw roiw_ave region 0 cloud).

Lemma tracked_points_index (region : Z) (cloud : list point)
    (ip : Z * point) :
  ip ∈ pts region cloud →
  0 ≤ ip.1 ∧ rd cloud ip.1 = Some ip.2 ∧ tracked zw roiw_ave region ip.2 = true.
Proof.
  destruct ip as [i p]. rewrite tracked_points_elem, indexed_elem.
  intros [[Hi Hl] Ht]. cbn [fst snd] in *. split_and!; [done| |done].
  unfold rd. rewrite bool_decide_eq_true_2 by done.
  by rewrite Z.sub_0_r in Hl.
Qed.

Lemma tracked_points_of_cloud (region : Z) (cloud : list point) (p : point) :
  In p cloud → tracked zw roiw_ave region p = true →
  ∃ i, (i, p) ∈ pts region cloud.
Proof.
  intros Hin Ht. apply list_elem_of_In, list_elem_of_lookup in Hin as [k Hk].
  exists (Z.of_nat k). apply tracked_points_elem. split; [|done].
  apply indexed_elem. split; [lia|]. by rewrite Z.sub_0_r, Nat2Z.id.
Qed.

(** A minimum was found exactly when some tracked point is strictly below
    the sentinel; likewise for a maximum. *)
Lemma found_below (axis : point → float) (v0 : float) (region : Z)
    (cloud : list point) :
  index (foldl (min_along axis) (Extremum v0 (-1)) (pts region cloud)) ≠ -1
  ↔ existsb (λ p, tracked zw roiw_ave region p && (axis p <? v0)%float) cloud
    = true.
Proof.
  destruct (min_along_spec axis (pts region cloud) (Extremum v0 (-1)))
    as [Ha Hb]. cbn [value] in *.
  rewrite existsb_exists. split.
  - intros Hne. destruct Ha as [E|(ip & Hip & E & Hlt)];
      [by rewrite E in Hne|].
    exists ip.2. apply tracked_points_index in Hip as (_ & Hrd & Ht).
    apply rd_Some in Hrd as [_ Hrd]. split.
    + eapply list_elem_of_In, list_elem_of_lookup_2, Hrd.
    + by rewrite Ht, Hlt.
  - intros (p & Hin & [Ht Hlt]%andb_true_iff) Hidx.
    destruct (tracked_points_of_cloud region cloud p Hin Ht) as [i Hi].
    destruct Ha as [E|(ip & Hip & E & _)].
    + specialize (Hb _ Hi). rewrite E in Hb. cbn in Hb. congruence.
    + rewrite E in Hidx. cbn in Hidx.
      apply tracked_points_index in Hip as (? & _). lia.
Qed.

Lemma found_above (axis : point → float) (v0 : float) (region : Z)
    (cloud : list point) :
  index (foldl (max_along axis) (Extremum v0 (-1)) (pts region cloud)) ≠ -1
  ↔ existsb (λ p, tracked zw roiw_ave region p && (axis p >? v0)%float) cloud
    = true.
Proof.
  destruct (max_along_spec axis (pts region cloud) (Extremum v0 (-1)))
    as [Ha Hb]. cbn [value] in *.
  rewrite existsb_exists. split.
  - intros Hne. destruct Ha as [E|(ip & Hip & E & Hlt)];
      [by rewrite E in Hne|].
    exists ip.2. apply tracked_points_index in Hip as (_ & Hrd & Ht).
    apply rd_Some in Hrd as [_ Hrd]. split.
    + eapply list_elem_of_In, list_elem_of_lookup_2, Hrd.
    + by rewrite Ht, Hlt.
  - intros (p & Hin & [Ht Hlt]%andb_true_iff) Hidx.
    destruct (tracked_points_of_cloud region cloud p Hin Ht) as [i Hi].
    destruct Ha as [E|(ip & Hip & E & _)].
    + specialize (Hb _ Hi). rewrite E in Hb. unfold gtb in *. cbn in Hb.
      congruence.
    + rewrite E in Hidx. cbn in Hidx.
      apply tracked_points_index in Hip as (? & _). lia.
Qed.

End FinderProps.

Section BoundaryStatus.

Context (w start_region end_region : Z) (roiw_ave : float).
Context (zc : list float) (cloud : list point) (out : corners) (zw : float).
Context (Hzw : rd zc w = Some zw).

Local Abbreviation final :=
  (scan_cloud zw start_region end_region roiw_ave 0 cloud scan_init).

Lemma corner_wave_plane_miri_eq :
  corner_wave_plane_miri w start_region end_region roiw_ave zc cloud out
  = set_corners cloud out final.
Proof.
  unfold corner_wave_plane_miri. destruct cloud; [done|]. by rewrite Hzw.
Qed.

Lemma final_fields :
  fields final
  = [foldl (min_along c1f) (Extremum 10000 (-1))
       (tracked_points zw roiw_ave start_region 0 cloud);
     foldl (max_along c1f) (Extremum (-10000) (-1))
       (tracked_points zw roiw_ave start_region 0 cloud);
     foldl (min_along c2f) (Extremum 10000 (-1))
       (tracked_points zw roiw_ave start_region 0 cloud);
     foldl (max_along c2f) (Extremum (-10000) (-1))
       (tracked_points zw roiw_ave start_region 0 cloud);
     foldl (min_along c1f) (Extremum 10000 (-1))
       (tracked_points zw roiw_ave end_region 0 cloud);
     foldl (max_along c1f) (Extremum (-10000) (-1))
       (tracked_points zw roiw_ave end_region 0 cloud);
     foldl (min_along c2f) (Extremum 10000 (-1))
       (tracked_points zw roiw_ave end_region 0 cloud);
     foldl (max_along c2f) (Extremum (-10000) (-1))
       (tracked_points zw roiw_ave end_region 0 cloud)].
Proof. apply scan_cloud_spec. Qed.

(** The test after the loop passes exactly when both extents were found. *)
Lemma status_test :
  (index (c1_start_min final) =? -1) || (index (c1_start_max final) =? -1)
  || (index (c1_end_min final) =? -1) || (index (c1_end_max final) =? -1)
  = negb (extent_found zw roiw_ave start_region cloud
          && extent_found zw roiw_ave end_region cloud).
Proof.
  pose proof final_fields as Hf.
  injection Hf as E1 E2 _ _ E5 E6 _ _. rewrite E1, E2, E5, E6.
  unfold extent_found.
  pose proof (found_below zw roiw_ave c1f 10000 start_region cloud) as F1.
  pose proof (found_above zw roiw_ave c1f (-10000) start_region cloud) as F2.
  pose proof (found_below zw roiw_ave c1f 10000 end_region cloud) as F3.
  pose proof (found_above zw roiw_ave c1f (-10000) end_region cloud) as F4.
  repeat match goal with
  | |- context [index ?e =? -1] =>
      destruct (Z.eqb_spec (index e) (-1))
  end;
  repeat match goal with
  | |- context [existsb ?f cloud] => destruct (existsb f cloud)
  end; cbn; try reflexivity; exfalso; intuition congruence.
Qed.

End BoundaryStatus.

(** A point that qualifies but is not tracked, or no point at all: a
    slice that contributed no qualifying point has no extent. *)
Lemma extent_found_qualifies (zw roiw_ave : float) (region : Z)
    (cloud : list point) :
  existsb (qualifies zw roiw_ave region) cloud = false →
  extent_found zw roiw_ave region cloud = false.
Proof.
  intros Hq. unfold extent_found. apply andb_false_intro1.
  apply not_true_is_false. rewrite existsb_exists.
  intros (p & Hin & [[Hp _]%andb_true_iff _]%andb_true_iff).
  apply not_true_iff_false in Hq. apply Hq, existsb_exists. eauto.
Qed.

(** Without both extents the finder returns 1 and the corners it got. *)
Lemma status_not_found (w start_region end_region : Z) (roiw_ave : float)
    (zc : list float) (cloud : list point) (out : corners) (zw : float) :
  rd zc w = Some zw →
  extent_found zw roiw_ave start_region cloud
  && extent_found zw roiw_ave end_region cloud = false →
  corner_wave_plane_miri w start_region end_region roiw_ave zc cloud out
  = Some (1, out).
Proof.
  intros Hzw Hnot.
  rewrite (corner_wave_plane_miri_eq _ _ _ _ _ _ _ _ Hzw).
  unfold set_corners. by rewrite status_test, Hnot.
Qed.

Lemma status_no_qualifying (w start_region end_region : Z) (roiw_ave : float)
    (zc : list float) (cloud : list point) (out : corners) (zw : float) :
  rd zc w = Some zw →
  existsb (qualifies zw roiw_ave start_region) cloud = false
  ∨ existsb (qualifies zw roiw_ave end_region) cloud = false →
  corner_wave_plane_miri w start_region end_region roiw_ave zc cloud out
  = Some (1, out).
Proof.
  intros Hzw Hq. apply (status_not_found _ _ _ _ _ _ _ _ Hzw).
  destruct Hq as [Hq|Hq]; apply extent_found_qualifies in Hq; rewrite Hq;
    [reflexivity|apply andb_false_r].
Qed.

(** C4, as the code has it: the boundary finder returns the nonzero status
    1 exactly when, for the start or the end slice, no qualifying point
    whose [coord1] (as a [float]) differs from -1 lies strictly below the
    sentinel 10000 or none lies strictly above the sentinel -10000, as
    happens when a slice contributed no qualifying point at all; the four
    corners are then returned as they were passed.  When both extents were
    found, a status that is returned is 0. *)
Theorem boundary_status (w start_region end_region : Z) (roiw_ave : float)
    (zc : list float) (cloud : list point) (out : corners) (zw : float) :
  rd zc w = Some zw →
  let result :=
    corner_wave_plane_miri w start_region end_region roiw_ave zc cloud out in
  let found :=
    extent_found zw roiw_ave start_region cloud
    && extent_found zw roiw_ave end_region cloud in
  (found = false → result = Some (1, out))
  ∧ (found = true → ∀ status cs, result = Some (status, cs) → status = 0)
  ∧ (existsb (qualifies zw roiw_ave start_region) cloud = false
     ∨ existsb (qualifies zw roiw_ave end_region) cloud = false →
     result = Some (1, out)).
Proof.
  intros Hzw result found. subst result. split_and!.
  - by apply status_not_found.
  - intros Hfound status cs.
    rewrite (corner_wave_plane_miri_eq _ _ _ _ _ _ _ _ Hzw).
    unfold set_corners. rewrite status_test. fold found. rewrite Hfound.
    cbn [negb]. destruct (_ =? 0); intros H; simplify_option_eq; done.
  - by apply status_no_qualifying.
Qed.

(** Both extreme slices have a point on the plane, the start slice only
    one with [coord1 = -1], and there the boundary finder returns 1. *)
Lemma boundary_status_witness :
  let cloud := [Point (-1) 0 5 1; Point 0 10 5 2; Point 4 11 5 2]%float in
  let out := Corners (0, 0)%float (0, 0)%float (0, 0)%float (0, 0)%float in
  corner_wave_plane_miri 0 1 2 1 [5%float] cloud out = Some (1, out).
Proof.
  intros cloud out.
  apply (proj1 (boundary_status 0 1 2 1 [5%float] cloud out 5 eq_refl)).
  reflexivity.
Defined.

(** Against C4 as stated: the status is nonzero although each of the two
    extreme slices contributed a point within the region of interest. *)
Lemma boundary_status_counterexample :
  let cloud := [Point (-1) 0 5 1; Point 0 10 5 2; Point 4 11 5 2]%float in
  let out := Corners (0, 0)%float (0, 0)%float (0, 0)%float (0, 0)%float in
  ¬ (∀ status cs,
       corner_wave_plane_miri 0 1 2 1 [5%float] cloud out = Some (status, cs) →
       (status ≠ 0 ↔
        existsb (qualifies 5 1 1) cloud = false
        ∨ existsb (qualifies 5 1 2) cloud = false)).
Proof.
  intros cloud out Hclaim.
  destruct (Hclaim 1 out) as [Hto _]; [reflexivity|].
  destruct Hto as [H|H]; [done|..]; vm_compute in H; discriminate.
Qed.

Section CornerProps.

Context (zw roiw_ave : float) (cloud : list point).

Local Abbreviation pts region := (tracked_points zw roiw_ave region 0 cloud).
Local Abbreviation sel region := (List.filter (tracked zw roiw_ave region) cloud).

Lemma tracked_points_snd (region ipt : Z) (l : list point) :
  (tracked_points zw roiw_ave region ipt l).*2
  = List.filter (tracked zw roiw_ave region) l.
Proof.
  revert ipt. induction l as [|p l IH]; intros ipt; [done|].
  unfold tracked_points in *. cbn [indexed List.filter snd].
  destruct (tracked zw roiw_ave region p); cbn [fmap list_fmap snd];
    by rewrite IH.
Qed.

Lemma sel_elem (region : Z) (p : point) :
  p ∈ sel region ↔ In p cloud ∧ tracked zw roiw_ave region p = true.
Proof. rewrite list_elem_of_In. apply filter_In. Qed.

Lemma pts_sel (region : Z) (ip : Z * point) :
  ip ∈ pts region → ip.2 ∈ sel region.
Proof.
  intros Hip. rewrite <- (tracked_points_snd region 0).
  apply list_elem_of_fmap. eauto.
Qed.

Lemma sel_pts (region : Z) (p : point) :
  p ∈ sel region → ∃ i, (i, p) ∈ pts region.
Proof. intros [? ?]%sel_elem. by apply tracked_points_of_cloud. Qed.

(** The corner read at the index of a running minimum is the corner of a
    tracked point that no tracked point is strictly below. *)
Lemma corner_min (axis : point → float) (v0 : float) (region : Z)
    (k : corner) :
  corner_at cloud
    (index (foldl (min_along axis) (Extremum v0 (-1)) (pts region))) = Some k →
  ∃ p, p ∈ sel region ∧ k = corner_of p
       ∧ ∀ q, q ∈ sel region → (axis q <? axis p)%float = false.
Proof.
  destruct (min_along_spec axis (pts region) (Extremum v0 (-1))) as [Ha Hb].
  intros Hk. destruct Ha as [E|(ip & Hip & E & _)].
  { by rewrite E in Hk. }
  rewrite E in Hk, Hb. cbn [index value] in *.
  destruct (tracked_points_index _ _ _ _ _ Hip) as (_ & Hrd & _).
  unfold corner_at in Hk. rewrite Hrd in Hk. cbn in Hk. simplify_eq.
  exists ip.2. split_and!; [by apply pts_sel|done|].
  intros q [i Hq]%sel_pts. apply (Hb _ Hq).
Qed.

Lemma corner_max (axis : point → float) (v0 : float) (region : Z)
    (k : corner) :
  corner_at cloud
    (index (foldl (max_along axis) (Extremum v0 (-1)) (pts region))) = Some k →
  ∃ p, p ∈ sel region ∧ k = corner_of p
       ∧ ∀ q, q ∈ sel region → (axis q >? axis p)%float = false.
Proof.
  destruct (max_along_spec axis (pts region) (Extremum v0 (-1))) as [Ha Hb].
  intros Hk. destruct Ha as [E|(ip & Hip & E & _)].
  { by rewrite E in Hk. }
  rewrite E in Hk, Hb. cbn [index value] in *.
  destruct (tracked_points_index _ _ _ _ _ Hip) as (_ & Hrd & _).
  unfold corner_at in Hk. rewrite Hrd in Hk. cbn in Hk. simplify_eq.
  exists ip.2. split_and!; [by apply pts_sel|done|].
  intros q [i Hq]%sel_pts. apply (Hb _ Hq).
Qed.

Lemma span_eq (axis : point → float) (region : Z) :
  to_f32 (value (foldl (max_along axis) (Extremum (-10000) (-1)) (pts region))
          - value (foldl (min_along axis) (Extremum 10000 (-1)) (pts region)))
  = span axis (sel region).
Proof.
  rewrite min_along_value, max_along_value. unfold span.
  by rewrite !list_fmap_compose, tracked_points_snd.
Qed.

End CornerProps.

(** C8, as the code has it.  Among the qualifying points whose [coord1]
    (as a [float]) differs from -1, and comparing the coordinates as
    [float]s: when the boundary finder succeeds, the long axis is [coord2]
    if the span of [coord1] over the start-slice points is strictly less
    than that of [coord2], and [coord1] otherwise; corner1 and corner2
    are start-slice points that no start-slice point is strictly below,
    respectively above, on the long axis, and corner3 and corner4 are
    end-slice points that no end-slice point is strictly above,
    respectively below. *)
Theorem corners_are_extrema (w start_region end_region : Z)
    (roiw_ave : float) (zc : list float) (cloud : list point)
    (out cs : corners) (zw : float) :
  rd zc w = Some zw →
  corner_wave_plane_miri w start_region end_region roiw_ave zc cloud out
    = Some (0, cs) →
  let starts := List.filter (tracked zw roiw_ave start_region) cloud in
  let ends := List.filter (tracked zw roiw_ave end_region) cloud in
  ∃ (long : point → float) (p1 p2 p3 p4 : point),
    (long = c2f ∧ (span c1f starts <? span c2f starts)%float = true
     ∨ long = c1f ∧ (span c1f starts <? span c2f starts)%float = false)
    ∧ cs = Corners (corner_of p1) (corner_of p2) (corner_of p3) (corner_of p4)
    ∧ p1 ∈ starts ∧ p2 ∈ starts ∧ p3 ∈ ends ∧ p4 ∈ ends
    ∧ (∀ q, q ∈ starts → (long q <? long p1)%float = false
                         ∧ (long q >? long p2)%float = false)
    ∧ (∀ q, q ∈ ends → (long q >? long p3)%float = false
                       ∧ (long q <? long p4)%float = false).
Proof.
  intros Hzw Hrun starts ends.
  rewrite (corner_wave_plane_miri_eq _ _ _ _ _ _ _ _ Hzw) in Hrun.
  unfold set_corners in Hrun.
  destruct (_ || _) in Hrun; [done|].
  pose proof (final_fields start_region end_region roiw_ave cloud zw) as Hf.
  injection Hf as E1 E2 E3 E4 E5 E6 E7 E8.
  rewrite E1, E2, E3, E4, E5, E6, E7, E8 in Hrun. clear E1 E2 E3 E4 E5 E6 E7 E8.
  rewrite !span_eq in Hrun. fold starts in Hrun.
  destruct (span c1f starts <? span c2f starts)%float eqn:Hspan;
    cbn [Z.eqb] in Hrun.
  - apply bind_Some in Hrun as (k1 & K1 & Hrun).
    apply bind_Some in Hrun as (k2 & K2 & Hrun).
    apply bind_Some in Hrun as (k3 & K3 & Hrun).
    apply bind_Some in Hrun as (k4 & K4 & Hrun). simplify_eq.
    apply corner_min in K1 as (p1 & I1 & -> & M1).
    apply corner_max in K2 as (p2 & I2 & -> & M2).
    apply corner_max in K3 as (p3 & I3 & -> & M3).
    apply corner_min in K4 as (p4 & I4 & -> & M4).
    exists c2f, p1, p2, p3, p4. split_and!; auto.
  - apply bind_Some in Hrun as (k1 & K1 & Hrun).
    apply bind_Some in Hrun as (k2 & K2 & Hrun).
    apply bind_Some in Hrun as (k3 & K3 & Hrun).
    apply bind_Some in Hrun as (k4 & K4 & Hrun). simplify_eq.
    apply corner_min in K1 as (p1 & I1 & -> & M1).
    apply corner_max in K2 as (p2 & I2 & -> & M2).
    apply corner_max in K3 as (p3 & I3 & -> & M3).
    apply corner_min in K4 as (p4 & I4 & -> & M4).
    exists c1f, p1, p2, p3, p4. split_and!; auto.
Qed.

Lemma corners_are_extrema_witness :
  let cloud := [Point 0 0 5 1; Point 3 1 5 1; Point 0 10 5 2;
                Point 4 11 5 2]%float in
  let starts := List.filter (tracked 5 1 1) cloud in
  let ends := List.filter (tracked 5 1 2) cloud in
  ∃ (long : point → float) (p1 p2 p3 p4 : point),
    (long = c2f ∧ (span c1f starts <? span c2f starts)%float = true
     ∨ long = c1f ∧ (span c1f starts <? span c2f starts)%float = false)
    ∧ Corners (0, 0)%float (3, 1)%float (4, 11)%float (0, 10)%float
      = Corners (corner_of p1) (corner_of p2) (corner_of p3) (corner_of p4)
    ∧ p1 ∈ starts ∧ p2 ∈ starts ∧ p3 ∈ ends ∧ p4 ∈ ends
    ∧ (∀ q, q ∈ starts → (long q <? long p1)%float = false
                         ∧ (long q >? long p2)%float = false)
    ∧ (∀ q, q ∈ ends → (long q >? long p3)%float = false
                       ∧ (long q <? long p4)%float = false).
Proof.
  intros cloud.
  refine (corners_are_extrema 0 1 2 1 [5%float] cloud
            (Corners (7, 7)%float (7, 7)%float (7, 7)%float (7, 7)%float)
            _ 5 _ _); vm_compute; reflexivity.
Defined.

(** Against C8 as stated: the start slice has the qualifying points
    (-1, 0), (0, 0.5) and (5, 1).  The finder succeeds with corner1 =
    (0, 0.5), and the qualifying point (-1, 0) is strictly below it on
    both axes: corner1 is the minimum of neither axis over the qualifying
    start-slice points. *)
Lemma corners_are_extrema_counterexample :
  let cloud := [Point (-1) 0 5 1; Point 0 0.5 5 1; Point 5 1 5 1;
                Point 0 10 5 2; Point 4 11 5 2]%float in
  let out := Corners (7, 7)%float (7, 7)%float (7, 7)%float (7, 7)%float in
  ¬ (∀ cs,
       corner_wave_plane_miri 0 1 2 1 [5%float] cloud out = Some (0, cs) →
       ∃ (long : point → float) (p1 : point),
         (long = coord1 ∨ long = coord2)
         ∧ In p1 cloud ∧ qualifies 5 1 1 p1 = true
         ∧ corner1 cs = corner_of p1
         ∧ ∀ q, In q cloud → qualifies 5 1 1 q = true →
                (long q <? long p1)%float = false).
Proof.
  intros cloud out Hclaim.
  destruct (Hclaim (Corners (0, 0.5)%float (5, 1)%float (4, 11)%float
                      (0, 10)%float))
    as (long & p1 & Hlong & _ & _ & Hk & Hmin); [vm_compute; reflexivity|].
  specialize (Hmin (Point (-1) 0 5 1) ltac:(by left) eq_refl).
  destruct p1 as [a b c d]. injection Hk as <- <-.
  destruct Hlong as [-> | ->]; vm_compute in Hmin; discriminate.
Qed.

(** ** The sentinels *)

Lemma fold_fmin_sentinel (cs : list float) (m : float) :
  (∀ c, c ∈ cs → (m <=? c)%float = true) → foldl fmin m cs = m.
Proof.
  induction cs as [|c cs IH]; intros Hall; [done|]. cbn [foldl].
  assert (fmin m c = m) as ->.
  { unfold fmin. assert ((m <=? c)%float = true) as Hc by (apply Hall; left).
    apply leb_not_gtb in Hc. unfold gtb in Hc. by rewrite Hc. }
  apply IH. intros c' Hc'. apply Hall. by right.
Qed.

Lemma fold_fmax_sentinel (cs : list float) (x : float) :
  (∀ c, c ∈ cs → (c <=? x)%float = true) → foldl fmax x cs = x.
Proof.
  induction cs as [|c cs IH]; intros Hall; [done|]. cbn [foldl].
  assert (fmax x c = x) as ->.
  { unfold fmax. assert ((c <=? x)%float = true) as Hc by (apply Hall; left).
    apply leb_not_gtb in Hc. by rewrite Hc. }
  apply IH. intros c' Hc'. apply Hall. by right.
Qed.

Section SentinelProps.

Context (zw roiw_ave : float) (cloud : list point).

Local Abbreviation pts region := (tracked_points zw roiw_ave region 0 cloud).

(** A point at or above 10000 is not recorded as a minimum, a point at or
    below -10000 not as a maximum. *)
Lemma min_not_recorded (axis : point → float) (region i : Z) (p : point) :
  rd cloud i = Some p → (10000 <=? axis p)%float = true →
  index (foldl (min_along axis) (Extremum 10000 (-1)) (pts region)) ≠ i.
Proof.
  intros Hrd Hge.
  destruct (min_along_spec axis (pts region) (Extremum 10000 (-1)))
    as [[E|(ip & Hip & E & Hlt)] _]; rewrite E; cbn [index value] in *.
  - apply rd_Some in Hrd. lia.
  - intros <-. apply tracked_points_index in Hip as (_ & Hrd' & _).
    rewrite Hrd in Hrd'. simplify_eq.
    apply leb_not_gtb in Hge. unfold gtb in Hge. congruence.
Qed.

Lemma max_not_recorded (axis : point → float) (region i : Z) (p : point) :
  rd cloud i = Some p → (axis p <=? -10000)%float = true →
  index (foldl (max_along axis) (Extremum (-10000) (-1)) (pts region)) ≠ i.
Proof.
  intros Hrd Hle.
  destruct (max_along_spec axis (pts region) (Extremum (-10000) (-1)))
    as [[E|(ip & Hip & E & Hlt)] _]; rewrite E; cbn [index value] in *.
  - apply rd_Some in Hrd. lia.
  - intros <-. apply tracked_points_index in Hip as (_ & Hrd' & _).
    rewrite Hrd in Hrd'. simplify_eq.
    apply leb_not_gtb in Hle. congruence.
Qed.

End SentinelProps.

(** C10, as the code has it: a minimum is tracked only for values strictly
    below 10000 and a maximum only for values strictly above -10000 (a
    value at or above 10000 can still become a maximum, one at or below
    -10000 a minimum).  In [match_wave_plane_nirspec] a slice all of whose
    qualifying points have [coord1 >= 10000], or all [coord2 >= 10000], or
    all [coord1 <= -10000], or all [coord2 <= -10000], is not marked
    matched.  In [corner_wave_plane_miri] a point whose coordinate (as a
    [float]) is at or above 10000 is not recorded as the minimum of that
    coordinate, and one at or below -10000 not as its maximum. *)
Theorem sentinel_range :
  (∀ (wave_plane roiw_ave : float) (cloud : list point) (t : slice_table)
     (ii : Z) (k : nat),
     match_wave_plane_nirspec wave_plane roiw_ave cloud = Some (t, ii) →
     (k < 30)%nat →
     let pts := slice_points wave_plane roiw_ave (Z.of_nat k) cloud in
     (∀ p, p ∈ pts → (minvalue <=? coord1 p)%float = true)
     ∨ (∀ p, p ∈ pts → (minvalue <=? coord2 p)%float = true)
     ∨ (∀ p, p ∈ pts → (coord1 p <=? maxvalue)%float = true)
     ∨ (∀ p, p ∈ pts → (coord2 p <=? maxvalue)%float = true) →
     match_slice t !! k = Some 0)
  ∧ (∀ (zw : float) (start_region end_region : Z) (roiw_ave : float)
       (cloud : list point) (i : Z) (p : point),
       rd cloud i = Some p →
       let st := scan_cloud zw start_region end_region roiw_ave 0 cloud
                   scan_init in
       ((10000 <=? c1f p)%float = true →
          index (c1_start_min st) ≠ i ∧ index (c1_end_min st) ≠ i)
       ∧ ((10000 <=? c2f p)%float = true →
          index (c2_start_min st) ≠ i ∧ index (c2_end_min st) ≠ i)
       ∧ ((c1f p <=? -10000)%float = true →
          index (c1_start_max st) ≠ i ∧ index (c1_end_max st) ≠ i)
       ∧ ((c2f p <=? -10000)%float = true →
          index (c2_start_max st) ≠ i ∧ index (c2_end_max st) ≠ i)).
Proof.
  split.
  - intros wave_plane roiw_ave cloud t ii k Hrun Hk pts Hall.
    destruct (match_wave_plane_spec _ _ _ _ _ _ Hk Hrun)
      as (_ & _ & _ & _ & _ & [?|(_ & N1 & N2 & N3 & N4 & _)]); [done|].
    fold pts in N1, N2, N3, N4. exfalso.
    destruct Hall as [H|[H|[H|H]]].
    + rewrite fold_fmin_sentinel in N1; [done|].
      intros c (p & -> & Hp)%list_elem_of_fmap. by apply H.
    + rewrite fold_fmin_sentinel in N2; [done|].
      intros c (p & -> & Hp)%list_elem_of_fmap. by apply H.
    + rewrite fold_fmax_sentinel in N3; [done|].
      intros c (p & -> & Hp)%list_elem_of_fmap. by apply H.
    + rewrite fold_fmax_sentinel in N4; [done|].
      intros c (p & -> & Hp)%list_elem_of_fmap. by apply H.
  - intros zw start_region end_region roiw_ave cloud i p Hrd st.
    pose proof (final_fields start_region end_region roiw_ave cloud zw) as Hf.
    fold st in Hf. injection Hf as -> -> -> -> -> -> -> ->.
    split_and!; intros H; split;
      first [by eapply min_not_recorded|by eapply max_not_recorded].
Qed.

(** Two points of slice 1 at [coord1 = 10000] and [20000]: not matched. *)
Lemma sentinel_range_witness :
  let cloud := [Point 10000 0 5 1; Point 20000 1 5 1]%float in
  ∃ t ii,
    match_wave_plane_nirspec 5 1 cloud = Some (t, ii)
    ∧ match_slice t !! 0%nat = Some 0.
Proof.
  intros cloud. eexists _, _. split; [vm_compute; reflexivity|].
  refine (proj1 sentinel_range 5%float 1%float cloud _ _ 0%nat _ _ _);
    [vm_compute; reflexivity|lia|].
  left. intros p Hp. vm_compute in Hp.
  apply elem_of_cons in Hp as [->|Hp]; [reflexivity|].
  apply list_elem_of_singleton in Hp as ->. reflexivity.
Defined.

(** Against C10 as stated: the start-slice point 1 qualifies and has
    [coord1 = 20000], outside the sentinel range; it is recorded as the
    [coord1] maximum of the start slice and becomes corner2. *)
Lemma sentinel_range_counterexample :
  let cloud := [Point 0 0 5 1; Point 20000 0.5 5 1; Point 0 10 5 2;
                Point 4 11 5 2]%float in
  let out := Corners (7, 7)%float (7, 7)%float (7, 7)%float (7, 7)%float in
  ¬ (∀ i p,
       rd cloud i = Some p → qualifies 5 1 1 p = true →
       (10000 <=? coord1 p)%float = true →
       ∀ e, e ∈ fields (scan_cloud 5 1 2 1 0 cloud scan_init) → index e ≠ i)
  ∧ corner_wave_plane_miri 0 1 2 1 [5%float] cloud out
    = Some (0, Corners (0, 0)%float (20000, 0.5)%float
                 (4, 11)%float (0, 10)%float).
Proof.
  intros cloud out. split; [|vm_compute; reflexivity].
  intros Hclaim.
  apply (Hclaim 1 (Point 20000 0.5 5 1) eq_refl eq_refl eq_refl
           (c1_start_max (scan_cloud 5 1 2 1 0 cloud scan_init))).
  - right. left.
  - vm_compute. reflexivity.
Qed.

(** ** The orchestrators *)

Lemma written_refl (Q : Z → Z → Prop) (lo j : Z) (a : list Z) :
  j ≤ lo → written Q lo j a a.
Proof. intros. split_and!; [done..|]. intros; lia. Qed.

Lemma written_step (Q : Z → Z → Prop) (lo j : Z) (a b b' : list Z) (v : Z) :
  lo ≤ j → written Q lo j a b → wr b j v = Some b' → Q j v →
  written Q lo (j + 1) a b'.
Proof.
  intros Hj (Hlen & Hfr & Hpost) Hw HQ.
  pose proof (wr_Some _ _ _ _ Hw) as [Hjr _].
  split_and!.
  - erewrite wr_length by done. done.
  - intros k Hk. erewrite wr_lookup_ne; [|done|lia]. apply Hfr. lia.
  - intros i Hi. destruct (decide (i = j)) as [->|Hne].
    + split; [lia|]. exists v. split; [by eapply wr_lookup_eq|done].
    + destruct (Hpost i) as (Hi0 & u & Hu & HQu); [lia|].
      split; [done|]. exists u. split; [|done].
      erewrite wr_lookup_ne; [done..|lia].
Qed.

(** A loop whose iteration [i] stores one value at index [i] and nothing
    else: the entries outside the range are kept, and entry [i] holds what
    iteration [i] stored. *)
Lemma for_range_writes (Q : Z → Z → Prop) (body : Z → list Z → option (list Z))
    (lo hi : Z) (a a' : list Z) :
  (∀ i b b', lo ≤ i < hi → body i b = Some b' →
             ∃ v, wr b i v = Some b' ∧ Q i v) →
  for_range lo hi body a = Some a' →
  written Q lo hi a a'.
Proof.
  intros Hbody Hrun.
  destruct (Z.le_gt_cases hi lo) as [Hle|Hlt].
  { rewrite for_range_empty in Hrun by done. simplify_eq.
    by apply written_refl. }
  eapply (for_range_inv (λ j b, written Q lo j a b) _ lo);
    [lia|by apply written_refl| |exact Hrun].
  intros j b b' Hj Hinv Hb.
  destruct (Hbody _ _ _ Hj Hb) as (v & Hw & HQ).
  eapply written_step; [lia|done..].
Qed.

(** The same for stores through a pointer that is not null. *)
Lemma for_range_ptr_writes (Q : Z → Z → Prop)
    (body : Z → option (list Z) → option (option (list Z)))
    (lo hi : Z) (a : list Z) (p' : option (list Z)) :
  (∀ i b p, lo ≤ i < hi → body i (Some b) = Some p →
            ∃ v, wr_ptr (Some b) i v = Some p ∧ Q i v) →
  for_range lo hi body (Some a) = Some p' →
  ∃ a', p' = Some a' ∧ written Q lo hi a a'.
Proof.
  intros Hbody Hrun.
  destruct (Z.le_gt_cases hi lo) as [Hle|Hlt].
  { rewrite for_range_empty in Hrun by done. simplify_eq.
    eexists. split; [done|]. by apply written_refl. }
  eapply (for_range_inv (λ j p, ∃ b, p = Some b ∧ written Q lo j a b) _ lo);
    [lia| | |exact Hrun].
  - eexists. split; [done|]. by apply written_refl.
  - intros j p p1 Hj (b & -> & Hinv) Hb.
    destruct (Hbody _ _ _ Hj Hb) as (v & Hw & HQ).
    unfold wr_ptr in Hw. cbn [mbind option_bind] in Hw.
    apply bind_Some in Hw as (b' & Hw & [= <-]).
    eexists. split; [done|]. eapply written_step; [lia|done..].
Qed.

(** Nothing is stored through a null pointer. *)
Lemma for_range_null
    (body : Z → option (list Z) → option (option (list Z)))
    (lo hi : Z) (p' : option (list Z)) :
  (∀ i, body i None = None) →
  for_range lo hi body None = Some p' → p' = None.
Proof.
  intros Hbody Hrun.
  destruct (Z.le_gt_cases hi lo) as [Hle|Hlt].
  { rewrite for_range_empty in Hrun by done. by simplify_eq. }
  eapply (for_range_inv (λ _ p, p = None) _ lo hi); [lia|done| |exact Hrun].
  intros j p p1 _ -> Hb. by rewrite Hbody in Hb.
Qed.

(** Two planes have disjoint regions of the output vector. *)
Lemma region_disjoint (nxy w w' k k' : Z) :
  0 ≤ k < nxy → 0 ≤ k' < nxy → nxy * w + k = nxy * w' + k' → w = w'.
Proof.
  intros Hk Hk' E. rewrite !(Z.mul_comm nxy) in E.
  by apply flat_index_inj in E as [_ ?].
Qed.

Section MiriPlanes.

Context (sh : float → float → float → float → list float → list float → float).
Context (start_region end_region overlap_partial overlap_full : Z).
Context (nx ny nz : Z) (cdelt1 cdelt2 roiw_ave : float).
Context (xc yc zc : list float) (cloud : list point).

Local Abbreviation plane :=
  (plane_miri sh start_region end_region overlap_partial overlap_full
     nx ny cdelt1 cdelt2 roiw_ave xc yc zc cloud).

(** One plane writes its own region of the output vector only, and zeros
    when the boundary finder reports 1. *)
Lemma plane_miri_spec (w : Z) (idqv idqv' dq dq' : list Z) (cs cs' : corners) :
  plane w (idqv, dq, cs) = Some (idqv', dq', cs') →
  length idqv' = length idqv
  ∧ (∀ k : nat, ¬ (nx * ny * w ≤ Z.of_nat k < nx * ny * w + nx * ny) →
                idqv' !! k = idqv !! k)
  ∧ (corner_wave_plane_miri w start_region end_region roiw_ave zc cloud cs
       = Some (1, cs) →
     ∀ i, nx * ny * w ≤ i < nx * ny * w + nx * ny →
          0 ≤ i ∧ idqv' !! Z.to_nat i = Some 0).
Proof.
  unfold plane_miri. intros H.
  apply bind_Some in H as (dq0 & _ & H).
  apply bind_Some in H as ([status_wave cs0] & Hfind & H).
  apply bind_Some in H as (dq1 & _ & H).
  apply bind_Some in H as (idqv1 & Hcopy & H). simplify_eq.
  apply (for_range_writes
           (λ _ v, status_wave ≠ 0 → v = 0)) in Hcopy
    as (Hlen & Hfr & Hpost).
  - split_and!; [done..|]. intros Hone i Hi.
    rewrite Hone in Hfind. simplify_eq.
    destruct (Hpost i Hi) as (? & v & -> & Hv). by rewrite Hv.
  - intros i b b' _ Hb. destruct (Z.eqb_spec status_wave 0) as [->|Hne].
    + apply bind_Some in Hb as (v & _ & Hw). exists v. split; [done|].
      intros ?; done.
    + exists 0. by split.
Qed.

End MiriPlanes.

Section MiriRegion.

Context (sh : float → float → float → float → list float → list float → float).
Context (start_region end_region overlap_partial overlap_full : Z).
Context (nx ny nz : Z) (cdelt1 cdelt2 roiw_ave : float).
Context (xc yc zc : list float) (cloud : list point).

Local Abbreviation plane :=
  (plane_miri sh start_region end_region overlap_partial overlap_full
     nx ny cdelt1 cdelt2 roiw_ave xc yc zc cloud).

(** The loop over the planes leaves zeros in the region of a plane on
    which the boundary finder reports 1 whatever corners it is passed. *)
Lemma planes_miri_region (w : Z) (s s' : list Z * list Z * corners) :
  0 ≤ w < nz →
  (∀ cs, corner_wave_plane_miri w start_region end_region roiw_ave zc cloud cs
         = Some (1, cs)) →
  for_range 0 nz plane s = Some s' →
  ∀ k, 0 ≤ k < nx * ny → s'.1.1 !! Z.to_nat (w * (nx * ny) + k) = Some 0.
Proof.
  intros Hw Hone Hrun k Hk.
  pose (P := λ (j : Z) (t : list Z * list Z * corners),
    w < j → 0 ≤ w * (nx * ny) + k
            ∧ t.1.1 !! Z.to_nat (w * (nx * ny) + k) = Some 0).
  enough (P nz s') as HP by (apply HP; lia).
  eapply (for_range_inv P _ 0); [lia| | |exact Hrun].
  - intros ?; lia.
  - intros j [[idqv dq] cs] [[idqv' dq'] cs'] Hj HP Hbody Hwj.
    apply plane_miri_spec in Hbody as (_ & Hfr & Hzero). cbn [fst] in *.
    destruct (decide (j = w)) as [->|Hne].
    + apply (Hzero (Hone cs)). lia.
    + destruct HP as [H0 Hz]; [lia|]. split; [done|].
      rewrite Hfr; [done|]. rewrite Z2Nat.id by done. intros Hin.
      apply Hne. symmetry.
      apply (region_disjoint (nx * ny) w j k
               (w * (nx * ny) + k - nx * ny * j)); lia.
Qed.

Lemma dq_miri_region (heap : nat → bool) (ncube : Z) (uninit : corners)
    (out : list Z) (w : Z) :
  0 ≤ w < nz →
  (∀ cs, corner_wave_plane_miri w start_region end_region roiw_ave zc cloud cs
         = Some (1, cs)) →
  dq_miri sh start_region end_region overlap_partial overlap_full nx ny nz
    cdelt1 cdelt2 roiw_ave xc yc zc cloud heap ncube uninit
    = Some (0, Some out) →
  ∀ k, 0 ≤ k < nx * ny → out !! Z.to_nat (w * (nx * ny) + k) = Some 0.
Proof.
  intros Hw Hone Hrun. unfold dq_miri, mem_alloc_dq in Hrun.
  destruct (heap 0%nat); [|done]. destruct (heap 1%nat); [|done].
  apply bind_Some in Hrun as ([[idqv dq] cs] & Hloop & Hret). simplify_eq.
  apply (planes_miri_region w _ _ Hw Hone Hloop).
Qed.

(** The status of [dq_miri]: 1 exactly when one of its two allocations
    fails, and then no output vector is returned; 0 otherwise. *)
Lemma dq_miri_status (heap : nat → bool) (ncube : Z) (uninit : corners)
    (status : Z) (out : option (list Z)) :
  dq_miri sh start_region end_region overlap_partial overlap_full nx ny nz
    cdelt1 cdelt2 roiw_ave xc yc zc cloud heap ncube uninit
    = Some (status, out) →
  (status = 1 ∧ out = None ∧ heap 0%nat && heap 1%nat = false)
  ∨ (status = 0 ∧ is_Some out ∧ heap 0%nat && heap 1%nat = true).
Proof.
  unfold dq_miri, mem_alloc_dq. intros Hrun.
  destruct (heap 0%nat); [|left; by simplify_eq].
  destruct (heap 1%nat); [|left; by simplify_eq].
  apply bind_Some in Hrun as ([[idqv dq] cs] & _ & Hret). simplify_eq.
  right. split_and!; [done|by eexists|done].
Qed.

End MiriRegion.

Lemma filter_none {A} (f : A → bool) (l : list A) :
  (∀ x, x ∈ l → f x = false) → List.filter f l = [].
Proof.
  induction l as [|x l IH]; intros Hall; [done|]. cbn [List.filter].
  rewrite (Hall x) by left. apply IH. intros y Hy. apply Hall. by right.
Qed.

Section NirspecRegion.

Context (overlap_partial : Z) (nx ny nz : Z).
Context (cdelt1 cdelt2 roiw_ave : float).
Context (xc yc zc : list float) (cloud : list point).

Local Abbreviation planes :=
  (planes_nirspec overlap_partial nx ny cdelt1 cdelt2 roiw_ave xc yc zc cloud).

(** What one plane does to the output pointer, read off the loop body. *)
Lemma planes_nirspec_step (heap : nat → bool) (n : nat) (w0 : Z)
    (idqv : option (list Z)) (r : Z * option (list Z)) :
  planes heap (S n) w0 idqv = Some r →
  ∃ zw t imatch,
    rd zc w0 = Some zw
    ∧ match_wave_plane_nirspec zw roiw_ave cloud = Some (t, imatch)
    ∧ (heap (S (Z.to_nat w0)) = false ∧ r = (1, None)
       ∨ heap (S (Z.to_nat w0)) = true
         ∧ ∃ (dq : list Z) (idqv' : option (list Z)),
             (idqv' = idqv
              ∨ 0 < imatch
                ∧ for_range (nx * ny * w0) (nx * ny * w0 + nx * ny)
                    (λ in_ idqv,
                       v ← rd dq (in_ - nx * ny * w0); wr_ptr idqv in_ v)
                    idqv = Some idqv')
             ∧ planes heap n (w0 + 1) idqv' = Some r).
Proof.
  cbn [planes_nirspec]. intros H.
  apply bind_Some in H as (zw & Hzw & H).
  apply bind_Some in H as ([t imatch] & Hm & H).
  exists zw, t, imatch. split_and!; [done..|].
  unfold mem_alloc_dq in H. destruct (heap (S (Z.to_nat w0))).
  2:{ left. by simplify_eq. }
  right. split; [done|].
  apply bind_Some in H as (dq0 & _ & H).
  apply bind_Some in H as ([slice_found dq] & _ & H).
  apply bind_Some in H as (idqv' & Hcopy & H).
  exists dq, idqv'. split; [|done].
  destruct (0 <? imatch) eqn:Hpos; cbn [andb] in Hcopy;
    [|left; by simplify_eq].
  destruct (slice_found =? 1); [|left; by simplify_eq].
  right. split; [lia|done].
Qed.

Lemma planes_nirspec_null (heap : nat → bool) (n : nat) (w0 : Z)
    (status : Z) (out : option (list Z)) :
  planes heap n w0 None = Some (status, out) → out = None.
Proof.
  revert w0. induction n as [|n IH]; intros w0 H.
  { cbn in H. by simplify_eq. }
  apply planes_nirspec_step in H
    as (zw & t & imatch & _ & _ & [[_ ?]|(_ & dq & idqv' & Hc & H)]).
  { by simplify_eq. }
  assert (idqv' = None) as ->; [|by eapply IH].
  destruct Hc as [->|[_ Hc]]; [done|].
  eapply for_range_null; [|exact Hc]. intros i. cbn.
  by destruct (rd dq _).
Qed.

(** A plane without a point on it leaves its region of the output vector
    as it was. *)
Lemma planes_nirspec_region (heap : nat → bool) (n : nat) (w0 : Z)
    (a out : list Z) (status : Z) (w : Z) (zw : float) (k : Z) :
  planes heap n w0 (Some a) = Some (status, Some out) →
  rd zc w = Some zw →
  (∀ p, p ∈ cloud → on_plane zw roiw_ave p = false) →
  0 ≤ k < nx * ny → 0 ≤ w * (nx * ny) + k →
  out !! Z.to_nat (w * (nx * ny) + k) = a !! Z.to_nat (w * (nx * ny) + k).
Proof.
  intros H Hzw Hnone Hk Hidx. revert w0 a H.
  induction n as [|n IH]; intros w0 a H.
  { cbn in H. by simplify_eq. }
  apply planes_nirspec_step in H
    as (zw0 & t & imatch & Hzw0 & Hm & [[_ ?]|(_ & dq & idqv' & Hc & H)]).
  { by simplify_eq. }
  destruct Hc as [->|[Hpos Hc]]; [by eapply IH|].
  apply (for_range_ptr_writes (λ _ _, True)) in Hc as (a' & -> & _ & Hfr & _).
  2:{ intros i b p _ Hb. apply bind_Some in Hb as (v & _ & Hw). eauto. }
  rewrite (IH _ _ H). apply Hfr. rewrite Z2Nat.id by done. intros Hin.
  assert (w = w0) as ->.
  { apply (region_disjoint (nx * ny) w w0 k
             (w * (nx * ny) + k - nx * ny * w0)); lia. }
  rewrite Hzw in Hzw0. simplify_eq.
  destruct (match_wave_plane_spec _ _ _ _ _ 0%nat ltac:(lia) Hm) as (Hii & _).
  rewrite (filter_none _ _ Hnone) in Hii. cbn in Hii. lia.
Qed.

Lemma dq_nirspec_region (heap : nat → bool) (ncube : Z) (out : list Z)
    (status : Z) (w : Z) (zw : float) (k : Z) :
  dq_nirspec overlap_partial nx ny nz cdelt1 cdelt2 roiw_ave xc yc zc cloud
    heap ncube = Some (status, Some out) →
  0 ≤ w < nz → nx * ny * nz ≤ ncube →
  rd zc w = Some zw →
  (∀ p, p ∈ cloud → on_plane zw roiw_ave p = false) →
  0 ≤ k < nx * ny →
  out !! Z.to_nat (w * (nx * ny) + k) = Some 0.
Proof.
  unfold dq_nirspec. intros H Hw Hcube Hzw Hnone Hk.
  apply bind_Some in H as (idqv & Hzero & H).
  assert (Hlo : 0 ≤ w * (nx * ny) + k) by nia.
  assert (Hhi : w * (nx * ny) + k < ncube) by nia.
  destruct (heap 0%nat).
  2:{ apply for_range_null in Hzero as ->; [|done].
      by apply planes_nirspec_null in H. }
  apply (for_range_ptr_writes (λ _ v, v = 0)) in Hzero
    as (a & -> & _ & _ & Hpost).
  2:{ intros i b p _ Hb. eauto. }
  rewrite (planes_nirspec_region _ _ _ _ _ _ _ _ _ H Hzw Hnone Hk Hlo).
  destruct (Hpost (w * (nx * ny) + k)) as (_ & v & -> & ->); [lia|done].
Qed.

End NirspecRegion.

Lemma existsb_none {A} (f : A → bool) (l : list A) :
  (∀ x, x ∈ l → f x = false) → existsb f l = false.
Proof.
  intros Hall. apply not_true_is_false. rewrite existsb_exists.
  intros (x & Hx%list_elem_of_In & Hf). rewrite Hall in Hf; done.
Qed.

(** C6: in the output of either orchestrator, the region
    [w*nx*ny .. (w+1)*nx*ny - 1] of a wavelength plane [w] with no
    qualifying point is all zero.  For [dq_miri] a point qualifies when it
    is within the region of interest of the plane and belongs to one of
    the two extreme slices; for [dq_nirspec], when it is within the region
    of interest of the plane, the output vector having room for the
    [nx*ny*nz] voxels of the cube. *)
Theorem empty_plane_is_zero (nx ny nz : Z) (cdelt1 cdelt2 roiw_ave : float)
    (xc yc zc : list float) (cloud : list point) (ncube w : Z) (zw : float) :
  0 ≤ w < nz →
  rd zc w = Some zw →
  (∀ sh start_region end_region overlap_partial overlap_full heap uninit out,
     (∀ p, p ∈ cloud → qualifies zw roiw_ave start_region p = false
                       ∧ qualifies zw roiw_ave end_region p = false) →
     dq_miri sh start_region end_region overlap_partial overlap_full
       nx ny nz cdelt1 cdelt2 roiw_ave xc yc zc cloud heap ncube uninit
       = Some (0, Some out) →
     ∀ k, 0 ≤ k < nx * ny → out !! Z.to_nat (w * nx * ny + k) = Some 0)
  ∧ (∀ overlap_partial heap out,
       (∀ p, p ∈ cloud → on_plane zw roiw_ave p = false) →
       nx * ny * nz ≤ ncube →
       dq_nirspec overlap_partial nx ny nz cdelt1 cdelt2 roiw_ave xc yc zc
         cloud heap ncube = Some (0, Some out) →
       ∀ k, 0 ≤ k < nx * ny → out !! Z.to_nat (w * nx * ny + k) = Some 0).
Proof.
  intros Hw Hzw. split.
  - intros sh start_region end_region overlap_partial overlap_full heap
      uninit out Hnone Hrun k Hk.
    replace (w * nx * ny + k) with (w * (nx * ny) + k) by ring.
    eapply dq_miri_region; [exact Hw| |exact Hrun|exact Hk].
    intros cs. apply (status_no_qualifying _ _ _ _ _ _ _ _ Hzw).
    left. apply existsb_none. intros p Hp. by apply Hnone.
  - intros overlap_partial heap out Hnone Hcube Hrun k Hk.
    replace (w * nx * ny + k) with (w * (nx * ny) + k) by ring.
    by eapply dq_nirspec_region.
Qed.

(** Two planes of 3 x 3 spaxels; the four points of the cloud are at
    wavelength 2, so plane 0 (wavelength 1, half-width 0.5) has none. *)
Lemma empty_plane_is_zero_witness :
  let cloud := [Point 0 0 2 1; Point 2 1 2 1; Point 0 2 2 2;
                Point 1 2 2 2]%float in
  ∃ out,
    dq_nirspec 4 3 3 2 1 1 0.5 [0; 1; 2]%float [0; 1; 2]%float [1; 2]%float
      cloud (λ _, true) 18 = Some (0, Some out)
    ∧ out !! 4%nat = Some 0.
Proof.
  intros cloud. eexists. split; [vm_compute; reflexivity|].
  refine (proj2 (empty_plane_is_zero 3 3 2 1 1 0.5 [0; 1; 2]%float
                   [0; 1; 2]%float [1; 2]%float cloud 18 0 1 _ _)
            4 (λ _, true) _ _ _ _ 4 _);
    [lia|reflexivity| |lia|vm_compute; reflexivity|lia].
  intros p Hp.
  repeat (apply elem_of_cons in Hp as [->|Hp]; [reflexivity|]).
  by apply elem_of_nil in Hp.
Defined.

Section NirspecStatus.

Context (overlap_partial : Z) (nx ny nz : Z).
Context (cdelt1 cdelt2 roiw_ave : float).
Context (xc yc zc : list float) (cloud : list point).

Local Abbreviation planes :=
  (planes_nirspec overlap_partial nx ny cdelt1 cdelt2 roiw_ave xc yc zc cloud).

(** The loop over the planes returns 1 exactly when the allocation of a
    scratch buffer fails, and 0 otherwise, whatever the finder found. *)
Lemma planes_nirspec_status (heap : nat → bool) (n : nat) (w0 : Z)
    (idqv : option (list Z)) (status : Z) (out : option (list Z)) :
  0 ≤ w0 →
  planes heap n w0 idqv = Some (status, out) →
  (status = 0 ∧ ∀ j, (j < n)%nat → heap (S (Z.to_nat w0 + j)) = true)
  ∨ (status = 1 ∧ out = None
     ∧ ∃ j, (j < n)%nat ∧ heap (S (Z.to_nat w0 + j)) = false).
Proof.
  revert w0 idqv. induction n as [|n IH]; intros w0 idqv Hw0 H.
  { cbn in H. simplify_eq. left. split; [done|]. intros; lia. }
  apply planes_nirspec_step in H
    as (zw & t & imatch & _ & _ & [[Hh ?]|(Hh & dq & idqv' & _ & H)]).
  { simplify_eq. right. split_and!; [done..|]. exists 0%nat.
    split; [lia|]. by rewrite Nat.add_0_r. }
  apply IH in H; [|lia].
  destruct H as [[-> Hall]|(-> & -> & j & Hj & Hf)].
  - left. split; [done|]. intros [|j] Hj.
    + by rewrite Nat.add_0_r.
    + specialize (Hall j ltac:(lia)).
      by replace (Z.to_nat w0 + S j)%nat with (Z.to_nat (w0 + 1) + j)%nat
        by lia.
  - right. split_and!; [done..|]. exists (S j). split; [lia|].
    by replace (Z.to_nat w0 + S j)%nat with (Z.to_nat (w0 + 1) + j)%nat
      by lia.
Qed.

Lemma dq_nirspec_status (heap : nat → bool) (ncube : Z) (status : Z)
    (out : option (list Z)) :
  dq_nirspec overlap_partial nx ny nz cdelt1 cdelt2 roiw_ave xc yc zc cloud
    heap ncube = Some (status, out) →
  (status = 0 ∧ ∀ j, (j < Z.to_nat nz)%nat → heap (S j) = true)
  ∨ (status = 1 ∧ out = None
     ∧ ∃ j, (j < Z.to_nat nz)%nat ∧ heap (S j) = false).
Proof.
  unfold dq_nirspec. intros H.
  apply bind_Some in H as (idqv & _ & H).
  by apply planes_nirspec_status in H.
Qed.

(** When the allocation of the output vector fails, the routine stores
    through the null pointer: it does not return at all. *)
Lemma dq_nirspec_null_output (heap : nat → bool) (ncube : Z) :
  heap 0%nat = false → 0 < ncube →
  dq_nirspec overlap_partial nx ny nz cdelt1 cdelt2 roiw_ave xc yc zc cloud
    heap ncube = None.
Proof.
  intros Hh Hn. unfold dq_nirspec, for_range. rewrite Hh.
  destruct (Z.to_nat (ncube - 0)) as [|m] eqn:E; [lia|]. reflexivity.
Qed.

End NirspecStatus.

(** C7 at the failing input: the allocation of the output vector fails
    (allocation 0 of the call) in a cube of 18 voxels.  [dq_miri] returns
    status 1; [dq_nirspec], which does not test that [calloc], stores
    through the null pointer and returns no status. *)
Theorem nirspec_allocation_unchecked :
  let cloud := [Point 0 0 2 1; Point 2 1 2 1; Point 0 2 2 2;
                Point 1 2 2 2]%float in
  let heap := λ k : nat, negb (k =? 0)%nat in
  let sh := λ (_ _ xl yl : float) (_ _ : list float), (xl * yl)%float in
  let uninit := Corners (0, 0)%float (0, 0)%float (0, 0)%float (0, 0)%float in
  dq_miri sh 1 2 4 8 3 3 2 1 1 0.5 [0; 1; 2]%float [0; 1; 2]%float
    [1; 2]%float cloud heap 18 uninit = Some (1, None)
  ∧ dq_nirspec 4 3 3 2 1 1 0.5 [0; 1; 2]%float [0; 1; 2]%float [1; 2]%float
      cloud heap 18 = None.
Proof. intros cloud heap sh uninit. split; vm_compute; reflexivity. Qed.

(** The bounding box of any four corners has [etamax = etamin]: both are
    started from [eta_corner[0]] and updated under the same test. *)
Lemma bbox_step_degenerate (xi_corner eta_corner : list float) (i : Z)
    (b b' : bbox) :
  bbox_step xi_corner eta_corner i b = Some b' →
  etamax b = etamin b → etamax b' = etamin b'.
Proof.
  unfold bbox_step. intros H E.
  apply bind_Some in H as (xi & _ & H).
  apply bind_Some in H as (eta & _ & H). simplify_eq. cbn. by rewrite E.
Qed.

Lemma bounding_box_degenerate (xi_corner eta_corner : list float) (b : bbox) :
  bounding_box xi_corner eta_corner = Some b → etamax b = etamin b.
Proof.
  unfold bounding_box. intros H.
  apply bind_Some in H as (xi0 & _ & H).
  apply bind_Some in H as (eta0 & _ & H).
  refine (for_range_inv (λ _ b, etamax b = etamin b) _ 1 4 _ b _ _ _ H);
    [lia|reflexivity|].
  intros j t t' _ Ht Hstep. by eapply bbox_step_degenerate.
Qed.

(** C1 at the failing input: the corners (0,0), (10,0), (10,10), (0,10)
    and a 4 x 4 grid of step 1 with centres 2, 4, 6, 8 on both axes.  Every
    cell lies strictly inside the square, and the overlap routine is taken
    to return the whole cell area.  The bounding box has [etamax = 0],
    the minimum of the [eta] corners; the test on [y1, y2] fails in every
    column (here column 1, whose cells have coverage 1), and no entry of
    the scratch buffer is set. *)
Theorem bounding_box_etamax :
  let sh := λ (_ _ xl yl : float) (_ _ : list float), (xl * yl)%float in
  let xi_corner := [0; 10; 10; 0]%float in
  let eta_corner := [0; 0; 10; 10]%float in
  let centers := [2; 4; 6; 8]%float in
  bounding_box xi_corner eta_corner = Some (BBox 0 10 0 0)
  ∧ overlap_fov_with_spaxels sh 1 2 1 1 4 4 centers centers
      xi_corner eta_corner (replicate 16 0) = Some (replicate 16 0)
  ∧ x_inside 1 centers (BBox 0 10 0 0) 1 = Some true
  ∧ y_inside 1 centers (BBox 0 10 0 0) 1 = Some false
  ∧ coverage sh 1 1 centers centers xi_corner eta_corner 1 1 = Some 1%float.
Proof. intros sh xi_corner eta_corner centers. split_and!; vm_compute; reflexivity. Qed.

(** C2 at the failing input: a steep segment given from the grid index
    (0,3) to (1,0), on an 8 x 8 grid.  The walk should mark one cell in
    each of the rows 0 to 3; the two swaps overwrite their operands, the
    walk runs over one index only and marks the single cell (0,0).  Given
    from (0,0) to (1,3) the segment marks the cells (0,0), (1,1), (2,2)
    and (3,3): one per row, the column being walked from the row index of
    the first endpoint. *)
Theorem steep_segment_swap :
  overlap_slice_with_spaxels 7 1 1 8 8 0 0 0 3 1 0 (replicate 64 0)
    = Some (<[0%nat := 7]> (replicate 64 0))
  ∧ overlap_slice_with_spaxels 7 1 1 8 8 0 0 0 0 1 3 (replicate 64 0)
    = Some (<[27%nat := 7]> (<[18%nat := 7]> (<[9%nat := 7]>
              (<[0%nat := 7]> (replicate 64 0))))).
Proof. split; vm_compute; reflexivity. Qed.

(** * Further properties *)

(** ** The line coverage rasterizer, in general *)

Section LineProps.

Context (overlap_partial : Z) (cdelt1 cdelt2 : float) (naxis1 naxis2 : Z).
Context (xstart ystart xi_min eta_min xi_max eta_max : float).

Local Abbreviation X1 := (to_int ((xi_min - xstart) / cdelt1)%float).
Local Abbreviation Y1 := (to_int ((eta_min - ystart) / cdelt2)%float).
Local Abbreviation X2 := (to_int ((xi_max - xstart) / cdelt1)%float).
Local Abbreviation Y2 := (to_int ((eta_max - ystart) / cdelt2)%float).
Local Abbreviation run :=
  (overlap_slice_with_spaxels overlap_partial cdelt1 cdelt2 naxis1 naxis2
     xstart ystart xi_min eta_min xi_max eta_max).

(** The walk that the routine runs, case by case. *)
Lemma run_flat_ordered (buf : list Z) :
  Z.abs (Y2 - Y1) ≤ Z.abs (X2 - X1) → X1 ≤ X2 →
  run buf
  = ('(_, _, dq) ← for_range X1 (X2 + 1)
                    (line_body overlap_partial naxis1 false (X2 - X1)
                       (Y2 - Y1) (if Y1 <? Y2 then 1 else -1))
                    (Y1, Z.quot (X2 - X1) 2, buf);
    Some dq).
Proof.
  intros Hflat Hord. unfold overlap_slice_with_spaxels.
  assert ((Z.abs (X2 - X1) <? Z.abs (Y2 - Y1)) = false) as -> by lia.
  assert ((X2 <? X1) = false) as -> by lia. reflexivity.
Qed.

Lemma run_flat_reversed (buf : list Z) :
  Z.abs (Y2 - Y1) ≤ Z.abs (X2 - X1) → X2 < X1 →
  run buf
  = ('(_, _, dq) ← for_range X2 (X2 + 1)
                    (line_body overlap_partial naxis1 false 0 0 (-1))
                    (Y2, 0, buf);
    Some dq).
Proof.
  intros Hflat Hord. unfold overlap_slice_with_spaxels.
  assert ((Z.abs (X2 - X1) <? Z.abs (Y2 - Y1)) = false) as -> by lia.
  assert ((X2 <? X1) = true) as -> by lia. cbv zeta.
  rewrite !Z.sub_diag, Z.ltb_irrefl. reflexivity.
Qed.

Lemma run_steep_up (buf : list Z) :
  Z.abs (X2 - X1) < Z.abs (Y2 - Y1) → Y1 ≤ Y2 →
  run buf
  = ('(_, _, dq) ← for_range Y1 (Y2 + 1)
                    (line_body overlap_partial naxis1 true (Y2 - Y1)
                       (Y2 - Y1) 1)
                    (Y1, Z.quot (Y2 - Y1) 2, buf);
    Some dq).
Proof.
  intros Hsteep Hord. unfold overlap_slice_with_spaxels.
  assert ((Z.abs (X2 - X1) <? Z.abs (Y2 - Y1)) = true) as -> by lia.
  cbv zeta. assert ((Y2 <? Y1) = false) as -> by lia.
  assert ((Y1 <? Y2) = true) as -> by lia. reflexivity.
Qed.

Lemma run_steep_down (buf : list Z) :
  Z.abs (X2 - X1) < Z.abs (Y2 - Y1) → Y2 < Y1 →
  run buf
  = ('(_, _, dq) ← for_range Y2 (Y2 + 1)
                    (line_body overlap_partial naxis1 true 0 0 (-1))
                    (Y2, 0, buf);
    Some dq).
Proof.
  intros Hsteep Hord. unfold overlap_slice_with_spaxels.
  assert ((Z.abs (X2 - X1) <? Z.abs (Y2 - Y1)) = true) as -> by lia.
  cbv zeta. assert ((Y2 <? Y1) = true) as -> by lia.
  rewrite !Z.sub_diag, Z.ltb_irrefl. reflexivity.
Qed.


Lemma line_body_spec (is_steep : bool) (dx dy ystep x y err : Z)
    (b : list Z) (s' : Z * Z * list Z) :
  line_body overlap_partial naxis1 is_steep dx dy ystep x (y, err, b)
    = Some s' →
  ∃ b', wr b ((if is_steep then x else y) * naxis1
              + (if is_steep then y else x)) overlap_partial = Some b'
        ∧ s' = if err - Z.abs dy <? 0
               then (y + ystep, err - Z.abs dy + dx, b')
               else (y, err - Z.abs dy, b').
Proof.
  unfold line_body. intros H. apply bind_Some in H as (b' & Hw & H).
  exists b'. split; [done|]. destruct (_ <? 0); by simplify_eq.
Qed.

(** A walk stores [overlap_partial] and nothing else. *)
Lemma line_loop_values (is_steep : bool) (dx dy ystep : Z) (n : nat)
    (x0 : Z) (s s' : Z * Z * list Z) :
  for_loop n x0 (line_body overlap_partial naxis1 is_steep dx dy ystep) s
    = Some s' →
  length s'.2 = length s.2
  ∧ ∀ k, s'.2 !! k = s.2 !! k ∨ s'.2 !! k = Some overlap_partial.
Proof.
  intros Hrun.
  refine (for_loop_inv
            (λ _ t, length t.2 = length s.2
                    ∧ ∀ k, t.2 !! k = s.2 !! k
                           ∨ t.2 !! k = Some overlap_partial)
            _ n x0 s s' _ _ Hrun).
  { split; [done|]. by left. }
  intros j [[y err] b] t' _ [Hlen Hval] Hbody.
  apply line_body_spec in Hbody as (b' & Hw & ->). cbn [snd] in *.
  assert (length b' = length s.2 ∧
          ∀ k, b' !! k = s.2 !! k ∨ b' !! k = Some overlap_partial) as Hgoal.
  { split; [by rewrite (wr_length _ _ _ _ Hw)|]. intros k.
    destruct (decide (k = Z.to_nat ((if is_steep then j else y) * naxis1
                                    + (if is_steep then y else j))))
      as [->|Hne].
    - right. by eapply wr_lookup_eq.
    - rewrite (wr_lookup_ne _ _ _ _ _ Hw Hne). apply Hval. }
  by destruct (_ <? 0).
Qed.

Lemma overlap_slice_values (buf buf' : list Z) :
  overlap_slice_with_spaxels overlap_partial cdelt1 cdelt2 naxis1 naxis2
    xstart ystart xi_min eta_min xi_max eta_max buf = Some buf' →
  length buf' = length buf
  ∧ ∀ k, buf' !! k = buf !! k ∨ buf' !! k = Some overlap_partial.
Proof.
  unfold overlap_slice_with_spaxels. intros H.
  destruct (_ <? _) in H; cbv zeta in H; destruct (_ <? _) in H;
    cbv zeta in H;
    apply bind_Some in H as ([[y err] b] & Hloop & [= <-]);
    apply line_loop_values in Hloop; exact Hloop.
Qed.

End LineProps.

(** X1: whatever the endpoints, the line rasterizer keeps the length of
    the scratch buffer, and an entry of the result is the entry it was or
    [overlap_partial]. *)
Theorem line_only_partial (overlap_partial : Z) (cdelt1 cdelt2 : float)
    (naxis1 naxis2 : Z) (xstart ystart xi_min eta_min xi_max eta_max : float)
    (wave_slice_dq dq' : list Z) :
  overlap_slice_with_spaxels overlap_partial cdelt1 cdelt2 naxis1 naxis2
    xstart ystart xi_min eta_min xi_max eta_max wave_slice_dq = Some dq' →
  length dq' = length wave_slice_dq
  ∧ ∀ k, dq' !! k = wave_slice_dq !! k ∨ dq' !! k = Some overlap_partial.
Proof. apply overlap_slice_values. Qed.

Lemma line_only_partial_witness :
  ∃ dq',
    overlap_slice_with_spaxels 4 1 1 8 8 0 0 0 0 5 2 (replicate 64 0)
      = Some dq'
    ∧ length dq' = 64%nat
    ∧ ∀ k, dq' !! k = replicate 64 0 !! k ∨ dq' !! k = Some 4.
Proof.
  eexists. split; [vm_compute; reflexivity|].
  apply (line_only_partial 4 1 1 8 8 0 0 0 0 5 2 (replicate 64 0)).
  vm_compute. reflexivity.
Defined.

Lemma for_range_one {St} (body : Z → St → option St) (a : Z) (s : St) :
  for_range a (a + 1) body s = body a s.
Proof.
  unfold for_range. replace (a + 1 - a) with 1 by lia.
  change (Z.to_nat 1) with 1%nat. cbn [for_loop].
  by destruct (body a s).
Qed.

(** X2: when the index the walk starts from exceeds the one it ends at,
    the line rasterizer makes a single store.  For a segment that is not
    steep with [x2 < x1] it is the cell [(x2, y2)] of the second endpoint;
    for a steep segment with [y2 < y1] it is the cell of column [y2] and
    row [y2]. *)
Theorem line_single_store (overlap_partial : Z) (cdelt1 cdelt2 : float)
    (naxis1 naxis2 : Z) (xstart ystart xi_min eta_min xi_max eta_max : float)
    (wave_slice_dq : list Z) :
  let x1 := to_int ((xi_min - xstart) / cdelt1)%float in
  let y1 := to_int ((eta_min - ystart) / cdelt2)%float in
  let x2 := to_int ((xi_max - xstart) / cdelt1)%float in
  let y2 := to_int ((eta_max - ystart) / cdelt2)%float in
  let run :=
    overlap_slice_with_spaxels overlap_partial cdelt1 cdelt2 naxis1 naxis2
      xstart ystart xi_min eta_min xi_max eta_max wave_slice_dq in
  (Z.abs (y2 - y1) ≤ Z.abs (x2 - x1) → x2 < x1 →
   run = wr wave_slice_dq (y2 * naxis1 + x2) overlap_partial)
  ∧ (Z.abs (x2 - x1) < Z.abs (y2 - y1) → y2 < y1 →
     run = wr wave_slice_dq (y2 * naxis1 + y2) overlap_partial).
Proof.
  cbv zeta. split; intros H1 H2.
  - rewrite run_flat_reversed, for_range_one by done.
    unfold line_body. by destruct (wr _ _ _).
  - rewrite run_steep_down, for_range_one by done.
    unfold line_body. by destruct (wr _ _ _).
Qed.

(** The segment from (5,2) to (0,0) of an 8 x 8 grid: only cell (0,0). *)
Lemma line_single_store_witness :
  overlap_slice_with_spaxels 4 1 1 8 8 0 0 5 2 0 0 (replicate 64 0)
  = wr (replicate 64 0) (0 * 8 + 0) 4.
Proof.
  apply (proj1 (line_single_store 4 1 1 8 8 0 0 5 2 0 0 (replicate 64 0)));
    vm_compute; congruence.
Defined.

(** X3: a steep segment given upward ([y1 <= y2]) is walked along the
    diagonal of the grid: the routine stores in the cells of column [r]
    and row [r] for [r] from [y1] to [y2], whatever the columns of the two
    endpoints, and in no other entry. *)
Theorem steep_marks_diagonal (overlap_partial : Z) (cdelt1 cdelt2 : float)
    (naxis1 naxis2 : Z) (xstart ystart xi_min eta_min xi_max eta_max : float)
    (wave_slice_dq dq' : list Z) :
  let x1 := to_int ((xi_min - xstart) / cdelt1)%float in
  let y1 := to_int ((eta_min - ystart) / cdelt2)%float in
  let x2 := to_int ((xi_max - xstart) / cdelt1)%float in
  let y2 := to_int ((eta_max - ystart) / cdelt2)%float in
  Z.abs (x2 - x1) < Z.abs (y2 - y1) → y1 ≤ y2 →
  overlap_slice_with_spaxels overlap_partial cdelt1 cdelt2 naxis1 naxis2
    xstart ystart xi_min eta_min xi_max eta_max wave_slice_dq = Some dq' →
  (∀ r, y1 ≤ r ≤ y2 →
        0 ≤ r * naxis1 + r
        ∧ dq' !! Z.to_nat (r * naxis1 + r) = Some overlap_partial)
  ∧ (∀ k : nat, (∀ r, y1 ≤ r ≤ y2 → Z.of_nat k ≠ r * naxis1 + r) →
                dq' !! k = wave_slice_dq !! k).
Proof.
  cbv zeta. intros Hsteep Hord Hrun.
  rewrite run_steep_up in Hrun by done.
  apply bind_Some in Hrun as ([[y err] b] & Hloop & [= <-]).
  set (Y1 := to_int ((eta_min - ystart) / cdelt2)%float) in *.
  set (Y2 := to_int ((eta_max - ystart) / cdelt2)%float) in *.
  set (h := Z.quot (Y2 - Y1) 2) in *.
  assert (Hh : 0 ≤ h < Y2 - Y1).
  { subst h. pose proof (Z.quot_pos (Y2 - Y1) 2).
    pose proof (Z.quot_lt (Y2 - Y1) 2). lia. }
  pose (P := λ (j : Z) (t : Z * Z * list Z),
    t.1.1 = j ∧ t.1.2 = h
    ∧ (∀ r, Y1 ≤ r < j →
            0 ≤ r * naxis1 + r
            ∧ t.2 !! Z.to_nat (r * naxis1 + r) = Some overlap_partial)
    ∧ (∀ k : nat, (∀ r, Y1 ≤ r < j → Z.of_nat k ≠ r * naxis1 + r) →
                  t.2 !! k = wave_slice_dq !! k)).
  assert (P (Y2 + 1) (y, err, b)) as (_ & _ & Hmark & Hframe).
  { eapply (for_range_inv P _ Y1); [lia| | |exact Hloop].
    - split_and!; [done..| |done]. intros; lia.
    - intros j [[yj ej] bj] t' Hj (Hy & He & Hm & Hf) Hbody.
      cbn [fst snd] in *. subst yj ej.
      apply line_body_spec in Hbody as (b' & Hw & ->).
      assert ((h - Z.abs (Y2 - Y1) <? 0) = true) as -> by lia.
      pose proof (wr_Some _ _ _ _ Hw) as [Hidx _].
      split_and!; cbn [fst snd]; [done|lia| |].
      + intros r Hr. destruct (decide (r = j)) as [->|Hne].
        * split; [lia|]. by eapply wr_lookup_eq.
        * destruct (Hm r ltac:(lia)) as [H0 Hl]. split; [done|].
          destruct (decide (Z.to_nat (r * naxis1 + r)
                            = Z.to_nat (j * naxis1 + j))) as [E|E].
          -- rewrite E. by eapply wr_lookup_eq.
          -- by rewrite (wr_lookup_ne _ _ _ _ _ Hw E).
      + intros k Hk. rewrite (wr_lookup_ne _ _ _ _ _ Hw).
        * apply Hf. intros r Hr. apply Hk. lia.
        * intros ->. apply (Hk j); lia. }
  split.
  - intros r Hr. apply Hmark. lia.
  - intros k Hk. apply Hframe. intros r Hr. apply Hk. lia.
Qed.

(** The segment from (0,0) to (1,3): cells (0,0), (1,1), (2,2), (3,3). *)
Lemma steep_marks_diagonal_witness :
  ∃ dq',
    overlap_slice_with_spaxels 4 1 1 8 8 0 0 0 0 1 3 (replicate 64 0)
      = Some dq'
    ∧ (∀ r, 0 ≤ r ≤ 3 →
            0 ≤ r * 8 + r ∧ dq' !! Z.to_nat (r * 8 + r) = Some 4)
    ∧ (∀ k : nat, (∀ r, 0 ≤ r ≤ 3 → Z.of_nat k ≠ r * 8 + r) →
                  dq' !! k = replicate 64 0 !! k).
Proof.
  eexists. split; [vm_compute; reflexivity|].
  apply (steep_marks_diagonal 4 1 1 8 8 0 0 0 0 1 3 (replicate 64 0));
    [vm_compute; congruence|vm_compute; congruence|vm_compute; reflexivity].
Defined.

(** ** The line walk of a segment that is not steep *)

(** The state of the walk in column [x1 + k] determines the row: with
    [t] steps of the secondary axis taken, [error] is
    [dx / 2 - k * |dy| + t * dx] and lies in [0, dx). *)
Lemma line_row_state (x1 y1 x2 y2 k t err : Z) :
  err = Z.quot (x2 - x1) 2 - k * Z.abs (y2 - y1) + t * (x2 - x1) →
  0 ≤ err → (0 < x2 - x1 → err < x2 - x1) → (x2 - x1 = 0 → t = 0) →
  0 ≤ x2 - x1 →
  line_row x1 y1 x2 y2 (x1 + k) = y1 + (if y1 <? y2 then 1 else -1) * t.
Proof.
  intros He H0 Hlt Hz Hd. unfold line_row. f_equal. f_equal.
  replace (x1 + k - x1) with k by lia.
  destruct (decide (x2 - x1 = 0)) as [E|E].
  { rewrite E, Z.div_0_r. symmetry. auto. }
  symmetry. apply (Z.div_unique_pos _ _ _ (x2 - x1 - 1 - err)); lia.
Qed.

Lemma quot2_bounds (d : Z) : 0 ≤ d → 0 ≤ Z.quot d 2 ∧ (0 < d → Z.quot d 2 < d).
Proof.
  intros Hd. split; [apply Z.quot_pos; lia|].
  intros Hpos. apply Z.quot_lt; lia.
Qed.

Section LineWalk.

Context (overlap_partial : Z) (naxis1 naxis2 : Z).
Context (x1 y1 x2 y2 : Z) (buf : list Z).
Context (Hflat : Z.abs (y2 - y1) ≤ x2 - x1).
Context (Hx1 : 0 ≤ x1) (Hx2 : x2 < naxis1).
Context (Hy1 : 0 ≤ y1 < naxis2) (Hy2 : 0 ≤ y2 < naxis2).
Context (Hbuf : naxis1 * naxis2 ≤ Z.of_nat (length buf)).

Local Abbreviation row := (line_row x1 y1 x2 y2).
Local Abbreviation ystep := (if y1 <? y2 then 1 else -1).
Local Abbreviation inv := (walk_inv overlap_partial naxis1 x1 y1 x2 y2 buf).
Local Abbreviation body :=
  (line_body overlap_partial naxis1 false (x2 - x1) (y2 - y1) ystep).

Lemma walk_inv_start : inv x1 (y1, Z.quot (x2 - x1) 2, buf).
Proof.
  destruct (quot2_bounds (x2 - x1)) as [? ?]; [lia|].
  split_and!; cbn [fst snd]; try (intros; lia); try done.
  exists 0. split_and!; cbn [fst snd]; (done || lia).
Qed.

Lemma walk_inv_step (j : Z) (s : Z * Z * list Z) :
  x1 ≤ j ≤ x2 → inv j s → ∃ s', body j s = Some s' ∧ inv (j + 1) s'.
Proof.
  intros Hj Hinv. destruct s as [[y err] b].
  destruct Hinv as ((t & Hy & He & He0 & Helt & Hez) & Hlen & Hmark & Hframe
                    & Hconn & Hprev). cbn [fst snd] in *.
  assert (Hrow : row j = y).
  { replace j with (x1 + (j - x1)) at 1 by lia. rewrite Hy.
    apply (line_row_state _ _ _ _ _ _ err); (done || lia). }
  destruct (quot2_bounds (x2 - x1)) as [Hh0 Hhlt]; [lia|].
  assert (Ht : 0 ≤ t ≤ Z.abs (y2 - y1)).
  { destruct (decide (x2 - x1 = 0)) as [E|E]; [rewrite (Hez E); lia|].
    split; [|assert (t < Z.abs (y2 - y1) + 1) by nia; lia].
    assert (-1 < t) by nia. lia. }
  assert (Hyr : Z.min y1 y2 ≤ y ≤ Z.max y1 y2).
  { rewrite Hy. destruct (Z.ltb_spec y1 y2); lia. }
  assert (Hidx : 0 ≤ y * naxis1 + j < Z.of_nat (length b)).
  { rewrite Hlen. split; [nia|].
    assert (y * naxis1 + j < naxis1 * naxis2) by nia. lia. }
  unfold line_body. rewrite (wr_is_Some b _ overlap_partial Hidx).
  cbn [mbind option_bind].
  set (b' := <[Z.to_nat (y * naxis1 + j) := overlap_partial]> b).
  assert (Hb'len : length b' = length buf)
    by (subst b'; by rewrite length_insert).
  assert (Hb'mark : ∀ x, x1 ≤ x < j + 1 →
            Z.min y1 y2 ≤ row x ≤ Z.max y1 y2
            ∧ b' !! Z.to_nat (row x * naxis1 + x) = Some overlap_partial).
  { intros x Hx. destruct (decide (x = j)) as [->|Hne].
    - rewrite Hrow. split; [done|]. subst b'.
      apply list_lookup_insert_eq. lia.
    - destruct (Hmark x ltac:(lia)) as [Hr Hl]. split; [done|]. subst b'.
      destruct (decide (Z.to_nat (row x * naxis1 + x)
                        = Z.to_nat (y * naxis1 + j))) as [E|E].
      + rewrite E. apply list_lookup_insert_eq. lia.
      + by rewrite list_lookup_insert_ne. }
  assert (Hb'frame : ∀ k : nat,
            (∀ x, x1 ≤ x < j + 1 → k ≠ Z.to_nat (row x * naxis1 + x)) →
            b' !! k = buf !! k).
  { intros k Hk. subst b'. rewrite list_lookup_insert_ne.
    - apply Hframe. intros x Hx. apply Hk. lia.
    - rewrite <- Hrow. intros E. by apply (Hk j ltac:(lia)). }
  assert (Hb'conn : ∀ x, x1 ≤ x → x + 1 < j + 1 →
            row (x + 1) = row x ∨ row (x + 1) = row x + ystep).
  { intros x Hx Hx'. destruct (decide (x + 1 = j)) as [E|E].
    - rewrite E, Hrow. replace x with (j - 1) by lia. apply Hprev. lia.
    - apply Hconn; lia. }
  destruct (Z.ltb_spec (err - Z.abs (y2 - y1)) 0) as [Hneg|Hpos];
    eexists; (split; [reflexivity|]); split_and!; cbn [fst snd];
    try done.
  - exists (t + 1). split_and!; cbn [fst snd]; first [lia|intros; lia].
  - intros _. right. replace (j + 1 - 1) with j by lia. by rewrite Hrow.
  - exists t. split_and!; cbn [fst snd]; first [lia|done|intros; lia].
  - intros _. left. replace (j + 1 - 1) with j by lia. by rewrite Hrow.
Qed.

Lemma walk_total :
  ∃ s', for_range x1 (x2 + 1) body (y1, Z.quot (x2 - x1) 2, buf) = Some s'
        ∧ inv (x2 + 1) s'.
Proof.
  unfold for_range.
  destruct (for_loop_total inv body (Z.to_nat (x2 + 1 - x1)) x1
              (y1, Z.quot (x2 - x1) 2, buf) walk_inv_start)
    as (s' & Hrun & Hinv).
  { intros j s Hj. apply walk_inv_step. lia. }
  exists s'. split; [done|].
  by replace (x1 + Z.of_nat (Z.to_nat (x2 + 1 - x1))) with (x2 + 1) in Hinv
    by lia.
Qed.

End LineWalk.

(** X4: a segment that is not steep and is given left to right, with both
    endpoint cells on the grid and a scratch buffer that holds the grid.
    The line rasterizer returns; it marks the cell of each endpoint and,
    in every column from [x1] to [x2], exactly the cell of row
    [line_row x], which lies between the rows of the endpoints and differs
    from the row of the next column by at most one; every other entry of
    the buffer is as it was. *)
Theorem line_walk (overlap_partial : Z) (cdelt1 cdelt2 : float)
    (naxis1 naxis2 : Z) (xstart ystart xi_min eta_min xi_max eta_max : float)
    (wave_slice_dq : list Z) :
  let x1 := to_int ((xi_min - xstart) / cdelt1)%float in
  let y1 := to_int ((eta_min - ystart) / cdelt2)%float in
  let x2 := to_int ((xi_max - xstart) / cdelt1)%float in
  let y2 := to_int ((eta_max - ystart) / cdelt2)%float in
  let row := line_row x1 y1 x2 y2 in
  Z.abs (y2 - y1) ≤ x2 - x1 →
  0 ≤ x1 → x2 < naxis1 → 0 ≤ y1 < naxis2 → 0 ≤ y2 < naxis2 →
  naxis1 * naxis2 ≤ Z.of_nat (length wave_slice_dq) →
  ∃ dq',
    overlap_slice_with_spaxels overlap_partial cdelt1 cdelt2 naxis1 naxis2
      xstart ystart xi_min eta_min xi_max eta_max wave_slice_dq = Some dq'
    ∧ length dq' = length wave_slice_dq
    ∧ row x1 = y1 ∧ row x2 = y2
    ∧ (∀ x, x1 ≤ x ≤ x2 →
            Z.min y1 y2 ≤ row x ≤ Z.max y1 y2
            ∧ dq' !! Z.to_nat (row x * naxis1 + x) = Some overlap_partial)
    ∧ (∀ x, x1 ≤ x < x2 → Z.abs (row (x + 1) - row x) ≤ 1)
    ∧ (∀ k : nat,
         (∀ x, x1 ≤ x ≤ x2 → k ≠ Z.to_nat (row x * naxis1 + x)) →
         dq' !! k = wave_slice_dq !! k).
Proof.
  intros x1 y1 x2 y2 row Hflat Hx1 Hx2 Hy1 Hy2 Hbuf.
  destruct (walk_total overlap_partial naxis1 naxis2 x1 y1 x2 y2
              wave_slice_dq Hflat Hx1 Hx2 Hy1 Hy2 Hbuf)
    as ([[y err] dq'] & Hrun & (_ & Hlen & Hmark & Hframe & Hconn & _)).
  cbn [fst snd] in *. exists dq'.
  destruct (quot2_bounds (x2 - x1)) as [Hh0 Hhlt]; [lia|].
  split_and!.
  - subst x1 y1 x2 y2. rewrite run_flat_ordered by lia.
    rewrite Hrun. reflexivity.
  - done.
  - pose proof (line_row_state x1 y1 x2 y2 0 0 (Z.quot (x2 - x1) 2)) as H.
    replace (x1 + 0) with x1 in H by lia. subst row. rewrite H; lia.
  - pose proof (line_row_state x1 y1 x2 y2 (x2 - x1) (Z.abs (y2 - y1))
                  (Z.quot (x2 - x1) 2)) as H.
    replace (x1 + (x2 - x1)) with x2 in H by lia.
    subst row. rewrite H by lia. destruct (Z.ltb_spec y1 y2); lia.
  - intros x Hx. apply Hmark. lia.
  - intros x Hx. destruct (Hconn x) as [E|E]; [lia..| |];
      fold row in E; rewrite E; [lia|]. destruct (y1 <? y2); lia.
  - intros k Hk. apply Hframe. intros x Hx. apply Hk. lia.
Qed.

(** The segment from (0,0) to (5,2) of an 8 x 8 grid marks the cells
    (0,0), (1,0), (2,1), (3,1), (4,2), (5,2). *)
Lemma line_walk_witness :
  ∃ dq',
    overlap_slice_with_spaxels 4 1 1 8 8 0 0 0 0 5 2 (replicate 64 0)
      = Some dq'
    ∧ dq' !! 10%nat = Some 4 ∧ dq' !! 21%nat = Some 4.
Proof.
  destruct (line_walk 4 1 1 8 8 0 0 0 0 5 2 (replicate 64 0))
    as (dq' & Hrun & _ & _ & _ & Hmark & _ & _);
    try (vm_compute; congruence); try (split; vm_compute; congruence).
  exists dq'. split; [exact Hrun|]. split.
  - exact (proj2 (Hmark 2 ltac:(vm_compute; split; congruence))).
  - exact (proj2 (Hmark 5 ltac:(vm_compute; split; congruence))).
Defined.

(** ** The polygon coverage rasterizer, in general *)

(** A loop fails as soon as one of its iterations cannot succeed. *)
Lemma for_loop_fails {St} (body : Z → St → option St) (n : nat) (i j : Z)
    (s : St) :
  i ≤ j < i + Z.of_nat n → (∀ t, body j t = None) →
  for_loop n i body s = None.
Proof.
  revert i s. induction n as [|n IH]; intros i s Hj Hfail; [lia|].
  cbn [for_loop]. destruct (decide (i = j)) as [->|Hne].
  { by rewrite Hfail. }
  destruct (body i s) as [s'|]; [|done]. cbn. apply IH; [lia|done].
Qed.

Section FovProps.

Context (sh : float → float → float → float → list float → list float → float).
Context (opar ofull : Z) (cd1 cd2 : float) (n1 n2 : Z).
Context (xcs ycs xi eta : list float).

Local Abbreviation spaxel := (spaxel_body sh opar ofull cd1 cd2 n1 xcs ycs xi eta).
Local Abbreviation column := (column_body sh opar ofull cd1 cd2 n1 n2 xcs ycs xi eta).

Lemma spaxel_body_values (b : bbox) (ix iy : Z) (buf buf' : list Z) :
  spaxel b ix iy buf = Some buf' →
  length buf' = length buf
  ∧ ∀ k, buf' !! k = buf !! k ∨ buf' !! k = Some opar
         ∨ buf' !! k = Some ofull.
Proof.
  unfold spaxel_body. intros H.
  apply bind_Some in H as ([] & _ & H); [|by simplify_eq; auto].
  apply bind_Some in H as (f & _ & H).
  destruct (f >? tolerance_dq_overlap)%float; [|by simplify_eq; auto].
  destruct (f >? full_coverage)%float;
    (split; [by eapply wr_length|]); intros k;
    (destruct (decide (k = Z.to_nat (iy * n1 + ix))) as [->|Hne];
     [rewrite (wr_lookup_eq _ _ _ _ H); auto
     |rewrite (wr_lookup_ne _ _ _ _ _ H Hne); auto]).
Qed.

Lemma column_body_values (b : bbox) (ix : Z) (buf buf' : list Z) :
  column b ix buf = Some buf' →
  length buf' = length buf
  ∧ ∀ k, buf' !! k = buf !! k ∨ buf' !! k = Some opar
         ∨ buf' !! k = Some ofull.
Proof.
  unfold column_body. intros H.
  apply bind_Some in H as ([] & _ & H); [|by simplify_eq; auto].
  unfold for_range in H.
  refine (for_loop_inv
            (λ _ t, length t = length buf
                    ∧ ∀ k, t !! k = buf !! k ∨ t !! k = Some opar
                           ∨ t !! k = Some ofull)
            _ _ 0 buf buf' _ _ H); [by auto|].
  intros j t t' _ [Hlen Hval] Hbody.
  apply spaxel_body_values in Hbody as [Hlen' Hval'].
  split; [congruence|]. intros k.
  destruct (Hval' k) as [->|[->| ->]]; auto.
Qed.

Lemma overlap_fov_values (buf buf' : list Z) :
  overlap_fov_with_spaxels sh opar ofull cd1 cd2 n1 n2 xcs ycs xi eta buf
    = Some buf' →
  length buf' = length buf
  ∧ ∀ k, buf' !! k = buf !! k ∨ buf' !! k = Some opar
         ∨ buf' !! k = Some ofull.
Proof.
  unfold overlap_fov_with_spaxels. intros H.
  apply bind_Some in H as (b & _ & H). unfold for_range in H.
  refine (for_loop_inv
            (λ _ t, length t = length buf
                    ∧ ∀ k, t !! k = buf !! k ∨ t !! k = Some opar
                           ∨ t !! k = Some ofull)
            _ _ 0 buf buf' _ _ H); [by auto|].
  intros j t t' _ [Hlen Hval] Hbody.
  apply column_body_values in Hbody as [Hlen' Hval'].
  split; [congruence|]. intros k.
  destruct (Hval' k) as [->|[->| ->]]; auto.
Qed.

End FovProps.

(** X5: the polygon rasterizer keeps the length of the scratch buffer, and
    an entry of the result is the entry it was, [overlap_partial] or
    [overlap_full]. *)
Theorem fov_only_flags
    (sh : float → float → float → float → list float → list float → float)
    (overlap_partial overlap_full : Z) (cdelt1 cdelt2 : float)
    (naxis1 naxis2 : Z) (xcenters ycenters xi_corner eta_corner : list float)
    (wave_slice_dq dq' : list Z) :
  overlap_fov_with_spaxels sh overlap_partial overlap_full cdelt1 cdelt2
    naxis1 naxis2 xcenters ycenters xi_corner eta_corner wave_slice_dq
    = Some dq' →
  length dq' = length wave_slice_dq
  ∧ ∀ k, dq' !! k = wave_slice_dq !! k ∨ dq' !! k = Some overlap_partial
         ∨ dq' !! k = Some overlap_full.
Proof. apply overlap_fov_values. Qed.

Lemma fov_only_flags_witness :
  let sh := λ (_ _ xl yl : float) (_ _ : list float), (xl * yl)%float in
  ∃ dq',
    overlap_fov_with_spaxels sh 1 2 1 (-1) 4 4 [2; 4; 6; 8]%float
      [2; 4; 6; 8]%float [0; 10; 10; 0]%float [3; 3; 10; 10]%float
      (replicate 16 0) = Some dq'
    ∧ length dq' = 16%nat
    ∧ ∀ k, dq' !! k = replicate 16 0 !! k ∨ dq' !! k = Some 1
           ∨ dq' !! k = Some 2.
Proof.
  intros sh. eexists. split; [vm_compute; reflexivity|].
  apply (fov_only_flags sh 1 2 1 (-1) 4 4 [2; 4; 6; 8]%float
           [2; 4; 6; 8]%float [0; 10; 10; 0]%float [3; 3; 10; 10]%float
           (replicate 16 0)).
  vm_compute. reflexivity.
Defined.

(** The running minimum of a list: it is the start value or an element
    strictly below it, and neither the start value nor an element is
    strictly below it.  Likewise for the running maximum. *)
Lemma fold_fmin_spec (cs : list float) (m : float) :
  let F := foldl fmin m cs in
  (F = m ∨ F ∈ cs ∧ (F <? m)%float = true)
  ∧ (m <? F)%float = false
  ∧ (∀ c, c ∈ cs → (c <? F)%float = false).
Proof.
  cbv zeta. revert m. induction cs as [|c cs IH]; intros m.
  { split_and!; [by left|apply ltb_irrefl|]. by intros c ?%elem_of_nil. }
  cbn [foldl]. destruct (IH (fmin m c)) as (Ha & Hb & Hc).
  destruct (c <? m)%float eqn:E.
  - replace (fmin m c) with c in * by (unfold fmin; by rewrite E).
    assert (Hlt : (foldl fmin c cs <? m)%float = true).
    { destruct Ha as [->|[_ Hlt]]; [done|]. by eapply ltb_trans. }
    split_and!.
    + right. split; [|done]. destruct Ha as [->|[Hin _]]; [left|by right].
    + by apply ltb_asym.
    + intros c' [->|Hin]%elem_of_cons; [done|by apply Hc].
  - replace (fmin m c) with m in * by (unfold fmin; by rewrite E).
    split_and!.
    + destruct Ha as [->|[Hin Hlt]]; [by left|]. right. split; [by right|done].
    + done.
    + intros c' [->|Hin]%elem_of_cons; [|by apply Hc].
      destruct Ha as [->|[_ Hlt]]; [done|].
      apply not_true_is_false. intros Hc'.
      pose proof (ltb_trans _ _ _ Hc' Hlt). congruence.
Qed.

Lemma fold_fmax_spec (cs : list float) (m : float) :
  let F := foldl fmax m cs in
  (F = m ∨ F ∈ cs ∧ (F >? m)%float = true)
  ∧ (m >? F)%float = false
  ∧ (∀ c, c ∈ cs → (c >? F)%float = false).
Proof.
  cbv zeta. revert m. induction cs as [|c cs IH]; intros m.
  { split_and!; [by left|apply ltb_irrefl|]. by intros c ?%elem_of_nil. }
  cbn [foldl]. destruct (IH (fmax m c)) as (Ha & Hb & Hc).
  unfold gtb in Ha, Hb, Hc |- *.
  destruct (m <? c)%float eqn:E.
  - replace (fmax m c) with c in * by (unfold fmax, gtb; by rewrite E).
    assert (Hlt : (m <? foldl fmax c cs)%float = true).
    { destruct Ha as [->|[_ Hlt]]; [done|]. by eapply ltb_trans. }
    split_and!.
    + right. split; [|done]. destruct Ha as [->|[Hin _]]; [left|by right].
    + by apply ltb_asym.
    + intros c' [->|Hin]%elem_of_cons; [done|by apply Hc].
  - replace (fmax m c) with m in * by (unfold fmax, gtb; by rewrite E).
    split_and!.
    + destruct Ha as [->|[Hin Hlt]]; [by left|]. right. split; [by right|done].
    + done.
    + intros c' [->|Hin]%elem_of_cons; [|by apply Hc].
      destruct Ha as [->|[_ Hlt]]; [done|].
      apply not_true_is_false. intros Hc'.
      pose proof (ltb_trans _ _ _ Hlt Hc'). congruence.
Qed.

(** The bounding box as running extrema of the four corners. *)
Lemma bounding_box_folds (xi_corner eta_corner : list float) (b : bbox) :
  bounding_box xi_corner eta_corner = Some b →
  ∃ x0 x1 x2 x3 e0 e1 e2 e3,
    xi_corner !! 0%nat = Some x0 ∧ xi_corner !! 1%nat = Some x1
    ∧ xi_corner !! 2%nat = Some x2 ∧ xi_corner !! 3%nat = Some x3
    ∧ eta_corner !! 0%nat = Some e0 ∧ eta_corner !! 1%nat = Some e1
    ∧ eta_corner !! 2%nat = Some e2 ∧ eta_corner !! 3%nat = Some e3
    ∧ b = BBox (foldl fmin x0 [x1; x2; x3]) (foldl fmax x0 [x1; x2; x3])
               (foldl fmin e0 [e1; e2; e3]) (foldl fmin e0 [e1; e2; e3]).
Proof.
  unfold bounding_box. intros H.
  apply bind_Some in H as (x0 & Hx0 & H).
  apply bind_Some in H as (e0 & He0 & H).
  unfold for_range in H. change (Z.to_nat (4 - 1)) with 3%nat in H.
  cbn [for_loop] in H.
  apply bind_Some in H as (b1 & H1 & H).
  apply bind_Some in H as (b2 & H2 & H).
  apply bind_Some in H as (b3 & H3 & [= <-]).
  unfold bbox_step in H1, H2, H3.
  apply bind_Some in H1 as (x1 & Hx1 & H1).
  apply bind_Some in H1 as (e1 & He1 & [= <-]).
  apply bind_Some in H2 as (x2 & Hx2 & H2).
  apply bind_Some in H2 as (e2 & He2 & [= <-]).
  apply bind_Some in H3 as (x3 & Hx3 & H3).
  apply bind_Some in H3 as (e3 & He3 & [= <-]).
  exists x0, x1, x2, x3, e0, e1, e2, e3.
  split_and!; try done.
Qed.

(** X6: the bounding box of the polygon rasterizer.  [ximin], [ximax] and
    [etamin] are corner coordinates, and no corner is strictly below
    [ximin], strictly above [ximax] or strictly below [etamin]; [etamax]
    is not the maximum of the [eta] corners: it always equals [etamin]. *)
Theorem bounding_box_extrema (xi_corner eta_corner : list float) (b : bbox) :
  bounding_box xi_corner eta_corner = Some b →
  (∃ i, (i < 4)%nat ∧ xi_corner !! i = Some (ximin b))
  ∧ (∃ i, (i < 4)%nat ∧ xi_corner !! i = Some (ximax b))
  ∧ (∃ i, (i < 4)%nat ∧ eta_corner !! i = Some (etamin b))
  ∧ (∀ i v, (i < 4)%nat → xi_corner !! i = Some v →
            (v <? ximin b)%float = false ∧ (v >? ximax b)%float = false)
  ∧ (∀ i v, (i < 4)%nat → eta_corner !! i = Some v →
            (v <? etamin b)%float = false)
  ∧ etamax b = etamin b.
Proof.
  intros H.
  apply bounding_box_folds in H
    as (x0 & x1 & x2 & x3 & e0 & e1 & e2 & e3 & Hx0 & Hx1 & Hx2 & Hx3
        & He0 & He1 & He2 & He3 & ->).
  cbn [ximin ximax etamin etamax].
  destruct (fold_fmin_spec [x1; x2; x3] x0) as (Ha1 & Hb1 & Hc1).
  destruct (fold_fmax_spec [x1; x2; x3] x0) as (Ha2 & Hb2 & Hc2).
  destruct (fold_fmin_spec [e1; e2; e3] e0) as (Ha3 & Hb3 & Hc3).
  assert (Hattained : ∀ (l : list float) a0 a1 a2 a3 F,
            l !! 0%nat = Some a0 → l !! 1%nat = Some a1 →
            l !! 2%nat = Some a2 → l !! 3%nat = Some a3 →
            F = a0 ∨ F ∈ [a1; a2; a3] →
            ∃ i, (i < 4)%nat ∧ l !! i = Some F).
  { intros l a0 a1 a2 a3 F L0 L1 L2 L3 [->|Hin].
    - exists 0%nat. split; [lia|done].
    - apply elem_of_cons in Hin as [->|Hin]; [exists 1%nat; split; [lia|done]|].
      apply elem_of_cons in Hin as [->|Hin]; [exists 2%nat; split; [lia|done]|].
      apply list_elem_of_singleton in Hin as ->.
      exists 3%nat. split; [lia|done]. }
  assert (Hall : ∀ (l : list float) a0 a1 a2 a3 (i : nat) v,
            l !! 0%nat = Some a0 → l !! 1%nat = Some a1 →
            l !! 2%nat = Some a2 → l !! 3%nat = Some a3 →
            (i < 4)%nat → l !! i = Some v → v = a0 ∨ v ∈ [a1; a2; a3]).
  { intros l a0 a1 a2 a3 i v L0 L1 L2 L3 Hi Hv.
    destruct i as [|[|[|[|i]]]]; [| | | |lia]; simplify_eq;
      [by left|right..].
    - left.
    - right; left.
    - right; right; left. }
  split_and!.
  - eapply Hattained; [done..|]. destruct Ha1 as [?|[? _]]; auto.
  - eapply Hattained; [done..|]. destruct Ha2 as [?|[? _]]; auto.
  - eapply Hattained; [done..|]. destruct Ha3 as [?|[? _]]; auto.
  - intros i v Hi Hv.
    destruct (Hall _ _ _ _ _ _ _ Hx0 Hx1 Hx2 Hx3 Hi Hv) as [->|Hin]; auto.
  - intros i v Hi Hv.
    destruct (Hall _ _ _ _ _ _ _ He0 He1 He2 He3 Hi Hv) as [->|Hin]; auto.
  - done.
Qed.

Lemma bounding_box_extrema_witness :
  ∃ b, bounding_box [0; 10; 10; 0]%float [0; 0; 10; 10]%float = Some b
       ∧ etamax b = etamin b.
Proof.
  eexists. split; [vm_compute; reflexivity|].
  apply (bounding_box_extrema [0; 10; 10; 0]%float [0; 0; 10; 10]%float).
  vm_compute. reflexivity.
Defined.

Lemma bounding_box_returns (xi_corner eta_corner : list float) :
  (4 ≤ length xi_corner)%nat → (4 ≤ length eta_corner)%nat →
  ∃ b, bounding_box xi_corner eta_corner = Some b.
Proof.
  intros Hxi Heta. unfold bounding_box.
  destruct (rd_is_Some xi_corner 0) as [x0 ->]; [lia|].
  destruct (rd_is_Some eta_corner 0) as [e0 ->]; [lia|].
  cbn [mbind option_bind]. unfold for_range.
  destruct (for_loop_total (λ _ _, True) (bbox_step xi_corner eta_corner)
              (Z.to_nat (4 - 1)) 1 (BBox x0 x0 e0 e0) I)
    as (b & Hb & _); [|by exists b].
  intros j t Hj _. unfold bbox_step.
  destruct (rd_is_Some xi_corner j) as [x ->]; [lia|].
  destruct (rd_is_Some eta_corner j) as [e ->]; [lia|].
  cbn. eauto.
Qed.

(** X7: the polygon rasterizer returns when the corner arrays have their
    four entries, the scratch buffer holds the [naxis1 * naxis2] cells,
    [xcenters] has [naxis1] entries and [ycenters] has both [naxis2] and
    [naxis1] entries: the test on [y1, y2] reads [ycenters] at the column
    index. *)
Theorem fov_returns
    (sh : float → float → float → float → list float → list float → float)
    (overlap_partial overlap_full : Z) (cdelt1 cdelt2 : float)
    (naxis1 naxis2 : Z) (xcenters ycenters xi_corner eta_corner : list float)
    (wave_slice_dq : list Z) :
  (4 ≤ length xi_corner)%nat → (4 ≤ length eta_corner)%nat →
  naxis1 ≤ Z.of_nat (length xcenters) →
  naxis1 ≤ Z.of_nat (length ycenters) →
  naxis2 ≤ Z.of_nat (length ycenters) →
  naxis1 * naxis2 ≤ Z.of_nat (length wave_slice_dq) →
  ∃ dq',
    overlap_fov_with_spaxels sh overlap_partial overlap_full cdelt1 cdelt2
      naxis1 naxis2 xcenters ycenters xi_corner eta_corner wave_slice_dq
    = Some dq'.
Proof.
  intros Hxi Heta Hxc Hyc1 Hyc2 Hbuf. unfold overlap_fov_with_spaxels.
  destruct (bounding_box_returns _ _ Hxi Heta) as [b ->].
  cbn [mbind option_bind]. unfold for_range.
  pose (P := λ (_ : Z) (t : list Z), length t = length wave_slice_dq).
  destruct (for_loop_total P
              (column_body sh overlap_partial overlap_full cdelt1 cdelt2
                 naxis1 naxis2 xcenters ycenters xi_corner eta_corner b)
              (Z.to_nat (naxis1 - 0)) 0 wave_slice_dq eq_refl)
    as (dq' & Hrun & _); [|by exists dq'].
  intros ix t Hix Ht. unfold column_body, x_inside.
  destruct (rd_is_Some xcenters ix) as [xc Hxcr]; [lia|]. rewrite Hxcr.
  cbn [mbind option_bind]. destruct (_ && _); [|by exists t].
  unfold for_range.
  destruct (for_loop_total P
              (spaxel_body sh overlap_partial overlap_full cdelt1 cdelt2
                 naxis1 xcenters ycenters xi_corner eta_corner b ix)
              (Z.to_nat (naxis2 - 0)) 0 t Ht)
    as (t' & Hrun' & Ht'); [|by exists t'].
  intros iy u Hiy Hu. unfold spaxel_body, y_inside, coverage.
  destruct (rd_is_Some ycenters ix) as [yc Hycr]; [lia|]. rewrite Hycr.
  cbn [mbind option_bind]. destruct (_ && _); [|by exists u].
  rewrite Hxcr. destruct (rd_is_Some ycenters iy) as [yc' ->]; [lia|].
  cbn [mbind option_bind].
  assert (Hidx : 0 ≤ iy * naxis1 + ix < Z.of_nat (length u)).
  { unfold P in Hu. rewrite Hu. split; [nia|].
    assert (iy * naxis1 + ix < naxis1 * naxis2) by nia. lia. }
  destruct (_ >? _)%float; [|by exists u].
  destruct (_ >? _)%float; rewrite wr_is_Some by done;
    (eexists; split; [done|]); unfold P; by rewrite length_insert.
Qed.

Lemma fov_returns_witness :
  let sh := λ (_ _ xl yl : float) (_ _ : list float), (xl * yl)%float in
  ∃ dq',
    overlap_fov_with_spaxels sh 1 2 1 1 4 4 [2; 4; 6; 8]%float
      [2; 4; 6; 8]%float [0; 10; 10; 0]%float [0; 0; 10; 10]%float
      (replicate 16 0) = Some dq'.
Proof.
  intros sh.
  apply (fov_returns sh 1 2 1 1 4 4 [2; 4; 6; 8]%float [2; 4; 6; 8]%float
           [0; 10; 10; 0]%float [0; 0; 10; 10]%float (replicate 16 0));
    cbn; lia.
Defined.

(** X8: a grid with more columns than [ycenters] has entries.  When a
    column at or beyond the length of [ycenters] passes the test on
    [x1, x2] and the grid has a row, the rasterizer reads [ycenters]
    outside its bounds: the behaviour is undefined. *)
Theorem fov_reads_ycenters_by_column
    (sh : float → float → float → float → list float → list float → float)
    (overlap_partial overlap_full : Z) (cdelt1 cdelt2 : float)
    (naxis1 naxis2 : Z) (xcenters ycenters xi_corner eta_corner : list float)
    (wave_slice_dq : list Z) (b : bbox) (ix : Z) :
  bounding_box xi_corner eta_corner = Some b →
  0 ≤ ix < naxis1 → 0 < naxis2 →
  Z.of_nat (length ycenters) ≤ ix →
  x_inside cdelt1 xcenters b ix = Some true →
  overlap_fov_with_spaxels sh overlap_partial overlap_full cdelt1 cdelt2
    naxis1 naxis2 xcenters ycenters xi_corner eta_corner wave_slice_dq
  = None.
Proof.
  intros Hb Hix Hn2 Hlen Hx. unfold overlap_fov_with_spaxels.
  rewrite Hb. cbn [mbind option_bind]. unfold for_range.
  apply (for_loop_fails _ _ 0 ix); [lia|].
  intros t. unfold column_body. rewrite Hx. cbn [mbind option_bind].
  unfold for_range. apply (for_loop_fails _ _ 0 0); [lia|].
  intros u. unfold spaxel_body, y_inside.
  assert (rd ycenters ix = None) as ->; [|done].
  unfold rd. case_bool_decide; [|done]. apply lookup_ge_None. lia.
Qed.

(** Four columns, three rows: column 3 passes the test on [x1, x2]. *)
Lemma fov_reads_ycenters_by_column_witness :
  let sh := λ (_ _ xl yl : float) (_ _ : list float), (xl * yl)%float in
  overlap_fov_with_spaxels sh 1 2 1 1 4 3 [2; 4; 6; 8]%float
    [2; 4; 6]%float [0; 10; 10; 0]%float [0; 0; 10; 10]%float
    (replicate 12 0) = None.
Proof.
  intros sh.
  apply (fov_reads_ycenters_by_column sh 1 2 1 1 4 3 [2; 4; 6; 8]%float
           [2; 4; 6]%float [0; 10; 10; 0]%float [0; 0; 10; 10]%float
           (replicate 12 0) (BBox 0 10 0 0) 3);
    first [reflexivity | cbn; lia].
Defined.

(** ** The slice extent finder of Instrument B, in general *)

Lemma lower_length (a a' : list float) (i : Z) (c : float) :
  lower a i c = Some a' → length a' = length a.
Proof.
  unfold lower. intros H. apply bind_Some in H as (m & _ & H).
  destruct (c <? m)%float; [by eapply wr_length|by simplify_eq].
Qed.

Lemma raise_length (a a' : list float) (i : Z) (c : float) :
  raise a i c = Some a' → length a' = length a.
Proof.
  unfold raise. intros H. apply bind_Some in H as (m & _ & H).
  destruct (c >? m)%float; [by eapply wr_length|by simplify_eq].
Qed.

Lemma match_point_table_ok (wave_plane roiw_ave : float) (p : point)
    (t t' : slice_table) (ii ii' : Z) :
  match_point wave_plane roiw_ave p (t, ii) = Some (t', ii') →
  table_ok t → table_ok t'.
Proof.
  unfold match_point. intros H (L1 & L2 & L3 & L4 & L5).
  destruct (_ <? _)%float; [|by simplify_eq].
  apply bind_Some in H as (a1 & H1%lower_length & H).
  apply bind_Some in H as (a2 & H2%lower_length & H).
  apply bind_Some in H as (a3 & H3%raise_length & H).
  apply bind_Some in H as (a4 & H4%raise_length & H).
  simplify_eq. split_and!; cbn; congruence.
Qed.

Lemma match_point_off_plane (wave_plane roiw_ave : float) (p : point)
    (s : slice_table * Z) :
  on_plane wave_plane roiw_ave p = false →
  match_point wave_plane roiw_ave p s = Some s.
Proof.
  unfold match_point, on_plane. destruct s as [t ii]. by intros ->.
Qed.

Lemma match_point_out_of_range (wave_plane roiw_ave : float) (p : point)
    (t : slice_table) (ii : Z) :
  table_ok t → on_plane wave_plane roiw_ave p = true →
  ¬ (1 ≤ to_int (sliceno p) ≤ 30) →
  match_point wave_plane roiw_ave p (t, ii) = None.
Proof.
  unfold match_point, on_plane. intros (L1 & _) -> Hout.
  assert (rd (c1_min t) (to_int (sliceno p) - 1) = None) as Hrd.
  { unfold rd. case_bool_decide; [|done]. apply lookup_ge_None. lia. }
  unfold lower. by rewrite Hrd.
Qed.

(** X9: the extent finder ignores the points that are not on the plane:
    it returns what it returns on the points of the cloud that are within
    the region of interest alone, and the count it returns is the number
    of those points. *)
Theorem match_ignores_off_plane (wave_plane roiw_ave : float)
    (cloud : list point) :
  match_wave_plane_nirspec wave_plane roiw_ave cloud
  = match_wave_plane_nirspec wave_plane roiw_ave
      (List.filter (on_plane wave_plane roiw_ave) cloud)
  ∧ ∀ t ii,
      match_wave_plane_nirspec wave_plane roiw_ave cloud = Some (t, ii) →
      ii = Z.of_nat
             (length (List.filter (on_plane wave_plane roiw_ave) cloud)).
Proof.
  split.
  - unfold match_wave_plane_nirspec. f_equal.
    generalize (table_init, 0). induction cloud as [|p rest IH]; intros s;
      [done|].
    cbn [match_cloud List.filter].
    destruct (on_plane wave_plane roiw_ave p) eqn:E.
    + cbn [match_cloud]. destruct (match_point _ _ p s); [|done]. apply IH.
    + rewrite match_point_off_plane by done. apply IH.
  - intros t ii Hrun.
    by destruct (match_wave_plane_spec _ _ _ _ _ 0%nat ltac:(lia) Hrun).
Qed.

(** X10: a point on the plane whose slice number does not convert to one
    of 1 .. 30 makes the extent finder index its tables outside their 30
    entries: the behaviour is undefined. *)
Theorem match_slice_out_of_range (wave_plane roiw_ave : float)
    (cloud : list point) (p : point) :
  p ∈ cloud → on_plane wave_plane roiw_ave p = true →
  ¬ (1 ≤ to_int (sliceno p) ≤ 30) →
  match_wave_plane_nirspec wave_plane roiw_ave cloud = None.
Proof.
  intros Hin Hon Hout. unfold match_wave_plane_nirspec.
  assert (Hcloud : ∀ t ii, table_ok t →
            match_cloud wave_plane roiw_ave cloud (t, ii) = None);
    [|rewrite Hcloud; [done|by split_and!]].
  induction cloud as [|q rest IH]; intros t ii Hok.
  { by apply elem_of_nil in Hin. }
  cbn [match_cloud]. apply elem_of_cons in Hin as [<-|Hin].
  { by rewrite match_point_out_of_range. }
  destruct (match_point wave_plane roiw_ave q (t, ii)) as [[t' ii']|] eqn:E;
    [|done].
  cbn [mbind option_bind]. apply IH; [done|].
  by eapply match_point_table_ok.
Qed.

Lemma match_slice_out_of_range_witness :
  match_wave_plane_nirspec 5 1 [Point 0 0 5 1; Point 1 1 5 31]%float = None.
Proof.
  apply (match_slice_out_of_range 5 1 _ (Point 1 1 5 31)).
  - right. left.
  - reflexivity.
  - vm_compute. intros [_ H]. by apply H.
Defined.

(** X11: the extents the finder returns bound the qualifying points of a
    slice: no qualifying point has a [coord1] strictly below [c1_min] or
    strictly above [c1_max], nor a [coord2] strictly below [c2_min] or
    strictly above [c2_max]; and each of the four is the sentinel it was
    set to or the coordinate of a qualifying point. *)
Theorem match_extents_bound (wave_plane roiw_ave : float)
    (cloud : list point) (t : slice_table) (ii : Z) (k : nat) :
  match_wave_plane_nirspec wave_plane roiw_ave cloud = Some (t, ii) →
  (k < 30)%nat →
  let pts := slice_points wave_plane roiw_ave (Z.of_nat k) cloud in
  ∃ m1 m2 x1 x2,
    c1_min t !! k = Some m1 ∧ c2_min t !! k = Some m2
    ∧ c1_max t !! k = Some x1 ∧ c2_max t !! k = Some x2
    ∧ (∀ p, p ∈ pts →
            (coord1 p <? m1)%float = false ∧ (coord1 p >? x1)%float = false
            ∧ (coord2 p <? m2)%float = false
            ∧ (coord2 p >? x2)%float = false)
    ∧ (m1 = minvalue ∨ ∃ p, p ∈ pts ∧ m1 = coord1 p)
    ∧ (m2 = minvalue ∨ ∃ p, p ∈ pts ∧ m2 = coord2 p)
    ∧ (x1 = maxvalue ∨ ∃ p, p ∈ pts ∧ x1 = coord1 p)
    ∧ (x2 = maxvalue ∨ ∃ p, p ∈ pts ∧ x2 = coord2 p).
Proof.
  intros Hrun Hk pts.
  destruct (match_wave_plane_spec _ _ _ _ _ _ Hk Hrun)
    as (_ & Ha & Hb & Hc & Hd & _). fold pts in Ha, Hb, Hc, Hd.
  eexists _, _, _, _. split_and!; [done..| | | | |].
  - intros p Hp.
    destruct (fold_fmin_spec (coord1 <$> pts) minvalue) as (_ & _ & H1).
    destruct (fold_fmin_spec (coord2 <$> pts) minvalue) as (_ & _ & H2).
    destruct (fold_fmax_spec (coord1 <$> pts) maxvalue) as (_ & _ & H3).
    destruct (fold_fmax_spec (coord2 <$> pts) maxvalue) as (_ & _ & H4).
    split_and!; [apply H1|apply H3|apply H2|apply H4];
      apply list_elem_of_fmap; eauto.
  - destruct (fold_fmin_spec (coord1 <$> pts) minvalue)
      as ([E|[(p & E & Hp)%list_elem_of_fmap _]] & _); eauto.
  - destruct (fold_fmin_spec (coord2 <$> pts) minvalue)
      as ([E|[(p & E & Hp)%list_elem_of_fmap _]] & _); eauto.
  - destruct (fold_fmax_spec (coord1 <$> pts) maxvalue)
      as ([E|[(p & E & Hp)%list_elem_of_fmap _]] & _); eauto.
  - destruct (fold_fmax_spec (coord2 <$> pts) maxvalue)
      as ([E|[(p & E & Hp)%list_elem_of_fmap _]] & _); eauto.
Qed.

Lemma match_extents_bound_witness :
  let cloud := [Point 0 0 5 1; Point 3 1 5 1; Point 7 7 5 3]%float in
  ∃ t ii,
    match_wave_plane_nirspec 5 1 cloud = Some (t, ii)
    ∧ ∃ m1 x1, c1_min t !! 0%nat = Some m1 ∧ c1_max t !! 0%nat = Some x1
               ∧ ∀ p, p ∈ slice_points 5 1 0 cloud →
                      (coord1 p <? m1)%float = false
                      ∧ (coord1 p >? x1)%float = false.
Proof.
  intros cloud. eexists _, _. split; [vm_compute; reflexivity|].
  destruct (match_extents_bound 5 1 cloud _ _ 0%nat
              ltac:(vm_compute; reflexivity) ltac:(lia))
    as (m1 & m2 & x1 & x2 & H1 & _ & H3 & _ & Hall & _).
  exists m1, x1. split_and!; [exact H1|exact H3|].
  intros p Hp. destruct (Hall p Hp) as (? & ? & _). by split.
Defined.

Lemma match_ignores_off_plane_witness :
  ∃ t, match_wave_plane_nirspec 5 1
         [Point 0 0 5 1; Point 3 1 9 1; Point 7 7 5 3]%float = Some (t, 2).
Proof.
  destruct (match_wave_plane_nirspec 5 1
              [Point 0 0 5 1; Point 3 1 9 1; Point 7 7 5 3]%float)
    as [[t ii]|] eqn:E; [|by vm_compute in E].
  exists t. f_equal. f_equal.
  exact (proj2 (match_ignores_off_plane 5 1 _) t ii E).
Defined.

(** ** The boundary finder of Instrument A, in general *)

Section CornerSafety.

Context (zw roiw_ave : float) (cloud : list point).

Local Abbreviation pts region := (tracked_points zw roiw_ave region 0 cloud).

Lemma corner_at_min (axis : point → float) (v0 : float) (region : Z) :
  index (foldl (min_along axis) (Extremum v0 (-1)) (pts region)) ≠ -1 →
  is_Some (corner_at cloud
             (index (foldl (min_along axis) (Extremum v0 (-1)) (pts region)))).
Proof.
  destruct (min_along_spec axis (pts region) (Extremum v0 (-1)))
    as [[E|(ip & Hip & E & _)] _]; rewrite E; [done|].
  intros _. cbn [index].
  destruct (tracked_points_index _ _ _ _ _ Hip) as (_ & Hrd & _).
  unfold corner_at. rewrite Hrd. by eexists.
Qed.

Lemma corner_at_max (axis : point → float) (v0 : float) (region : Z) :
  index (foldl (max_along axis) (Extremum v0 (-1)) (pts region)) ≠ -1 →
  is_Some (corner_at cloud
             (index (foldl (max_along axis) (Extremum v0 (-1)) (pts region)))).
Proof.
  destruct (max_along_spec axis (pts region) (Extremum v0 (-1)))
    as [[E|(ip & Hip & E & _)] _]; rewrite E; [done|].
  intros _. cbn [index].
  destruct (tracked_points_index _ _ _ _ _ Hip) as (_ & Hrd & _).
  unfold corner_at. rewrite Hrd. by eexists.
Qed.

Lemma corner_at_unset (i : Z) : i = -1 → corner_at cloud i = None.
Proof.
  intros ->. unfold corner_at, rd. by case_bool_decide; [lia|].
Qed.

(** Where a [coord1] extremum of a slice was found and the [coord2] of
    its tracked points are strictly between the sentinels, both [coord2]
    extrema were found. *)
Lemma coord2_found (region : Z) :
  (∀ p, In p cloud → tracked zw roiw_ave region p = true →
        (c2f p <? 10000)%float = true ∧ (c2f p >? -10000)%float = true) →
  index (foldl (min_along c1f) (Extremum 10000 (-1)) (pts region)) ≠ -1 →
  index (foldl (min_along c2f) (Extremum 10000 (-1)) (pts region)) ≠ -1
  ∧ index (foldl (max_along c2f) (Extremum (-10000) (-1)) (pts region)) ≠ -1.
Proof.
  intros Hrange Hfound.
  apply found_below, existsb_exists in Hfound
    as (p & Hin & [Ht _]%andb_true_iff).
  destruct (Hrange p Hin Ht) as [Hlo Hhi].
  split; [apply found_below|apply found_above]; apply existsb_exists;
    exists p; (split; [done|]); by apply andb_true_iff.
Qed.

End CornerSafety.

(** X12: for a channel of one slice ([start_region = end_region]) the
    boundary of a plane is degenerate: when the finder succeeds, corner4
    is corner1 and corner3 is corner2. *)
Theorem single_slice_channel (w region : Z) (roiw_ave : float)
    (zc : list float) (cloud : list point) (out cs : corners) :
  corner_wave_plane_miri w region region roiw_ave zc cloud out
    = Some (0, cs) →
  corner4 cs = corner1 cs ∧ corner3 cs = corner2 cs.
Proof.
  intros Hrun.
  assert (∃ zw, rd zc w = Some zw) as [zw Hzw].
  { unfold corner_wave_plane_miri in Hrun. destruct cloud; [done|].
    apply bind_Some in Hrun as (st & Hst & _).
    apply bind_Some in Hst as (zw & Hzw & _). eauto. }
  rewrite (corner_wave_plane_miri_eq _ _ _ _ _ _ _ _ Hzw) in Hrun.
  unfold set_corners in Hrun.
  destruct (_ || _) in Hrun; [done|].
  pose proof (final_fields region region roiw_ave cloud zw) as Hf.
  injection Hf as E1 E2 E3 E4 E5 E6 E7 E8.
  rewrite <- E1 in E5. rewrite <- E2 in E6. rewrite <- E3 in E7.
  rewrite <- E4 in E8. rewrite E5, E6, E7, E8 in Hrun.
  destruct (_ =? 0) in Hrun;
    apply bind_Some in Hrun as (k1 & K1 & Hrun);
    apply bind_Some in Hrun as (k2 & K2 & Hrun);
    apply bind_Some in Hrun as (k3 & K3 & Hrun);
    apply bind_Some in Hrun as (k4 & K4 & Hrun); simplify_eq; cbn;
    split; congruence.
Qed.

Lemma single_slice_channel_witness :
  let cs := Corners (0, 0)%float (3, 1)%float (3, 1)%float (0, 0)%float in
  corner4 cs = corner1 cs ∧ corner3 cs = corner2 cs.
Proof.
  intros cs.
  apply (single_slice_channel 0 1 1 [5%float]
           [Point 0 0 5 1; Point 3 1 5 1]%float
           (Corners (7, 7)%float (7, 7)%float (7, 7)%float (7, 7)%float) cs).
  vm_compute. reflexivity.
Defined.

(** X13: the boundary finder reads its arrays within their bounds when
    the [coord2] of the tracked points of the two extreme slices, as
    [float]s, are strictly between the sentinels -10000 and 10000: it
    returns, whatever the plane holds. *)
Theorem corner_finder_returns (w start_region end_region : Z)
    (roiw_ave : float) (zc : list float) (cloud : list point)
    (out : corners) (zw : float) :
  rd zc w = Some zw →
  (∀ p, In p cloud →
        tracked zw roiw_ave start_region p = true
        ∨ tracked zw roiw_ave end_region p = true →
        (c2f p <? 10000)%float = true ∧ (c2f p >? -10000)%float = true) →
  is_Some
    (corner_wave_plane_miri w start_region end_region roiw_ave zc cloud out).
Proof.
  intros Hzw Hrange.
  rewrite (corner_wave_plane_miri_eq _ _ _ _ _ _ _ _ Hzw).
  unfold set_corners.
  destruct (_ || _) eqn:T; [by eexists|].
  apply orb_false_iff in T as [T T4]. apply orb_false_iff in T as [T T3].
  apply orb_false_iff in T as [T1 T2].
  apply Z.eqb_neq in T1, T2, T3, T4.
  pose proof (final_fields start_region end_region roiw_ave cloud zw) as Hf.
  injection Hf as E1 E2 E3 E4 E5 E6 E7 E8.
  rewrite E1 in T1. rewrite E2 in T2. rewrite E5 in T3. rewrite E6 in T4.
  rewrite E1, E2, E3, E4, E5, E6, E7, E8.
  destruct (coord2_found zw roiw_ave cloud start_region) as [S1 S2];
    [by auto|done|].
  destruct (coord2_found zw roiw_ave cloud end_region) as [S3 S4];
    [by auto|done|].
  apply corner_at_min in T1 as [? ->], T3 as [? ->], S1 as [? ->],
    S3 as [? ->].
  apply corner_at_max in T2 as [? ->], T4 as [? ->], S2 as [? ->],
    S4 as [? ->].
  destruct (_ =? 0); by eexists.
Qed.

Lemma corner_finder_returns_witness :
  is_Some
    (corner_wave_plane_miri 0 1 2 1 [5%float]
       [Point 0 0 5 1; Point 3 1 5 1; Point 0 10 5 2; Point 4 11 5 2]%float
       (Corners (7, 7)%float (7, 7)%float (7, 7)%float (7, 7)%float)).
Proof.
  apply (corner_finder_returns 0 1 2 1 [5%float] _ _ 5);
    [vm_compute; reflexivity|].
  intros p Hin _.
  repeat (destruct Hin as [<-|Hin]; [vm_compute; by split|]).
  destruct Hin.
Defined.

(** X14: the finder tests the four [coord1] indices only.  When both
    extents along [coord1] were found and [coord2] is the long axis, but
    one of the four [coord2] searches recorded no point (no tracked point
    of that slice has its [coord2] on the right side of the sentinel), the
    corner is read at index -1: the behaviour is undefined. *)
Theorem corner_finder_reads_unset_index (w start_region end_region : Z)
    (roiw_ave : float) (zc : list float) (cloud : list point)
    (out : corners) (zw : float) :
  rd zc w = Some zw →
  extent_found zw roiw_ave start_region cloud
  && extent_found zw roiw_ave end_region cloud = true →
  (span c1f (List.filter (tracked zw roiw_ave start_region) cloud)
   <? span c2f (List.filter (tracked zw roiw_ave start_region) cloud))%float
  = true →
  existsb (λ p, tracked zw roiw_ave start_region p && (c2f p <? 10000)%float)
    cloud = false
  ∨ existsb (λ p, tracked zw roiw_ave start_region p
                  && (c2f p >? -10000)%float) cloud = false
  ∨ existsb (λ p, tracked zw roiw_ave end_region p && (c2f p <? 10000)%float)
      cloud = false
  ∨ existsb (λ p, tracked zw roiw_ave end_region p
                  && (c2f p >? -10000)%float) cloud = false →
  corner_wave_plane_miri w start_region end_region roiw_ave zc cloud out
  = None.
Proof.
  intros Hzw Hfound Hspan Hunset.
  rewrite (corner_wave_plane_miri_eq _ _ _ _ _ _ _ _ Hzw).
  unfold set_corners.
  rewrite status_test, Hfound. cbn [negb].
  pose proof (final_fields start_region end_region roiw_ave cloud zw) as Hf.
  injection Hf as E1 E2 E3 E4 E5 E6 E7 E8.
  rewrite E1, E2, E3, E4, E5, E6, E7, E8. rewrite !span_eq, Hspan.
  cbn [Z.eqb].
  pose proof (found_below zw roiw_ave c2f 10000 start_region cloud) as F1.
  pose proof (found_above zw roiw_ave c2f (-10000) start_region cloud) as F2.
  pose proof (found_above zw roiw_ave c2f (-10000) end_region cloud) as F3.
  pose proof (found_below zw roiw_ave c2f 10000 end_region cloud) as F4.
  assert (∀ i b, (i ≠ -1 ↔ b = true) → b = false → i = -1) as Hdec.
  { intros i b Hiff ->. destruct (decide (i = -1)); [done|].
    by apply Hiff in n. }
  destruct Hunset as [H|[H|[H|H]]].
  - by rewrite (corner_at_unset _ _ (Hdec _ _ F1 H)).
  - rewrite (corner_at_unset _ _ (Hdec _ _ F2 H)).
    repeat destruct (corner_at _ _); reflexivity.
  - rewrite (corner_at_unset _ _ (Hdec _ _ F4 H)).
    repeat destruct (corner_at _ _); reflexivity.
  - rewrite (corner_at_unset _ _ (Hdec _ _ F3 H)).
    repeat destruct (corner_at _ _); reflexivity.
Qed.

Lemma corner_finder_reads_unset_index_witness :
  corner_wave_plane_miri 0 1 2 1 [5%float]
    [Point 0 10000 5 1; Point 1 20000 5 1; Point 0 10 5 2;
     Point 4 11 5 2]%float
    (Corners (7, 7)%float (7, 7)%float (7, 7)%float (7, 7)%float) = None.
Proof.
  apply (corner_finder_reads_unset_index 0 1 2 1 [5%float] _ _ 5);
    [vm_compute; reflexivity..|].
  left. vm_compute. reflexivity.
Defined.

(** ** The orchestrator of Instrument A, in general *)

Lemma zero_fill_written (n : Z) (a a' : list Z) :
  zero_fill n a = Some a' → written (λ _ v, v = 0) 0 n a a'.
Proof.
  unfold zero_fill. apply for_range_writes.
  intros i b b' _ Hb. exists 0. by split.
Qed.

(** Zeroing a buffer of [n] entries gives [n] zeros. *)
Lemma zero_fill_spec (n : Z) (a a' : list Z) :
  zero_fill n a = Some a' → length a = Z.to_nat n →
  a' = replicate (Z.to_nat n) 0.
Proof.
  intros (Hlen & _ & Hpost)%zero_fill_written Hn.
  apply list_eq. intros k.
  destruct (decide (k < Z.to_nat n)%nat) as [Hk|Hk].
  - rewrite lookup_replicate_2 by done.
    destruct (Hpost (Z.of_nat k)) as (_ & v & Hv & ->); [lia|].
    by rewrite Nat2Z.id in Hv.
  - rewrite !lookup_ge_None_2; [done| |].
    + rewrite length_replicate. lia.
    + lia.
Qed.

(** With status 0 the boundary finder returns corners that do not depend
    on the content of the corner arrays it is passed. *)
Lemma corner_status_zero (w start_region end_region : Z) (roiw_ave : float)
    (zc : list float) (cloud : list point) (out out' cs : corners) :
  corner_wave_plane_miri w start_region end_region roiw_ave zc cloud out
    = Some (0, cs) →
  corner_wave_plane_miri w start_region end_region roiw_ave zc cloud out'
    = Some (0, cs).
Proof.
  unfold corner_wave_plane_miri. intros H.
  apply bind_Some in H as (st & Hst & H). rewrite Hst.
  cbn [mbind option_bind]. unfold set_corners in *.
  by destruct (_ || _).
Qed.

Section MiriCoverage.

Context (sh : float → float → float → float → list float → list float → float).
Context (start_region end_region overlap_partial overlap_full : Z).
Context (nx ny nz : Z) (cdelt1 cdelt2 roiw_ave : float).
Context (xc yc zc : list float) (cloud : list point).

Local Abbreviation plane :=
  (plane_miri sh start_region end_region overlap_partial overlap_full
     nx ny cdelt1 cdelt2 roiw_ave xc yc zc cloud).
Local Abbreviation fov cs :=
  (overlap_fov_with_spaxels sh overlap_partial overlap_full cdelt1 cdelt2
     nx ny xc yc
     [(corner1 cs).1; (corner2 cs).1; (corner3 cs).1; (corner4 cs).1]
     [(corner1 cs).2; (corner2 cs).2; (corner3 cs).2; (corner4 cs).2]).
Local Abbreviation flag v :=
  (v = 0 ∨ v = overlap_partial ∨ v = overlap_full).

(** The steps of one plane: the scratch buffer is zeroed, the boundary is
    looked for, the polygon is rasterized if it was found, and the
    scratch buffer (or zeros) is stored in the region of the plane. *)
Lemma plane_miri_steps (w : Z) (idqv idqv' dq dq' : list Z)
    (cs0 cs' : corners) :
  plane w (idqv, dq, cs0) = Some (idqv', dq', cs') →
  ∃ dq0 status,
    zero_fill (nx * ny) dq = Some dq0
    ∧ corner_wave_plane_miri w start_region end_region roiw_ave zc cloud cs0
      = Some (status, cs')
    ∧ (if status =? 0 then fov cs' dq0 else Some dq0) = Some dq'
    ∧ written (λ i v, if status =? 0 then rd dq' (i - nx * ny * w) = Some v
                      else v = 0)
        (nx * ny * w) (nx * ny * w + nx * ny) idqv idqv'.
Proof.
  unfold plane_miri. intros H.
  apply bind_Some in H as (dq0 & Hz & H).
  apply bind_Some in H as ([status cs1] & Hfind & H).
  apply bind_Some in H as (dq1 & Hfov & H).
  apply bind_Some in H as (idqv1 & Hcopy & H). simplify_eq.
  exists dq0, status. split_and!; [done..|].
  eapply for_range_writes; [|exact Hcopy].
  intros i b b' _ Hb. cbv beta zeta in Hb. destruct (status =? 0).
  - apply bind_Some in Hb as (v & Hv & Hw). by exists v.
  - by exists 0.
Qed.

Lemma plane_miri_scratch (w : Z) (idqv idqv' dq dq' : list Z)
    (cs0 cs' : corners) :
  plane w (idqv, dq, cs0) = Some (idqv', dq', cs') →
  length dq = Z.to_nat (nx * ny) → length dq' = Z.to_nat (nx * ny).
Proof.
  intros (dq0 & status & Hz & _ & Hfov & _)%plane_miri_steps Hlen.
  apply zero_fill_spec in Hz as ->; [|done].
  destruct (status =? 0).
  - apply overlap_fov_values in Hfov as [-> _]. apply length_replicate.
  - simplify_eq. apply length_replicate.
Qed.

(** The region of a plane whose boundary was found holds the coverage of
    the polygon on a zeroed scratch buffer. *)
Lemma plane_miri_copy (w : Z) (idqv idqv' dq dq' : list Z)
    (cs0 cs' cs : corners) :
  plane w (idqv, dq, cs0) = Some (idqv', dq', cs') →
  length dq = Z.to_nat (nx * ny) →
  corner_wave_plane_miri w start_region end_region roiw_ave zc cloud cs0
    = Some (0, cs) →
  fov cs (replicate (Z.to_nat (nx * ny)) 0) = Some dq'
  ∧ ∀ k, 0 ≤ k < nx * ny →
         0 ≤ w * (nx * ny) + k
         ∧ idqv' !! Z.to_nat (w * (nx * ny) + k) = dq' !! Z.to_nat k.
Proof.
  intros (dq0 & status & Hz & Hfind & Hfov & Hcopy)%plane_miri_steps Hlen Hzero.
  rewrite Hzero in Hfind. simplify_eq. cbn [Z.eqb] in *.
  apply zero_fill_spec in Hz as ->; [|done]. split; [done|].
  destruct Hcopy as (_ & _ & Hpost). intros k Hk.
  destruct (Hpost (w * (nx * ny) + k)) as (H0 & v & Hv & Hrd); [lia|].
  split; [done|]. rewrite Hv.
  replace (w * (nx * ny) + k - nx * ny * w) with k in Hrd by lia.
  by apply rd_Some in Hrd as [_ ->].
Qed.

Lemma planes_miri_coverage (w : Z) (idqv dq : list Z) (uninit cs : corners)
    (s' : list Z * list Z * corners) :
  0 ≤ w < nz →
  length dq = Z.to_nat (nx * ny) →
  corner_wave_plane_miri w start_region end_region roiw_ave zc cloud uninit
    = Some (0, cs) →
  for_range 0 nz plane (idqv, dq, uninit) = Some s' →
  ∃ dqw, fov cs (replicate (Z.to_nat (nx * ny)) 0) = Some dqw
         ∧ ∀ k, 0 ≤ k < nx * ny →
                s'.1.1 !! Z.to_nat (w * (nx * ny) + k) = dqw !! Z.to_nat k.
Proof.
  intros Hw Hlen Hfind Hrun.
  pose (P := λ (j : Z) (t : list Z * list Z * corners),
    length t.1.2 = Z.to_nat (nx * ny)
    ∧ (w < j →
       ∃ dqw, fov cs (replicate (Z.to_nat (nx * ny)) 0) = Some dqw
              ∧ ∀ k, 0 ≤ k < nx * ny →
                     0 ≤ w * (nx * ny) + k
                     ∧ t.1.1 !! Z.to_nat (w * (nx * ny) + k)
                       = dqw !! Z.to_nat k)).
  enough (P nz s') as [_ HP].
  { destruct HP as (dqw & Hfov & Hreg); [lia|]. exists dqw.
    split; [done|]. intros k Hk. by apply Hreg. }
  eapply (for_range_inv P _ 0); [lia| | |exact Hrun].
  - split; [done|]. intros ?; lia.
  - intros j [[a b] c] [[a' b'] c'] Hj [Hb HP] Hbody. cbn [fst snd] in *.
    split; [by eapply plane_miri_scratch|]. intros Hwj.
    destruct (decide (j = w)) as [->|Hne].
    + exists b'. eapply plane_miri_copy; [exact Hbody|done|].
      by eapply corner_status_zero.
    + destruct HP as (dqw & Hfov & Hreg); [lia|]. exists dqw.
      split; [done|]. intros k Hk. destruct (Hreg k Hk) as [H0 Hv].
      split; [done|]. rewrite <- Hv.
      apply plane_miri_spec in Hbody as (_ & Hfr & _). apply Hfr.
      rewrite Z2Nat.id by done. intros Hin. apply Hne. symmetry.
      apply (region_disjoint (nx * ny) w j k
               (w * (nx * ny) + k - nx * ny * j)); lia.
Qed.

(** Every plane stores flags: an entry of the output vector or of the
    scratch buffer stays 0, [overlap_partial] or [overlap_full]. *)
Lemma plane_miri_flags (w : Z) (s s' : list Z * list Z * corners) :
  plane w s = Some s' →
  (∀ k v, s.1.1 !! k = Some v → flag v) →
  (∀ k v, s.1.2 !! k = Some v → flag v) →
  length s'.1.1 = length s.1.1
  ∧ (∀ k v, s'.1.1 !! k = Some v → flag v)
  ∧ (∀ k v, s'.1.2 !! k = Some v → flag v).
Proof.
  destruct s as [[idqv dq] cs0], s' as [[idqv' dq'] cs'].
  intros (dq0 & status & Hz & _ & Hfov & Hcopy)%plane_miri_steps Ha Hb.
  cbn [fst snd] in *.
  assert (∀ k v, dq0 !! k = Some v → flag v) as Hdq0.
  { apply zero_fill_written in Hz as (_ & Hfr & Hpost). intros k v Hv.
    destruct (decide (0 ≤ Z.of_nat k < nx * ny)) as [Hin|Hout].
    - destruct (Hpost _ Hin) as (_ & u & Hu & ->).
      rewrite Nat2Z.id in Hu. left. congruence.
    - rewrite Hfr in Hv by done. by eapply Hb. }
  assert (∀ k v, dq' !! k = Some v → flag v) as Hdq'.
  { destruct (status =? 0); [|by simplify_eq].
    apply overlap_fov_values in Hfov as [_ Hval]. intros k v Hv.
    destruct (Hval k) as [E|[E|E]]; rewrite E in Hv.
    - by eapply Hdq0.
    - right. left. congruence.
    - right. right. congruence. }
  destruct Hcopy as (Hlen & Hfr & Hpost). split_and!; [done| |done].
  intros k v Hv.
  destruct (decide (nx * ny * w ≤ Z.of_nat k < nx * ny * w + nx * ny))
    as [Hin|Hout].
  - destruct (Hpost _ Hin) as (_ & u & Hu & HQ). rewrite Nat2Z.id in Hu.
    assert (u = v) as -> by congruence.
    destruct (status =? 0); [|by left].
    apply rd_Some in HQ as [_ HQ]. by eapply Hdq'.
  - rewrite Hfr in Hv by done. by eapply Ha.
Qed.

(** A plane with a region that is not empty stores up to the end of its
    region: the output vector has room for it. *)
Lemma plane_miri_room (w : Z) (s s' : list Z * list Z * corners) :
  plane w s = Some s' → 0 < nx * ny →
  length s'.1.1 = length s.1.1
  ∧ nx * ny * (w + 1) ≤ Z.of_nat (length s.1.1).
Proof.
  destruct s as [[idqv dq] cs0], s' as [[idqv' dq'] cs'].
  intros (dq0 & status & _ & _ & _ & Hlen & _ & Hpost)%plane_miri_steps Hnxy.
  cbn [fst snd]. split; [done|].
  destruct (Hpost (nx * ny * w + nx * ny - 1)) as (H0 & v & Hv & _); [lia|].
  apply lookup_lt_Some in Hv. lia.
Qed.

End MiriCoverage.

(** X15: the region of a wavelength plane in the output of [dq_miri].
    When the boundary finder finds the corners of plane [w], the entries
    [w*nx*ny .. (w+1)*nx*ny - 1] of the output vector are the scratch
    buffer that the polygon rasterizer returns for these corners on
    [nx*ny] zeros: the planes do not see each other's flags. *)
Theorem dq_miri_plane_coverage
    (sh : float → float → float → float → list float → list float → float)
    (start_region end_region overlap_partial overlap_full nx ny nz : Z)
    (cdelt1 cdelt2 roiw_ave : float) (xc yc zc : list float)
    (cloud : list point) (heap : nat → bool) (ncube : Z)
    (uninit cs : corners) (out : list Z) (w : Z) :
  dq_miri sh start_region end_region overlap_partial overlap_full nx ny nz
    cdelt1 cdelt2 roiw_ave xc yc zc cloud heap ncube uninit
    = Some (0, Some out) →
  0 ≤ w < nz →
  corner_wave_plane_miri w start_region end_region roiw_ave zc cloud uninit
    = Some (0, cs) →
  ∃ dq,
    overlap_fov_with_spaxels sh overlap_partial overlap_full cdelt1 cdelt2
      nx ny xc yc
      [(corner1 cs).1; (corner2 cs).1; (corner3 cs).1; (corner4 cs).1]
      [(corner1 cs).2; (corner2 cs).2; (corner3 cs).2; (corner4 cs).2]
      (replicate (Z.to_nat (nx * ny)) 0) = Some dq
    ∧ ∀ k, 0 ≤ k < nx * ny →
           out !! Z.to_nat (w * (nx * ny) + k) = dq !! Z.to_nat k.
Proof.
  intros Hrun Hw Hfind. unfold dq_miri, mem_alloc_dq in Hrun.
  destruct (heap 0%nat); [|done]. destruct (heap 1%nat); [|done].
  apply bind_Some in Hrun as ([[idqv dq] cs'] & Hloop & Hret). simplify_eq.
  eapply planes_miri_coverage in Hloop as (dqw & Hfov & Hreg);
    [|done|apply length_replicate|done].
  by exists dqw.
Qed.

Lemma dq_miri_plane_coverage_witness :
  let sh := λ (_ _ xl yl : float) (_ _ : list float), (xl * yl)%float in
  let cloud := [Point 0 3 5 1; Point 10 3 5 1; Point 0 10 5 2;
                Point 10 10 5 2]%float in
  let uninit := Corners (7, 7)%float (7, 7)%float (7, 7)%float (7, 7)%float in
  ∃ out dq,
    dq_miri sh 1 2 1 2 2 2 2 1 (-1) 1 [2; 4]%float [2; 4]%float [9; 5]%float
      cloud (λ _, true) 8 uninit = Some (0, Some out)
    ∧ overlap_fov_with_spaxels sh 1 2 1 (-1) 2 2 [2; 4]%float [2; 4]%float
        [0; 10; 10; 0]%float [3; 3; 10; 10]%float (replicate 4 0) = Some dq
    ∧ ∀ k, 0 ≤ k < 4 → out !! Z.to_nat (1 * 4 + k) = dq !! Z.to_nat k.
Proof.
  intros sh cloud uninit. eexists.
  destruct (dq_miri_plane_coverage sh 1 2 1 2 2 2 2 1 (-1) 1 [2; 4]%float
              [2; 4]%float [9; 5]%float cloud (λ _, true) 8 uninit
              (Corners (0, 3)%float (10, 3)%float (10, 10)%float
                 (0, 10)%float) _ 1
              ltac:(vm_compute; reflexivity) ltac:(lia)
              ltac:(vm_compute; reflexivity)) as (dq & Hfov & Hreg).
  exists dq. split_and!; [reflexivity|exact Hfov|exact Hreg].
Defined.

(** X16: the output vector of [dq_miri] has [ncube] entries, and each is
    0, [overlap_partial] or [overlap_full]. *)
Theorem dq_miri_flags
    (sh : float → float → float → float → list float → list float → float)
    (start_region end_region overlap_partial overlap_full nx ny nz : Z)
    (cdelt1 cdelt2 roiw_ave : float) (xc yc zc : list float)
    (cloud : list point) (heap : nat → bool) (ncube : Z)
    (uninit : corners) (status : Z) (out : list Z) :
  dq_miri sh start_region end_region overlap_partial overlap_full nx ny nz
    cdelt1 cdelt2 roiw_ave xc yc zc cloud heap ncube uninit
    = Some (status, Some out) →
  length out = Z.to_nat ncube
  ∧ ∀ v, v ∈ out → v = 0 ∨ v = overlap_partial ∨ v = overlap_full.
Proof.
  intros Hrun. unfold dq_miri, mem_alloc_dq in Hrun.
  destruct (heap 0%nat); [|done]. destruct (heap 1%nat); [|done].
  apply bind_Some in Hrun as ([[idqv dq] cs'] & Hloop & Hret). simplify_eq.
  destruct (Z.le_gt_cases nz 0) as [Hnz|Hnz].
  { rewrite for_range_empty in Hloop by done. simplify_eq.
    split; [apply length_replicate|].
    intros v [-> _]%elem_of_replicate. by left. }
  pose (P := λ (_ : Z) (t : list Z * list Z * corners),
    length t.1.1 = Z.to_nat ncube
    ∧ (∀ k v, t.1.1 !! k = Some v →
              v = 0 ∨ v = overlap_partial ∨ v = overlap_full)
    ∧ (∀ k v, t.1.2 !! k = Some v →
              v = 0 ∨ v = overlap_partial ∨ v = overlap_full)).
  assert (P nz (out, dq, cs')) as (Hlen & Hval & _).
  { eapply (for_range_inv P _ 0); [lia| | |exact Hloop].
    - split_and!; cbn [fst snd]; [apply length_replicate|..];
        intros k v [-> _]%lookup_replicate; by left.
    - intros j t t' _ (Hlen & Ha & Hb) Hbody.
      edestruct plane_miri_flags as (Hlen' & Ha' & Hb');
        [exact Hbody|exact Ha|exact Hb|].
      split_and!; [congruence|done..]. }
  split; [done|]. intros v [k Hk]%list_elem_of_lookup_1. by eapply Hval.
Qed.

Lemma dq_miri_flags_witness :
  let sh := λ (_ _ xl yl : float) (_ _ : list float), (xl * yl)%float in
  let cloud := [Point 0 3 5 1; Point 10 3 5 1; Point 0 10 5 2;
                Point 10 10 5 2]%float in
  let uninit := Corners (7, 7)%float (7, 7)%float (7, 7)%float (7, 7)%float in
  ∃ out,
    dq_miri sh 1 2 1 2 2 2 2 1 (-1) 1 [2; 4]%float [2; 4]%float [9; 5]%float
      cloud (λ _, true) 8 uninit = Some (0, Some out)
    ∧ length out = 8%nat
    ∧ ∀ v, v ∈ out → v = 0 ∨ v = 1 ∨ v = 2.
Proof.
  intros sh cloud uninit. eexists. split; [vm_compute; reflexivity|].
  apply (dq_miri_flags sh 1 2 1 2 2 2 2 1 (-1) 1 [2; 4]%float
           [2; 4]%float [9; 5]%float cloud (λ _, true) 8 uninit 0).
  vm_compute. reflexivity.
Defined.

(** X17: [dq_miri] stores the region of every plane, found or not: with
    both allocations done, at least one plane and a region that is not
    empty, an output vector of fewer than [nx*ny*nz] entries is written
    past its end; the behaviour is undefined. *)
Theorem dq_miri_needs_room
    (sh : float → float → float → float → list float → list float → float)
    (start_region end_region overlap_partial overlap_full nx ny nz : Z)
    (cdelt1 cdelt2 roiw_ave : float) (xc yc zc : list float)
    (cloud : list point) (heap : nat → bool) (ncube : Z)
    (uninit : corners) :
  heap 0%nat = true → heap 1%nat = true →
  0 < nz → 0 < nx * ny → ncube < nx * ny * nz →
  dq_miri sh start_region end_region overlap_partial overlap_full nx ny nz
    cdelt1 cdelt2 roiw_ave xc yc zc cloud heap ncube uninit = None.
Proof.
  intros H0 H1 Hnz Hnxy Hroom. unfold dq_miri, mem_alloc_dq.
  rewrite H0, H1.
  destruct (for_range 0 nz _ _) as [[[idqv dq] cs']|] eqn:Hloop; [|done].
  exfalso.
  pose (P := λ (j : Z) (t : list Z * list Z * corners),
    length t.1.1 = Z.to_nat ncube
    ∧ (0 < j → nx * ny * j ≤ Z.of_nat (Z.to_nat ncube))).
  assert (P nz (idqv, dq, cs')) as [_ Hend].
  { eapply (for_range_inv P _ 0); [lia| | |exact Hloop].
    - split; [apply length_replicate|lia].
    - intros j t t' Hj [Hlen _] Hbody.
      edestruct plane_miri_room as [Hlen' Hle]; [exact Hbody|exact Hnxy|].
      split; [congruence|]. intros _. by rewrite <- Hlen. }
  specialize (Hend Hnz). nia.
Qed.

Lemma dq_miri_needs_room_witness :
  dq_miri (λ (_ _ xl yl : float) (_ _ : list float), (xl * yl)%float)
    1 2 1 2 2 2 2 1 (-1) 1 [2; 4]%float [2; 4]%float [9; 5]%float
    [Point 0 3 5 1; Point 10 3 5 1]%float (λ _, true) 7
    (Corners (7, 7)%float (7, 7)%float (7, 7)%float (7, 7)%float) = None.
Proof.
  apply dq_miri_needs_room; (reflexivity || lia).
Defined.

(** ** The orchestrator of Instrument B, in general *)

Section NirspecCoverage.

Context (overlap_partial : Z) (nx ny nz : Z).
Context (cdelt1 cdelt2 roiw_ave : float).
Context (xc yc zc : list float) (cloud : list point).

Local Abbreviation planes :=
  (planes_nirspec overlap_partial nx ny cdelt1 cdelt2 roiw_ave xc yc zc cloud).
Local Abbreviation slice :=
  (slice_body overlap_partial nx ny cdelt1 cdelt2 xc yc).
Local Abbreviation scratch :=
  (plane_scratch overlap_partial nx ny cdelt1 cdelt2 xc yc).
Local Abbreviation copy dq w0 :=
  (λ (in_ : Z) (idqv : option (list Z)),
     v ← rd dq (in_ - nx * ny * w0); wr_ptr idqv in_ v).

(** A slice draws its line if it is matched, and then sets [slice_found];
    it changes nothing otherwise. *)
Lemma slice_body_spec (t : slice_table) (islice : Z) (s s' : Z * list Z) :
  slice t islice s = Some s' →
  ∃ m, rd (match_slice t) islice = Some m
       ∧ (if m =? 1 then s'.1 = 1 else s' = s)
       ∧ length s'.2 = length s.2
       ∧ ∀ k, s'.2 !! k = s.2 !! k ∨ s'.2 !! k = Some overlap_partial.
Proof.
  destruct s as [found dq]. unfold slice_body. intros H.
  apply bind_Some in H as (a1 & _ & H). apply bind_Some in H as (a2 & _ & H).
  apply bind_Some in H as (a3 & _ & H). apply bind_Some in H as (a4 & _ & H).
  apply bind_Some in H as (m & Hm & H). exists m. split; [done|].
  destruct (m =? 1).
  - apply bind_Some in H as (x0 & _ & H). apply bind_Some in H as (y0 & _ & H).
    apply bind_Some in H as (dq' & Hline & H). simplify_eq. cbn [fst snd].
    apply overlap_slice_values in Hline as [Hlen Hval]. by split_and!.
  - simplify_eq. split_and!; [done..|]. by left.
Qed.

(** The 30 slices of a plane: [slice_found] is 1 exactly when a slice is
    matched, the buffer keeps its length and an entry is the entry it was
    or [overlap_partial]; without a matched slice nothing is stored. *)
Lemma slices_spec (t : slice_table) (dq0 dq : list Z) (found : Z) :
  for_range 0 30 (slice t) (0, dq0) = Some (found, dq) →
  (found = 1 ∧ (∃ i, (i < 30)%nat ∧ match_slice t !! i = Some 1)
   ∨ found = 0 ∧ dq = dq0
     ∧ ¬ (∃ i, (i < 30)%nat ∧ match_slice t !! i = Some 1))
  ∧ length dq = length dq0
  ∧ ∀ k, dq !! k = dq0 !! k ∨ dq !! k = Some overlap_partial.
Proof.
  intros Hrun.
  pose (P := λ (j : Z) (s : Z * list Z),
    (s.1 = 1 ∧ (∃ i, (i < 30)%nat ∧ match_slice t !! i = Some 1)
     ∨ s.1 = 0 ∧ s.2 = dq0
       ∧ ¬ (∃ i, (Z.of_nat i < j) ∧ match_slice t !! i = Some 1))
    ∧ length s.2 = length dq0
    ∧ ∀ k, s.2 !! k = dq0 !! k ∨ s.2 !! k = Some overlap_partial).
  assert (P 30 (found, dq)) as (Hf & Hlen & Hval).
  { eapply (for_range_inv P _ 0 30); [lia| | |exact Hrun].
    - split_and!; [|done|by left]. right. split_and!; [done..|].
      intros (i & Hi & _). lia.
    - intros j s s' Hj (Hf & Hlen & Hval) Hbody.
      apply slice_body_spec in Hbody as (m & Hm & Hs & Hlen' & Hval').
      apply rd_Some in Hm as [_ Hm].
      split_and!; [|congruence|].
      + destruct (Z.eqb_spec m 1) as [->|Hne].
        * left. split; [done|]. exists (Z.to_nat j). split; [lia|done].
        * subst s'. destruct Hf as [?|(? & ? & Hno)]; [by left|right].
          split_and!; [done..|]. intros (i & Hi & Hmi).
          destruct (decide (Z.of_nat i = j)) as [<-|?].
          { rewrite Nat2Z.id in Hm. congruence. }
          apply Hno. exists i. split; [lia|done].
      + intros k. destruct (Hval' k) as [->|?]; auto. }
  cbn [fst snd] in *. split_and!; [|done..].
  destruct Hf as [?|(? & ? & Hno)]; [by left|right].
  split_and!; [done..|]. intros (i & Hi & Hmi). apply Hno.
  exists i. split; [lia|done].
Qed.

(** One plane, read off the loop body: the scratch buffer is
    [plane_scratch], and it is copied to the region of the plane when a
    point is on the plane and a slice was found. *)
Lemma planes_nirspec_unfold (heap : nat → bool) (n : nat) (w0 : Z)
    (idqv : option (list Z)) (r : Z * option (list Z)) :
  planes heap (S n) w0 idqv = Some r →
  ∃ zw t imatch,
    rd zc w0 = Some zw
    ∧ match_wave_plane_nirspec zw roiw_ave cloud = Some (t, imatch)
    ∧ (heap (S (Z.to_nat w0)) = false ∧ r = (1, None)
       ∨ heap (S (Z.to_nat w0)) = true
         ∧ ∃ (found : Z) (dq : list Z) (idqv' : option (list Z)),
             scratch t imatch = Some (found, dq)
             ∧ (if (0 <? imatch) && (found =? 1)
                then for_range (nx * ny * w0) (nx * ny * w0 + nx * ny)
                       (copy dq w0) idqv
                else Some idqv) = Some idqv'
             ∧ planes heap n (w0 + 1) idqv' = Some r).
Proof.
  cbn [planes_nirspec]. intros H.
  apply bind_Some in H as (zw & Hzw & H).
  apply bind_Some in H as ([t imatch] & Hm & H).
  exists zw, t, imatch. split_and!; [done..|].
  unfold mem_alloc_dq in H. destruct (heap (S (Z.to_nat w0))).
  2:{ left. by simplify_eq. }
  right. split; [done|].
  apply bind_Some in H as (dq0 & Hz & H).
  apply zero_fill_spec in Hz as ->; [|apply length_replicate].
  apply bind_Some in H as ([found dq] & Hs & H).
  apply bind_Some in H as (idqv' & Hcopy & H).
  by exists found, dq, idqv'.
Qed.

(** What the copy of a plane stores. *)
Lemma copy_spec (dq a : list Z) (w0 : Z) (p : option (list Z)) :
  for_range (nx * ny * w0) (nx * ny * w0 + nx * ny) (copy dq w0) (Some a)
    = Some p →
  ∃ a', p = Some a'
        ∧ written (λ i v, rd dq (i - nx * ny * w0) = Some v)
            (nx * ny * w0) (nx * ny * w0 + nx * ny) a a'.
Proof.
  apply for_range_ptr_writes. intros i b q _ Hb.
  apply bind_Some in Hb as (v & Hv & Hw). eauto.
Qed.

(** The planes from [w0] on store nothing in the region of an earlier
    plane [w]. *)
Lemma planes_nirspec_frame (heap : nat → bool) (n : nat) (w0 : Z)
    (a out : list Z) (status : Z) (w k : Z) :
  planes heap n w0 (Some a) = Some (status, Some out) →
  w < w0 → 0 ≤ k < nx * ny → 0 ≤ w * (nx * ny) + k →
  out !! Z.to_nat (w * (nx * ny) + k) = a !! Z.to_nat (w * (nx * ny) + k).
Proof.
  intros H Hw Hk Hidx. revert w0 a H Hw.
  induction n as [|n IH]; intros w0 a H Hw.
  { cbn in H. by simplify_eq. }
  apply planes_nirspec_unfold in H
    as (zw & t & imatch & _ & _
        & [[_ ?]|(_ & found & dq & idqv' & _ & Hc & H)]).
  { by simplify_eq. }
  destruct ((0 <? imatch) && (found =? 1)).
  2:{ simplify_eq. eapply IH; [done|lia]. }
  apply copy_spec in Hc as (a' & -> & _ & Hfr & _).
  rewrite (IH _ _ H) by lia. apply Hfr. rewrite Z2Nat.id by done.
  intros Hin.
  assert (w = w0); [|lia].
  apply (region_disjoint (nx * ny) w w0 k
           (w * (nx * ny) + k - nx * ny * w0)); lia.
Qed.

(** The region of plane [w] after the planes from [w0] on. *)
Lemma planes_nirspec_coverage (heap : nat → bool) (n : nat) (w0 : Z)
    (a out : list Z) (status : Z) (w : Z) (zw : float) (t : slice_table)
    (imatch found : Z) (dq : list Z) (k : Z) :
  planes heap n w0 (Some a) = Some (status, Some out) →
  w0 ≤ w < w0 + Z.of_nat n →
  rd zc w = Some zw →
  match_wave_plane_nirspec zw roiw_ave cloud = Some (t, imatch) →
  scratch t imatch = Some (found, dq) →
  0 ≤ k < nx * ny → 0 ≤ w * (nx * ny) + k →
  out !! Z.to_nat (w * (nx * ny) + k)
  = if (0 <? imatch) && (found =? 1) then dq !! Z.to_nat k
    else a !! Z.to_nat (w * (nx * ny) + k).
Proof.
  intros H Hw Hzw Hm Hs Hk Hidx. revert w0 a H Hw.
  induction n as [|n IH]; intros w0 a H Hw; [lia|].
  apply planes_nirspec_unfold in H
    as (zw0 & t0 & imatch0 & Hzw0 & Hm0
        & [[_ ?]|(_ & found0 & dq0 & idqv' & Hs0 & Hc & H)]).
  { by simplify_eq. }
  destruct (decide (w = w0)) as [->|Hne].
  - simplify_eq. destruct ((0 <? imatch) && (found =? 1)).
    + apply copy_spec in Hc as (a' & -> & _ & _ & Hpost).
      rewrite (planes_nirspec_frame _ _ _ _ _ _ _ _ H) by lia.
      destruct (Hpost (w0 * (nx * ny) + k)) as (_ & v & -> & Hv); [lia|].
      replace (w0 * (nx * ny) + k - nx * ny * w0) with k in Hv by lia.
      by apply rd_Some in Hv as [_ ->].
    + simplify_eq. apply (planes_nirspec_frame _ _ _ _ _ _ _ _ H); lia.
  - assert (∃ a', idqv' = Some a'
                  ∧ a' !! Z.to_nat (w * (nx * ny) + k)
                    = a !! Z.to_nat (w * (nx * ny) + k)) as (a' & -> & Ha').
    { destruct ((0 <? imatch0) && (found0 =? 1));
        [|simplify_eq; by eexists].
      apply copy_spec in Hc as (a' & -> & _ & Hfr & _). exists a'.
      split; [done|]. apply Hfr. rewrite Z2Nat.id by done. intros Hin.
      apply Hne.
      apply (region_disjoint (nx * ny) w w0 k
               (w * (nx * ny) + k - nx * ny * w0)); lia. }
    rewrite (IH _ _ H) by lia. by rewrite Ha'.
Qed.

(** The planes store 0 and [overlap_partial] only. *)
Lemma planes_nirspec_flags (heap : nat → bool) (n : nat) (w0 : Z)
    (a out : list Z) (status : Z) :
  planes heap n w0 (Some a) = Some (status, Some out) →
  (∀ k v, a !! k = Some v → v = 0 ∨ v = overlap_partial) →
  length out = length a
  ∧ ∀ k v, out !! k = Some v → v = 0 ∨ v = overlap_partial.
Proof.
  revert w0 a. induction n as [|n IH]; intros w0 a H Ha.
  { cbn in H. by simplify_eq. }
  apply planes_nirspec_unfold in H
    as (zw & t & imatch & _ & _
        & [[_ ?]|(_ & found & dq & idqv' & Hs & Hc & H)]).
  { by simplify_eq. }
  destruct ((0 <? imatch) && (found =? 1)) eqn:E.
  2:{ simplify_eq. by eapply IH. }
  apply andb_true_iff in E as [E _]. unfold plane_scratch in Hs.
  rewrite E in Hs. apply slices_spec in Hs as (_ & _ & Hval).
  apply copy_spec in Hc as (a' & -> & Hlen & Hfr & Hpost).
  apply IH in H as [Hlen' Hout]; [split; [congruence|done]|].
  intros i v Hv.
  destruct (decide (nx * ny * w0 ≤ Z.of_nat i < nx * ny * w0 + nx * ny))
    as [Hin|Hnot].
  - destruct (Hpost _ Hin) as (_ & u & Hu & Hrd).
    rewrite Nat2Z.id in Hu. assert (u = v) as -> by congruence.
    apply rd_Some in Hrd as [_ Hrd].
    destruct (Hval (Z.to_nat (Z.of_nat i - nx * ny * w0))) as [E'|E'];
      rewrite E' in Hrd.
    + apply lookup_replicate in Hrd as [-> _]. by left.
    + right. congruence.
  - rewrite Hfr in Hv by done. by eapply Ha.
Qed.

End NirspecCoverage.

Section NirspecRuns.

Context (overlap_partial : Z) (nx ny nz : Z).
Context (cdelt1 cdelt2 roiw_ave : float).
Context (xc yc zc : list float) (cloud : list point).

Local Abbreviation planes :=
  (planes_nirspec overlap_partial nx ny cdelt1 cdelt2 roiw_ave xc yc zc cloud).

(** A plane that was worked on has its scratch buffer. *)
Lemma planes_nirspec_scratch (heap : nat → bool) (n : nat) (w0 : Z)
    (idqv out : option (list Z)) (w : Z) (zw : float) (t : slice_table)
    (imatch : Z) :
  planes heap n w0 idqv = Some (0, out) →
  w0 ≤ w < w0 + Z.of_nat n →
  rd zc w = Some zw →
  match_wave_plane_nirspec zw roiw_ave cloud = Some (t, imatch) →
  is_Some (plane_scratch overlap_partial nx ny cdelt1 cdelt2 xc yc t imatch).
Proof.
  intros H Hw Hzw Hm. revert w0 idqv H Hw.
  induction n as [|n IH]; intros w0 idqv H Hw; [lia|].
  apply planes_nirspec_unfold in H
    as (zw0 & t0 & imatch0 & Hzw0 & Hm0
        & [[_ ?]|(_ & found0 & dq0 & idqv' & Hs0 & _ & H)]).
  { by simplify_eq. }
  destruct (decide (w = w0)) as [->|Hne].
  - simplify_eq. by eexists.
  - eapply IH; [exact H|lia].
Qed.

(** The zeroing of the output vector. *)
Lemma dq_nirspec_start (heap : nat → bool) (ncube : Z)
    (r : Z * option (list Z)) :
  dq_nirspec overlap_partial nx ny nz cdelt1 cdelt2 roiw_ave xc yc zc cloud
    heap ncube = Some r →
  planes heap (Z.to_nat nz) 0
    (if heap 0%nat then Some (replicate (Z.to_nat ncube) 0) else None)
  = Some r.
Proof.
  unfold dq_nirspec. intros H. apply bind_Some in H as (idqv & Hzero & H).
  destruct (heap 0%nat).
  - apply (for_range_ptr_writes (λ _ v, v = 0)) in Hzero
      as (a & -> & Hlen & _ & Hpost); [|by eauto].
    enough (a = replicate (Z.to_nat ncube) 0) as <- by done.
    apply list_eq. intros k.
    destruct (decide (k < Z.to_nat ncube)%nat) as [Hk|Hk].
    + rewrite lookup_replicate_2 by done.
      destruct (Hpost (Z.of_nat k)) as (_ & v & Hv & ->); [lia|].
      by rewrite Nat2Z.id in Hv.
    + rewrite length_replicate in Hlen.
      rewrite !lookup_ge_None_2; [done| |lia].
      rewrite length_replicate. lia.
  - apply for_range_null in Hzero as ->; [done|]. done.
Qed.

End NirspecRuns.

(** X18: the region of a wavelength plane in the output of [dq_nirspec].
    With room for [nx*ny*nz] voxels, the entries
    [w*nx*ny .. (w+1)*nx*ny - 1] of the output vector are the scratch
    buffer of the plane: the lines of the slices that the extent finder
    matched on plane [w], drawn on [nx*ny] zeros.  A plane without a
    matched slice has a region of zeros. *)
Theorem dq_nirspec_plane_coverage (overlap_partial nx ny nz : Z)
    (cdelt1 cdelt2 roiw_ave : float) (xc yc zc : list float)
    (cloud : list point) (heap : nat → bool) (ncube : Z) (out : list Z)
    (w : Z) (zw : float) (t : slice_table) (imatch : Z) :
  dq_nirspec overlap_partial nx ny nz cdelt1 cdelt2 roiw_ave xc yc zc cloud
    heap ncube = Some (0, Some out) →
  0 ≤ w < nz → nx * ny * nz ≤ ncube →
  rd zc w = Some zw →
  match_wave_plane_nirspec zw roiw_ave cloud = Some (t, imatch) →
  ∃ found dq,
    plane_scratch overlap_partial nx ny cdelt1 cdelt2 xc yc t imatch
      = Some (found, dq)
    ∧ (∀ k, 0 ≤ k < nx * ny →
            out !! Z.to_nat (w * (nx * ny) + k) = dq !! Z.to_nat k)
    ∧ ((∃ i, (i < 30)%nat ∧ match_slice t !! i = Some 1)
       ∨ ∀ k, 0 ≤ k < nx * ny →
              out !! Z.to_nat (w * (nx * ny) + k) = Some 0).
Proof.
  intros Hrun Hw Hroom Hzw Hm. apply dq_nirspec_start in Hrun.
  destruct (heap 0%nat); [|by apply planes_nirspec_null in Hrun].
  edestruct planes_nirspec_scratch as [[found dq] Hs];
    [exact Hrun| |exact Hzw|exact Hm|]; [lia|].
  exists found, dq. split; [done|].
  assert (∀ k, 0 ≤ k < nx * ny →
               out !! Z.to_nat (w * (nx * ny) + k)
               = if (0 <? imatch) && (found =? 1) then dq !! Z.to_nat k
                 else Some 0) as Hreg.
  { intros k Hk.
    erewrite planes_nirspec_coverage;
      [|exact Hrun| |exact Hzw|exact Hm|exact Hs|exact Hk|]; [|lia|nia].
    destruct (_ && _); [done|]. apply lookup_replicate_2. nia. }
  unfold plane_scratch in Hs. destruct (0 <? imatch); cbn [andb] in Hreg.
  - apply slices_spec in Hs as ([[-> Hex]|(-> & -> & Hno)] & _ & _).
    + split; [done|by left].
    + assert (∀ k, 0 ≤ k < nx * ny →
                   out !! Z.to_nat (w * (nx * ny) + k) = Some 0) as Hz.
      { intros k Hk. by rewrite Hreg. }
      split; [|by right]. intros k Hk. rewrite Hz by done. symmetry.
      apply lookup_replicate_2. lia.
  - simplify_eq. split; [|by right]. intros k Hk. rewrite Hreg by done.
    symmetry. apply lookup_replicate_2. lia.
Qed.

Lemma dq_nirspec_plane_coverage_witness :
  let cloud := [Point 0 0 5 1; Point 3 1 5 1; Point 7 7 9 2]%float in
  let xc := [0; 1; 2; 3]%float in
  ∃ out t found dq,
    dq_nirspec 4 4 4 2 1 1 1 xc xc [9; 5]%float cloud (λ _, true) 32
      = Some (0, Some out)
    ∧ plane_scratch 4 4 4 1 1 xc xc t 2 = Some (found, dq)
    ∧ dq !! 0%nat = Some 4
    ∧ ∀ k, 0 ≤ k < 16 → out !! Z.to_nat (1 * 16 + k) = dq !! Z.to_nat k.
Proof.
  intros cloud xc.
  destruct (match_wave_plane_nirspec 5 1 cloud) as [[t imatch]|] eqn:Hm;
    [|by vm_compute in Hm].
  assert (imatch = 2) as -> by (vm_compute in Hm; congruence).
  eexists _, t.
  destruct (dq_nirspec_plane_coverage 4 4 4 2 1 1 1 xc xc [9; 5]%float cloud
              (λ _, true) 32 _ 1 5 t 2
              ltac:(vm_compute; reflexivity) ltac:(lia) ltac:(lia)
              ltac:(vm_compute; reflexivity) Hm)
    as (found & dq & Hs & Hreg & _).
  exists found, dq. split_and!; [reflexivity|exact Hs| |exact Hreg].
  pose proof (Hreg 0 ltac:(lia)) as H0.
  change (Z.to_nat 0) with 0%nat in H0. rewrite <- H0. vm_compute.
  reflexivity.
Defined.

(** X19: when [dq_nirspec] returns an output vector, it has [ncube]
    entries and each is 0 or [overlap_partial]. *)
Theorem dq_nirspec_flags (overlap_partial nx ny nz : Z)
    (cdelt1 cdelt2 roiw_ave : float) (xc yc zc : list float)
    (cloud : list point) (heap : nat → bool) (ncube : Z) (status : Z)
    (out : list Z) :
  dq_nirspec overlap_partial nx ny nz cdelt1 cdelt2 roiw_ave xc yc zc cloud
    heap ncube = Some (status, Some out) →
  length out = Z.to_nat ncube
  ∧ ∀ v, v ∈ out → v = 0 ∨ v = overlap_partial.
Proof.
  intros Hrun. apply dq_nirspec_start in Hrun.
  destruct (heap 0%nat); [|by apply planes_nirspec_null in Hrun].
  apply planes_nirspec_flags in Hrun as [Hlen Hval].
  - rewrite length_replicate in Hlen. split; [done|].
    intros v [k Hk]%list_elem_of_lookup_1. by eapply Hval.
  - intros k v [-> _]%lookup_replicate. by left.
Qed.

Lemma dq_nirspec_flags_witness :
  let cloud := [Point 0 0 5 1; Point 3 1 5 1; Point 7 7 9 2]%float in
  let xc := [0; 1; 2; 3]%float in
  ∃ out,
    dq_nirspec 4 4 4 2 1 1 1 xc xc [9; 5]%float cloud (λ _, true) 32
      = Some (0, Some out)
    ∧ length out = 32%nat ∧ ∀ v, v ∈ out → v = 0 ∨ v = 4.
Proof.
  intros cloud xc. eexists. split; [vm_compute; reflexivity|].
  apply (dq_nirspec_flags 4 4 4 2 1 1 1 xc xc [9; 5]%float cloud
           (λ _, true) 32 0).
  vm_compute. reflexivity.
Defined.

(** ** A cube without data *)

(** On an empty cloud the extent finder counts no point. *)
Lemma match_empty_cloud (wave_plane roiw_ave : float) (t : slice_table)
    (imatch : Z) :
  match_wave_plane_nirspec wave_plane roiw_ave [] = Some (t, imatch) →
  imatch = 0.
Proof.
  intros H.
  by destruct (match_wave_plane_spec _ _ _ _ _ 0%nat ltac:(lia) H) as [-> _].
Qed.

Lemma planes_nirspec_empty (overlap_partial nx ny : Z)
    (cdelt1 cdelt2 roiw_ave : float) (xc yc zc : list float)
    (heap : nat → bool) (n : nat) (w0 : Z) (a out : list Z) (status : Z) :
  planes_nirspec overlap_partial nx ny cdelt1 cdelt2 roiw_ave xc yc zc []
    heap n w0 (Some a) = Some (status, Some out) →
  out = a.
Proof.
  revert w0. induction n as [|n IH]; intros w0 H.
  { cbn in H. by simplify_eq. }
  apply planes_nirspec_unfold in H
    as (zw & t & imatch & _ & Hm
        & [[_ ?]|(_ & found & dq & idqv' & _ & Hc & H)]).
  { by simplify_eq. }
  apply match_empty_cloud in Hm as ->. cbn in Hc. simplify_eq.
  by eapply IH.
Qed.

Lemma planes_miri_empty
    (sh : float → float → float → float → list float → list float → float)
    (start_region end_region overlap_partial overlap_full nx ny nz : Z)
    (cdelt1 cdelt2 roiw_ave : float) (xc yc zc : list float)
    (s s' : list Z * list Z * corners) :
  for_range 0 nz
    (plane_miri sh start_region end_region overlap_partial overlap_full
       nx ny cdelt1 cdelt2 roiw_ave xc yc zc []) s = Some s' →
  (∀ k v, s.1.1 !! k = Some v → v = 0) →
  length s'.1.1 = length s.1.1 ∧ ∀ k v, s'.1.1 !! k = Some v → v = 0.
Proof.
  intros Hrun Hzero.
  destruct (Z.le_gt_cases nz 0) as [Hnz|Hnz].
  { rewrite for_range_empty in Hrun by done. by simplify_eq. }
  eapply (for_range_inv
            (λ _ t, length t.1.1 = length s.1.1
                    ∧ ∀ k v, t.1.1 !! k = Some v → v = 0) _ 0 nz);
    [lia|done| |exact Hrun].
  intros j [[a b] c] [[a' b'] c'] _ [Hlen Ha] Hbody. cbn [fst snd] in *.
  apply plane_miri_steps in Hbody
    as (dq0 & status & _ & Hfind & _ & Hlen' & Hfr & Hpost).
  assert (status = 1) as -> by (cbn in Hfind; congruence).
  split; [congruence|]. intros k v Hv.
  destruct (decide (nx * ny * j ≤ Z.of_nat k < nx * ny * j + nx * ny))
    as [Hin|Hout].
  - destruct (Hpost _ Hin) as (_ & u & Hu & ->).
    rewrite Nat2Z.id in Hu. congruence.
  - rewrite Hfr in Hv by done. by eapply Ha.
Qed.

Lemma all_zero (a : list Z) :
  (∀ k v, a !! k = Some v → v = 0) → a = replicate (length a) 0.
Proof.
  intros Hz. apply list_eq. intros k.
  destruct (a !! k) as [v|] eqn:E.
  - rewrite (Hz _ _ E). symmetry. apply lookup_replicate_2.
    by apply lookup_lt_Some in E.
  - symmetry. apply lookup_ge_None_2. rewrite length_replicate.
    by apply lookup_ge_None in E.
Qed.

(** X20: a cube without data.  When the cloud has no point, an output
    vector returned by [dq_miri] or by [dq_nirspec] is the vector of
    [ncube] zeros that [set_dqplane_to_zero] returns, with the same
    status 0. *)
Theorem no_data_is_zero_plane :
  (∀ sh start_region end_region overlap_partial overlap_full nx ny nz
     cdelt1 cdelt2 roiw_ave xc yc zc heap ncube uninit status out,
     dq_miri sh start_region end_region overlap_partial overlap_full
       nx ny nz cdelt1 cdelt2 roiw_ave xc yc zc [] heap ncube uninit
       = Some (status, Some out) →
     set_dqplane_to_zero true ncube = (status, Some out))
  ∧ (∀ overlap_partial nx ny nz cdelt1 cdelt2 roiw_ave xc yc zc heap ncube
       status out,
       dq_nirspec overlap_partial nx ny nz cdelt1 cdelt2 roiw_ave xc yc zc
         [] heap ncube = Some (status, Some out) →
       set_dqplane_to_zero true ncube = (status, Some out)).
Proof.
  split.
  - intros sh start_region end_region overlap_partial overlap_full nx ny nz
      cdelt1 cdelt2 roiw_ave xc yc zc heap ncube uninit status out Hrun.
    unfold dq_miri, mem_alloc_dq in Hrun.
    destruct (heap 0%nat); [|done]. destruct (heap 1%nat); [|done].
    apply bind_Some in Hrun as ([[idqv dq] cs'] & Hloop & Hret). simplify_eq.
    apply planes_miri_empty in Hloop as [Hlen Hz].
    2:{ intros k v [-> _]%lookup_replicate. done. }
    cbn [fst snd] in *. rewrite length_replicate in Hlen.
    unfold set_dqplane_to_zero, mem_alloc_dq.
    by rewrite (all_zero _ Hz), Hlen.
  - intros overlap_partial nx ny nz cdelt1 cdelt2 roiw_ave xc yc zc heap
      ncube status out Hrun.
    pose proof (dq_nirspec_status _ _ _ _ _ _ _ _ _ _ _ _ _ _ _ Hrun)
      as [[-> _]|(_ & ? & _)]; [|done].
    apply dq_nirspec_start in Hrun.
    destruct (heap 0%nat); [|by apply planes_nirspec_null in Hrun].
    by apply planes_nirspec_empty in Hrun as ->.
Qed.

Lemma no_data_is_zero_plane_witness :
  ∃ out,
    dq_nirspec 4 2 2 2 1 1 1 [2; 4]%float [2; 4]%float [9; 5]%float []
      (λ _, true) 8 = Some (0, Some out)
    ∧ set_dqplane_to_zero true 8 = (0, Some out).
Proof.
  eexists. split; [vm_compute; reflexivity|].
  apply (proj2 no_data_is_zero_plane 4 2 2 2 1%float 1%float 1%float
           [2; 4]%float [2; 4]%float [9; 5]%float (λ _, true) 8).
  vm_compute. reflexivity.
Defined.
